(** * btc-demo-go: the transaction construction pipeline of [main.go] and
    [helper.go], embedded in Rocq.

    - machine integers ([int64], [int]) are [Z] with the two's-complement
      wrap-around written out;
    - [float64] is the IEEE-754 binary64 format of [SpecFloat]
      ([prec = 53], [emax = 1024]);
    - the network ([GetUTXOs], [GetFeeRate]), the address and script codecs
      and the signing primitives of btcd are fields of a [World] record;
    - [sort.Slice] is taken through its contract ([SliceSorter]); the
      insertion sort that Go runs on short slices is one instance;
    - effects are a writer monad over a result type: the trace records the
      network calls and the signatures produced. *)

From Stdlib Require Import Strings.String Strings.Byte ZArith List Bool Lia Permutation Sorted.
From Stdlib Require Import SpecFloat.
Import ListNotations.

Local Open Scope Z_scope.

(** ** Machine integers *)

Module Int64.
Definition min_int64 : Z := - 2 ^ 63.
Definition max_int64 : Z := 2 ^ 63 - 1.

(** Two's-complement wrap-around of a 64-bit signed result. *)
Definition wrap64 (z : Z) : Z := (z + 2 ^ 63) mod 2 ^ 64 - 2 ^ 63.

Definition in_int64 (z : Z) : Prop := min_int64 <= z <= max_int64.

Definition add64 (a b : Z) : Z := wrap64 (a + b).
Definition sub64 (a b : Z) : Z := wrap64 (a - b).
Definition mul64 (a b : Z) : Z := wrap64 (a * b).
End Int64.
Import Int64.

(** ** Data model (helper.go, and the parts of btcd's [wire] the code uses) *)

Definition bytes := list byte.

(** [wire.OutPoint]: a 32-byte transaction hash and a [uint32] index. *)
Record OutPoint := { Hash : bytes; Index : Z }.

(** helper.go, [type UTXO struct]. *)
Record UTXO := { utxoOutPoint : OutPoint; Value : Z; PkScript : bytes }.

(** [wire.TxIn]; a nil slice and an empty slice are both the empty list. *)
Record TxIn := {
  PreviousOutPoint : OutPoint;
  SignatureScript : bytes;
  Witness : list bytes;
  Sequence : Z
}.

(** [wire.TxOut]. *)
Record TxOut := { outValue : Z; outPkScript : bytes }.

(** [wire.MsgTx]. *)
Record MsgTx := {
  Version : Z;
  txIn : list TxIn;
  txOut : list TxOut;
  LockTime : Z
}.

Definition TxVersion : Z := 1.
Definition MaxTxInSequenceNum : Z := 4294967295.
Definition SigHashAll : byte := x01.

Definition NewMsgTx (version : Z) : MsgTx :=
  {| Version := version; txIn := []; txOut := []; LockTime := 0 |}.

Definition NewTxIn (prevOut : OutPoint) (signatureScript : bytes)
    (witness : list bytes) : TxIn :=
  {| PreviousOutPoint := prevOut; SignatureScript := signatureScript;
     Witness := witness; Sequence := MaxTxInSequenceNum |}.

Definition NewTxOut (value : Z) (pkScript : bytes) : TxOut :=
  {| outValue := value; outPkScript := pkScript |}.

Definition AddTxIn (tx : MsgTx) (ti : TxIn) : MsgTx :=
  {| Version := Version tx; txIn := txIn tx ++ [ti];
     txOut := txOut tx; LockTime := LockTime tx |}.

Definition AddTxOut (tx : MsgTx) (to : TxOut) : MsgTx :=
  {| Version := Version tx; txIn := txIn tx;
     txOut := txOut tx ++ [to]; LockTime := LockTime tx |}.

Definition setTxIn (tx : MsgTx) (ins : list TxIn) : MsgTx :=
  {| Version := Version tx; txIn := ins;
     txOut := txOut tx; LockTime := LockTime tx |}.

(** ** helper.go, [IsSegwitScript] *)

Definition byteAt (script : bytes) (i : nat) : byte := nth i script x00.

Definition IsSegwitScript (script : bytes) : bool :=
  if (Nat.eqb (length script) 22
      && Byte.eqb (byteAt script 0) x00 && Byte.eqb (byteAt script 1) x14)%bool
  then true (* P2WPKH *)
  else if (Nat.eqb (length script) 34
      && Byte.eqb (byteAt script 0) x00 && Byte.eqb (byteAt script 1) x20)%bool
  then true (* P2WSH *)
  else false.

(** ** float64 and helper.go, [EstimateFee] *)

Module Float64.
Definition prec : Z := 53.
Definition emax : Z := 1024.

Definition float64 := spec_float.

(** IEEE-754 multiplication, round to nearest, ties to even. *)
Definition mul (x y : float64) : float64 := SFmul prec emax x y.

(** Go's [float64(i)] for an integer [i]: the nearest binary64. *)
Definition of_int (i : Z) : float64 := binary_normalize prec emax i 0 false.

(** The magnitude of a finite float, discarding the fraction. *)
Definition trunc_mag (m : positive) (e : Z) : Z :=
  if 0 <=? e then Z.shiftl (Zpos m) e else Z.shiftr (Zpos m) (- e).

(** Go's [int64(f)]: truncation toward zero.  Where the value is not
    representable (NaN, infinities, magnitude 2^63 and above) the Go
    specification leaves the result to the implementation; this is what
    amd64's CVTTSD2SQ returns, the smallest [int64]. *)
Definition to_int64 (f : float64) : Z :=
  match f with
  | S754_zero _ => 0
  | S754_finite s m e =>
      let t := trunc_mag m e in
      let v := if s then - t else t in
      if (min_int64 <=? v) && (v <=? max_int64) then v else min_int64
  | S754_infinity _ | S754_nan => min_int64
  end.
End Float64.
Import Float64.

(** Go's [int] on 64-bit targets. *)
Definition wrapInt : Z -> Z := wrap64.

Definition vsizeOf (numInputs numOutputs : Z) : Z :=
  let baseSize := 10 in
  let inputSize := wrapInt (68 * numInputs) in
  let outputSize := wrapInt (31 * numOutputs) in
  wrapInt (wrapInt (baseSize + inputSize) + outputSize).

Definition EstimateFee (numInputs numOutputs : Z) (feeRate : float64) : Z :=
  let vsize := vsizeOf numInputs numOutputs in
  wrap64 (to_int64 (mul (of_int vsize) feeRate) + 1).

(** ** [sort.Slice] *)

(** What [sort.Slice] promises for a comparator that is a strict weak order:
    the result is a rearrangement of the slice in which no later element is
    [less] than an earlier one.  Nothing is promised about the relative order
    of elements that compare equal. *)
Definition strict_weak {A} (less : A -> A -> bool) : Prop :=
  (forall a b, less a b = true -> less b a = false) /\
  (forall a b c, less b a = false -> less c b = false -> less c a = false).

Class SliceSorter := {
  sort_Slice : forall {A : Type}, (A -> A -> bool) -> list A -> list A;
  sort_Slice_perm : forall A (less : A -> A -> bool) l,
      Permutation l (sort_Slice less l);
  sort_Slice_sorted : forall A (less : A -> A -> bool), strict_weak less ->
      forall l, StronglySorted (fun a b => less b a = false) (sort_Slice less l)
}.

(** Go's [insertionSortLessFunc], the whole of [sort.Slice] on short slices
    (at most 12 elements since Go 1.19, at most 6 before): element [i] moves
    left while it is [less] than its left neighbour.  The sorted prefix is
    kept reversed, nearest neighbour first. *)
Module InsertionSort.
Section Sort.
Context {A : Type} (less : A -> A -> bool).

Fixpoint moveLeft (x : A) (revPrefix : list A) : list A :=
  match revPrefix with
  | [] => [x]
  | y :: rest => if less x y then y :: moveLeft x rest else x :: revPrefix
  end.

Fixpoint run (revPrefix : list A) (todo : list A) : list A :=
  match todo with
  | [] => rev revPrefix
  | x :: todo' => run (moveLeft x revPrefix) todo'
  end.

Definition sort (l : list A) : list A := run [] l.
End Sort.
End InsertionSort.

(** ** main.go, the selection loop of [selectUTXOs] *)

(** The comparator handed to [sort.Slice]: [utxos[i].Value > utxos[j].Value]. *)
Definition byValueDesc (a b : UTXO) : bool := Value b <? Value a.

(** [for _, utxo := range utxos { append; totalValue += utxo.Value;
    if totalValue >= amount { break } }] *)
Fixpoint accumulate (utxos : list UTXO) (amount : Z)
    (selectedUTXOs : list UTXO) (totalValue : Z) : list UTXO * Z :=
  match utxos with
  | [] => (selectedUTXOs, totalValue)
  | utxo :: rest =>
      let selectedUTXOs := selectedUTXOs ++ [utxo] in
      let totalValue := add64 totalValue (Value utxo) in
      if amount <=? totalValue then (selectedUTXOs, totalValue)
      else accumulate rest amount selectedUTXOs totalValue
  end.

(** The part of [selectUTXOs] after the fetch: sort, then accumulate. *)
Definition Select `{SliceSorter} (utxos : list UTXO) (amount : Z)
    : list UTXO * Z :=
  accumulate (sort_Slice byValueDesc utxos) amount [] 0.

(** ** Effects: errors, panics and the trace of external calls *)

Inductive error :=
| ErrDecodeAddress      (* "failed to decode address" *)
| ErrPayToAddrScript    (* "failed to create pay-to-address script" *)
| ErrGetUTXOs           (* "failed to get UTXOs" *)
| ErrGetFeeRate         (* any failure of GetFeeRate *)
| ErrNoChange           (* "no change to send" *)
| ErrSegwitSigHash (i : nat)  (* "failed to calculate segwit signature hash" *)
| ErrSignInput (i : nat)      (* "failed to sign input" *)
| ErrSerialize.         (* "failed to serialize transaction" *)

Inductive result (A : Type) :=
| Ok (a : A)
| Err (e : error)
| Panic.                (* index out of range *)
Arguments Ok {A} a.
Arguments Err {A} e.
Arguments Panic {A}.

Inductive event :=
| EvGetUTXOs (address : string)
| EvGetFeeRate
| EvSigHash (i : nat)   (* txscript.CalcWitnessSigHash for input i *)
| EvSign (i : nat).     (* ecdsa.Sign or txscript.SignatureScript for input i *)

Definition isSigning (ev : event) : bool :=
  match ev with
  | EvSigHash _ | EvSign _ => true
  | _ => false
  end.

Definition noSigning (trace : list event) : Prop :=
  forallb (fun ev => negb (isSigning ev)) trace = true.

Module Run.
Definition M (A : Type) : Type := list event * result A.

Definition ret {A} (a : A) : M A := ([], Ok a).
Definition err {A} (e : error) : M A := ([], Err e).
Definition panic {A} : M A := ([], Panic).
Definition emit (ev : event) : M unit := ([ev], Ok tt).

Definition bind {A B} (m : M A) (f : A -> M B) : M B :=
  match m with
  | (t, Ok a) => let (t', r) := f a in (t ++ t', r)
  | (t, Err e) => (t, Err e)
  | (t, Panic) => (t, Panic)
  end.

(** Lifting of a fallible external call. *)
Definition try {A} (o : option A) (e : error) : M A :=
  match o with
  | Some a => ret a
  | None => err e
  end.
End Run.
Import Run.

Declare Scope run_scope.
Delimit Scope run_scope with run.
Notation "x <- m ;; k" := (bind m (fun x => k))
  (at level 61, m at next level, right associativity) : run_scope.
Notation "' p <- m ;; k" := (bind m (fun p => k))
  (at level 61, p pattern, m at next level, right associativity) : run_scope.
Notation "m ;;; k" := (bind m (fun _ => k))
  (at level 61, right associativity) : run_scope.
Local Open Scope run_scope.

(** ** The outside world: network, codecs and signing primitives *)

Record World := {
  (** btcutil.DecodeAddress with the chain parameters fixed *)
  DecodeAddress : string -> option bytes;
  (** txscript.PayToAddrScript *)
  PayToAddrScript : bytes -> option bytes;
  (** helper.go GetUTXOs: the provider's answer for an address *)
  GetUTXOs : string -> option (list UTXO);
  (** helper.go GetFeeRate: the 1-block estimate *)
  GetFeeRate : option float64;
  (** txscript.NewTxSigHashes followed by txscript.CalcWitnessSigHash *)
  CalcWitnessSigHash : bytes -> list UTXO -> MsgTx -> nat -> Z -> option bytes;
  (** ecdsa.Sign followed by Serialize: the DER signature *)
  ecdsaSign : bytes -> bytes -> bytes;
  (** PubKey().SerializeCompressed() of a private key *)
  SerializeCompressed : bytes -> bytes;
  (** txscript.SignatureScript, compressed key *)
  txscript_SignatureScript : MsgTx -> nat -> bytes -> bytes -> option bytes;
  (** MsgTx.Serialize *)
  Serialize : MsgTx -> option bytes
}.

(** main.go, [type Wallet struct]. *)
Record Wallet := { privateKey : bytes; address : string }.

Section Pipeline.
Context {sorter : SliceSorter} (W : World).

(** main.go, [addOutput]. *)
Definition addOutput (tx : MsgTx) (receiverAddress : string) (amount : Z)
    : M MsgTx :=
  addr <- try (DecodeAddress W receiverAddress) ErrDecodeAddress ;;
  pkScript <- try (PayToAddrScript W addr) ErrPayToAddrScript ;;
  ret (AddTxOut tx (NewTxOut amount pkScript)).

(** main.go, [selectUTXOs]. *)
Definition selectUTXOs (address : string) (amount : Z)
    : M (list UTXO * Z) :=
  emit (EvGetUTXOs address) ;;;
  utxos <- try (GetUTXOs W address) ErrGetUTXOs ;;
  ret (Select utxos amount).

Definition withSignatureScript (ti : TxIn) (s : bytes) : TxIn :=
  {| PreviousOutPoint := PreviousOutPoint ti; SignatureScript := s;
     Witness := Witness ti; Sequence := Sequence ti |}.

Definition withWitness (ti : TxIn) (w : list bytes) : TxIn :=
  {| PreviousOutPoint := PreviousOutPoint ti;
     SignatureScript := SignatureScript ti;
     Witness := w; Sequence := Sequence ti |}.

(** One iteration of the loop of [addInputs]. *)
Definition addInput (tx : MsgTx) (utxo : UTXO) : MsgTx :=
  let ti := NewTxIn (utxoOutPoint utxo) [] [] in
  let ti := if IsSegwitScript (PkScript utxo)
            then withSignatureScript ti [] else ti in
  AddTxIn tx ti.

(** main.go, [addInputs]. *)
Definition addInputs (tx : MsgTx) (utxos : list UTXO) : M MsgTx :=
  ret (fold_left addInput utxos tx).

(** The loop of [signTransaction]: [signed] are the inputs already visited,
    [todo] those from index [i] on.  The transaction handed to the hashing
    and signing primitives is the current one, earlier inputs signed. *)
Fixpoint signLoop (tx : MsgTx) (privKey : bytes) (utxos : list UTXO)
    (signed todo : list TxIn) (i : nat) : M (list TxIn) :=
  match todo with
  | [] => ret signed
  | ti :: todo' =>
      match nth_error utxos i with
      | None => panic
      | Some u =>
          let cur := setTxIn tx (signed ++ todo) in
          if IsSegwitScript (PkScript u) then
            emit (EvSigHash i) ;;;
            hash <- try (CalcWitnessSigHash W (PkScript u) utxos cur i (Value u))
                        (ErrSegwitSigHash i) ;;
            emit (EvSign i) ;;;
            let sig := ecdsaSign W privKey hash ++ [SigHashAll] in
            let pkData := SerializeCompressed W privKey in
            signLoop tx privKey utxos
              (signed ++ [withWitness ti [sig; pkData]]) todo' (S i)
          else
            emit (EvSign i) ;;;
            sig <- try (txscript_SignatureScript W cur i (PkScript u) privKey)
                       (ErrSignInput i) ;;
            signLoop tx privKey utxos
              (signed ++ [withSignatureScript ti sig]) todo' (S i)
      end
  end.

(** main.go, [signTransaction]. *)
Definition signTransaction (tx : MsgTx) (privateKeyBytes : bytes)
    (utxos : list UTXO) : M MsgTx :=
  ins <- signLoop tx privateKeyBytes utxos [] (txIn tx) 0 ;;
  ret (setTxIn tx ins).

(** [changeAmount := totalValue - amount - fee] *)
Definition changeOf (totalValue amount fee : Z) : Z :=
  sub64 (sub64 totalValue amount) fee.

(** main.go, [CreateTransaction]. *)
Definition CreateTransaction (w : Wallet) (receiverAddress : string)
    (amount : Z) : M bytes :=
  let tx := NewMsgTx TxVersion in
  (* Add output *)
  tx <- addOutput tx receiverAddress amount ;;
  (* Add inputs *)
  '(selectedUTXOs, totalValue) <- selectUTXOs (address w) amount ;;
  tx <- addInputs tx selectedUTXOs ;;
  emit EvGetFeeRate ;;;
  feeRate <- try (GetFeeRate W) ErrGetFeeRate ;;
  let fee := EstimateFee (Z.of_nat (length selectedUTXOs)) 2 feeRate in
  let changeAmount := changeOf totalValue amount fee in
  tx <- (if 0 <? changeAmount then addOutput tx (address w) changeAmount
         else err ErrNoChange) ;;
  (* Sign transaction *)
  tx <- signTransaction tx (privateKey w) selectedUTXOs ;;
  (* Serialize transaction *)
  try (Serialize W tx) ErrSerialize.

(** The run of [CreateTransaction] up to the fee (lines 89-111): the
    transaction with the payment output and the inputs, the selection, its
    total and the fee. *)
Definition fund (w : Wallet) (receiverAddress : string) (amount : Z)
    : M (MsgTx * list UTXO * Z * Z) :=
  let tx := NewMsgTx TxVersion in
  tx <- addOutput tx receiverAddress amount ;;
  '(selectedUTXOs, totalValue) <- selectUTXOs (address w) amount ;;
  tx <- addInputs tx selectedUTXOs ;;
  emit EvGetFeeRate ;;;
  feeRate <- try (GetFeeRate W) ErrGetFeeRate ;;
  let fee := EstimateFee (Z.of_nat (length selectedUTXOs)) 2 feeRate in
  ret (tx, selectedUTXOs, totalValue, fee).

(** Lines 112-120: the change output, or "no change to send". *)
Definition addChange (w : Wallet) (tx : MsgTx) (totalValue amount fee : Z)
    : M MsgTx :=
  let changeAmount := changeOf totalValue amount fee in
  if 0 <? changeAmount then addOutput tx (address w) changeAmount
  else err ErrNoChange.

(** The run of [CreateTransaction] up to the signer (lines 89-120): the
    unsigned transaction handed to [signTransaction], with the UTXO list, the
    selected total and the fee. *)
Definition assemble (w : Wallet) (receiverAddress : string) (amount : Z)
    : M (MsgTx * list UTXO * Z * Z) :=
  '(tx, selectedUTXOs, totalValue, fee) <- fund w receiverAddress amount ;;
  tx <- addChange w tx totalValue amount fee ;;
  ret (tx, selectedUTXOs, totalValue, fee).
End Pipeline.

(** ** Vocabulary of the statements *)

(** The exact (unbounded) total of a list of UTXOs. *)
Definition sum_values (l : list UTXO) : Z :=
  fold_right (fun u acc => Value u + acc) 0 l.

(** [totalValue] after the loop of [selectUTXOs] has added [l], in order,
    starting from [tot]. *)
Definition runningTotal (tot : Z) (l : list UTXO) : Z :=
  fold_left (fun t u => add64 t (Value u)) l tot.

(** Number of iterations the loop of [selectUTXOs] performs. *)
Fixpoint taken (utxos : list UTXO) (amount tot : Z) : nat :=
  match utxos with
  | [] => O
  | u :: rest =>
      let tot := add64 tot (Value u) in
      if amount <=? tot then 1%nat else S (taken rest amount tot)
  end.

(** Values in non-increasing order. *)
Definition descending (l : list UTXO) : Prop :=
  StronglySorted (fun a b => Value b <= Value a) l.

(** [sub] is a sub-multiset of [l]. *)
Definition subMultiset (sub l : list UTXO) : Prop :=
  exists rest, Permutation (sub ++ rest) l.

(** The ledger's value domain (spec, data model): every value is a
    non-negative [int64], and the values together do not exceed [int64]. *)
Definition ledgerValues (l : list UTXO) : Prop :=
  Forall (fun u => 0 <= Value u) l /\ sum_values l <= max_int64.

(** The inputs as [addInputs] leaves them: one per UTXO, in order, with an
    empty unlocking script and no witness. *)
Definition freshInputs (utxos : list UTXO) : list TxIn :=
  map (fun u => NewTxIn (utxoOutPoint u) [] []) utxos.

(** What [signTransaction] does to input [i], spending [u]: [before] is the
    input as it entered the loop, [after] as it left. *)
Definition signedAs (W : World) (privKey : bytes)
    (utxos : list UTXO) (i : nat) (u : UTXO) (before after : TxIn) : Prop :=
  if IsSegwitScript (PkScript u) then
    exists cur hash,
      CalcWitnessSigHash W (PkScript u) utxos cur i (Value u) = Some hash /\
      after = withWitness before
                [ecdsaSign W privKey hash ++ [SigHashAll];
                 SerializeCompressed W privKey]
  else
    exists cur sig,
      txscript_SignatureScript W cur i (PkScript u) privKey = Some sig /\
      after = withSignatureScript before sig.

(** ** Sample data: the end-to-end scenarios of the specification *)

Module Sample.
Definition p2wpkh : bytes := x00 :: x14 :: repeat xaa 20.
Definition p2pkh : bytes := [x76; xa9; x14] ++ repeat xbb 20 ++ [x88; xac].

Definition utxo (tag : byte) (index value : Z) (script : bytes) : UTXO :=
  {| utxoOutPoint := {| Hash := repeat tag 32; Index := index |};
     Value := value; PkScript := script |}.

(** 2.140625 sat/vB: with one input and two outputs the fee is 300. *)
Definition rate : float64 :=
  Eval vm_compute in binary_normalize prec emax 137 (-6) false.

(** 1.0 sat/vB. *)
Definition unitRate : float64 := Eval vm_compute in of_int 1.

(** A world whose provider answers with [utxos] and [feeRate]; codecs and
    signing primitives are stand-ins that keep their arguments visible. *)
Definition world (utxos : list UTXO) (feeRate : option float64) : World :=
  {| DecodeAddress := fun a =>
       match list_byte_of_string a with [] => None | b => Some b end;
     PayToAddrScript := fun a => Some (x00 :: x14 :: a);
     GetUTXOs := fun _ => Some utxos;
     GetFeeRate := feeRate;
     CalcWitnessSigHash := fun script _ tx i value =>
       Some (x48 :: script);
     ecdsaSign := fun key hash => x30 :: key ++ hash;
     SerializeCompressed := fun key => x02 :: key;
     txscript_SignatureScript := fun _ _ script key => Some (x47 :: key ++ script);
     Serialize := fun tx => Some (map (fun o => x6f) (txOut tx)) |}.

Definition wallet : Wallet :=
  {| privateKey := [x11; x22]; address := "tb1qsender" |}.
Definition payee : string := "tb1qpayee".

(** One witness-type UTXO of 10,000 units. *)
Definition oneUTXO : list UTXO := [utxo x01 0 10000 p2wpkh].

(** Two UTXOs of the same value, told apart by their outpoints. *)
Definition utxoA : UTXO := utxo x0a 0 1000 p2wpkh.
Definition utxoB : UTXO := utxo x0b 1 1000 p2wpkh.

(** A witness-type and a legacy UTXO. *)
Definition mixed : list UTXO := [utxo x01 0 9000 p2wpkh; utxo x02 3 4000 p2pkh].
End Sample.

(** ** Vocabulary for binary64 *)

(** Exact values are written in fixed point: one unit is 2^-2148, fine
    enough for every binary64 and every product of two of them. *)
Definition fixS : Z := 2148.

(** The magnitude m * 2^e in those units. *)
Definition scaled (m : positive) (e : Z) : Z := Zpos m * 2 ^ (e + fixS).

(** The exact magnitude of a finite float (0 for the others). *)
Definition fixed (f : float64) : Z :=
  match f with
  | S754_finite _ m e => scaled m e
  | _ => 0
  end.

Definition isFinite (f : float64) : bool :=
  match f with
  | S754_zero _ | S754_finite _ _ _ => true
  | _ => false
  end.

Definition signBit (f : float64) : bool :=
  match f with
  | S754_zero s | S754_infinity s | S754_finite s _ _ => s
  | S754_nan => false
  end.

Definition signOf (f : float64) : Z := if signBit f then -1 else 1.

(** Zero or a positive finite value. *)
Definition nonnegFinite (f : float64) : bool :=
  match f with
  | S754_zero _ => true
  | S754_finite s _ _ => negb s
  | _ => false
  end.

(** No exponent below the smallest of binary64. *)
Definition expOK (f : float64) : Prop :=
  match f with
  | S754_finite _ _ e => -1074 <= e
  | _ => True
  end.

(** [v / 2^k] rounded to the nearest integer, ties to the even one. *)
Definition rneq (v k : Z) : Z :=
  let q := v / 2 ^ k in
  match 2 * (v mod 2 ^ k) ?= 2 ^ k with
  | Lt => q
  | Gt => q + 1
  | Eq => if Z.even q then q else q + 1
  end.

(** The exponent of the unit in the last place of binary64 at magnitude [v]:
    53 significant bits, none below 2^-1074. *)
Definition ulpExp (v : Z) : Z :=
  Z.max (Zdigits2 v - prec) (emin prec emax + fixS).

(** The binary64 nearest to the exact magnitude [v], ties to even. *)
Definition round64 (v : Z) : Z := rneq v (ulpExp v) * 2 ^ ulpExp v.

(** The last step of [binary_round_aux]: renormalise and classify. *)
Definition finish (s : bool) (q t : Z) : spec_float :=
  let '(mrs, e) := shr_fexp prec emax q t loc_Exact in
  match shr_m mrs with
  | Z0 => S754_zero s
  | Zpos m => if e <=? emax - prec then S754_finite s m e else S754_infinity s
  | Zneg _ => S754_nan
  end.

(** The virtual size without machine arithmetic. *)
Definition vsizeExact (n m : Z) : Z := 10 + 68 * n + 31 * m.

(** The binary64 product vsize x feeRate is below 2^63, where Go's
    conversion to [int64] is defined. *)
Definition feeInRange (n m : Z) (r : float64) : Prop :=
  round64 (vsizeExact n m * fixed r) < 2 ^ 63 * 2 ^ fixS.

(** ** helper.go, [utxoFetcher.FetchPrevOutput] and [GetBalance] *)

(** [==] on byte arrays and on [wire.OutPoint]: the hash and the index. *)
Fixpoint bytes_eqb (a b : bytes) : bool :=
  match a, b with
  | [], [] => true
  | x :: a', y :: b' => Byte.eqb x y && bytes_eqb a' b'
  | _, _ => false
  end.

Definition OutPoint_eqb (a b : OutPoint) : bool :=
  bytes_eqb (Hash a) (Hash b) && (Index a =? Index b).

(** helper.go, [utxoFetcher.FetchPrevOutput]; [None] is the nil pointer. *)
Fixpoint FetchPrevOutput (utxos : list UTXO) (outPoint : OutPoint)
    : option TxOut :=
  match utxos with
  | [] => None
  | utxo :: rest =>
      if OutPoint_eqb (utxoOutPoint utxo) outPoint
      then Some {| outValue := Value utxo; outPkScript := PkScript utxo |}
      else FetchPrevOutput rest outPoint
  end.

(** helper.go, [GetBalance].  The error of [GetUTXOs] is passed on as it is;
    the provider of [World] has one failure, written [ErrGetUTXOs]. *)
Definition GetBalance (W : World) (address : string) : M Z :=
  emit (EvGetUTXOs address) ;;;
  utxos <- try (GetUTXOs W address) ErrGetUTXOs ;;
  ret (fold_left (fun totalValue utxo => add64 totalValue (Value utxo)) utxos 0).

(** The previous output a UTXO stands for. *)
Definition prevOutOf (u : UTXO) : TxOut :=
  {| outValue := Value u; outPkScript := PkScript u |}.

(** The calls one input costs the signer: a signature hash and a signature for
    a witness-type UTXO, one call of txscript.SignatureScript otherwise. *)
Definition signEventsOf (i : nat) (u : UTXO) : list event :=
  if IsSegwitScript (PkScript u) then [EvSigHash i; EvSign i] else [EvSign i].

(** The same for inputs [i], [i+1], ... spending [utxos] in order. *)
Fixpoint signEvents (i : nat) (utxos : list UTXO) : list event :=
  match utxos with
  | [] => []
  | u :: rest => signEventsOf i u ++ signEvents (S i) rest
  end.

(** ** helper.go over HTTP: [GetScriptPubKey], [UTXO.UnmarshalJSON], [GetUTXOs] *)

Module Http.

Definition API_URL : string := "https://blockstream.info/testnet/api".

(** What the code reads of an [http.Response]: the status code and the body,
    [None] when reading the body fails. *)
Record Response := { StatusCode : Z; Body : option bytes }.

Record TxVout := { ScriptPubKey : string; voutValue : Z }.
Record TxInfo := { Txid : string; Vout : list TxVout }.
Record auxUTXO := { TxID : string; auxVout : Z; auxValue : Z }.

Inductive request :=
| GET (url : string).

Inductive failure :=
| FetchUTXOs          (* "failed to fetch UTXOs" *)
| DecodeUTXOs         (* "failed to decode UTXOs" *)
| FetchTxInfo         (* "failed to fetch transaction info" *)
| HTTPStatus          (* "HTTP error" *)
| ReadBody            (* "failed to read response body" *)
| ParseJSON           (* "failed to parse JSON" *)
| VoutRange           (* "vout index out of range" *)
| DecodeHex.          (* "failed to decode script pub key hex" *)

Inductive outcome (A : Type) :=
| Done (a : A)
| Fail (e : failure)
| Crash.              (* index out of range *)
Arguments Done {A} a.
Arguments Fail {A} e.
Arguments Crash {A}.

(** The provider and the decoders.  The provider may answer by the whole
    history of the requests made so far. *)
Record Env := {
  serve : list request -> request -> option Response;
  (** json.Unmarshal into [TxInfo] *)
  json_Unmarshal_TxInfo : bytes -> option TxInfo;
  (** the elements of a JSON array, as encoding/json hands them to the
      element's [UnmarshalJSON], in order *)
  json_array : bytes -> option (list bytes);
  (** json.Unmarshal into [auxUTXO] *)
  json_Unmarshal_aux : bytes -> option auxUTXO;
  (** chainhash.NewHashFromStr *)
  NewHashFromStr : string -> option bytes;
  (** chainhash.Hash.String *)
  Hash_String : bytes -> string;
  (** hex.DecodeString *)
  hex_DecodeString : string -> option bytes
}.

(** A computation reads and extends the log of the requests made. *)
Definition IO (A : Type) : Type := list request -> list request * outcome A.

Definition ret {A} (a : A) : IO A := fun log => (log, Done a).
Definition fail {A} (e : failure) : IO A := fun log => (log, Fail e).
Definition crash {A} : IO A := fun log => (log, Crash).

Definition bind {A B} (m : IO A) (f : A -> IO B) : IO B :=
  fun log =>
    match m log with
    | (log', Done a) => f a log'
    | (log', Fail e) => (log', Fail e)
    | (log', Crash) => (log', Crash)
    end.

Definition orFail {A} (o : option A) (e : failure) : IO A :=
  match o with
  | Some a => ret a
  | None => fail e
  end.

(** http.Get: the request is logged, the answer may be an error. *)
Definition http_Get (E : Env) (url : string) : IO (option Response) :=
  fun log => (log ++ [GET url], Done (serve E log (GET url))).

(** [s[i]] on a slice. *)
Definition index {A} (s : list A) (i : Z) : option A :=
  if i <? 0 then None else nth_error s (Z.to_nat i).

(** helper.go, [GetScriptPubKey]. *)
Definition GetScriptPubKey (E : Env) (txid : string) (voutIndex : Z)
    : IO bytes :=
  bind (http_Get E (API_URL ++ "/tx/" ++ txid)) (fun got =>
  bind (orFail got FetchTxInfo) (fun resp =>
  if negb (StatusCode resp =? 200) then fail HTTPStatus else
  bind (orFail (Body resp) ReadBody) (fun body =>
  bind (orFail (json_Unmarshal_TxInfo E body) ParseJSON) (fun tx =>
  if (voutIndex <? 0) || (Z.of_nat (length (Vout tx)) <=? voutIndex)
  then fail VoutRange else
  match index (Vout tx) voutIndex with
  | None => crash
  | Some vout =>
      bind (orFail (hex_DecodeString E (ScriptPubKey vout)) DecodeHex) (fun spk =>
      ret spk)
  end)))).

(** helper.go, [UTXO.UnmarshalJSON]: the new value of [u], or an error. *)
Definition UnmarshalJSON (E : Env) (u : UTXO) (data : bytes) : option UTXO :=
  match json_Unmarshal_aux E data with
  | None => None
  | Some aux =>
      match NewHashFromStr E (TxID aux) with
      | None => None
      | Some hash =>
          Some {| utxoOutPoint := {| Hash := hash; Index := auxVout aux |};
                  Value := auxValue aux;
                  PkScript := PkScript u |}
      end
  end.

(** The zero value of [UTXO]. *)
Definition zeroUTXO : UTXO :=
  {| utxoOutPoint := {| Hash := repeat x00 32; Index := 0 |};
     Value := 0; PkScript := [] |}.

(** Decoding into a nil [[]UTXO]: every element of the array goes through
    [UnmarshalJSON] on a zero value, the first error ends the decoding. *)
Fixpoint decodeElements (E : Env) (elems : list bytes) : option (list UTXO) :=
  match elems with
  | [] => Some []
  | data :: rest =>
      match UnmarshalJSON E zeroUTXO data with
      | None => None
      | Some u =>
          match decodeElements E rest with
          | None => None
          | Some us => Some (u :: us)
          end
      end
  end.

Definition withPkScript (u : UTXO) (pkScript : bytes) : UTXO :=
  {| utxoOutPoint := utxoOutPoint u; Value := Value u; PkScript := pkScript |}.

(** The request [GetUTXOs] makes for one UTXO. *)
Definition scriptOf (E : Env) (utxo : UTXO) : IO bytes :=
  GetScriptPubKey E (Hash_String E (Hash (utxoOutPoint utxo)))
    (wrapInt (Index (utxoOutPoint utxo))).

(** The loop of [GetUTXOs], lines 104-110. *)
Fixpoint fillScripts (E : Env) (utxos : list UTXO) : IO (list UTXO) :=
  match utxos with
  | [] => ret []
  | utxo :: rest =>
      bind (scriptOf E utxo) (fun pkScript =>
      bind (fillScripts E rest) (fun rest' =>
      ret (withPkScript utxo pkScript :: rest')))
  end.

(** helper.go, [GetUTXOs]. *)
Definition GetUTXOs (E : Env) (address : string) : IO (list UTXO) :=
  bind (http_Get E (API_URL ++ "/address/" ++ address ++ "/utxo")) (fun got =>
  bind (orFail got FetchUTXOs) (fun resp =>
  bind (orFail (Body resp) DecodeUTXOs) (fun body =>
  bind (orFail (json_array E body) DecodeUTXOs) (fun elems =>
  bind (orFail (decodeElements E elems) DecodeUTXOs) (fun utxos =>
  fillScripts E utxos))))).

(** The URL asked for the script of a UTXO, and the requests for a list. *)
Definition txURL (E : Env) (utxo : UTXO) : string :=
  API_URL ++ "/tx/" ++ Hash_String E (Hash (utxoOutPoint utxo)).

Definition txRequests (E : Env) (utxos : list UTXO) : list request :=
  map (fun u => GET (txURL E u)) utxos.

(** A sample provider with one UTXO of 5,000 units: the address request is
    answered with body [01], every transaction request with body [02]. *)
Definition sampleEnv : Env :=
  {| serve := fun log req =>
       match log with
       | [] => Some {| StatusCode := 404; Body := Some [x01] |}
       | _ => Some {| StatusCode := 200; Body := Some [x02] |}
       end;
     json_Unmarshal_TxInfo := fun _ =>
       Some {| Txid := "ab";
               Vout := [ {| ScriptPubKey := "76a9"; voutValue := 1 |};
                         {| ScriptPubKey := "0014"; voutValue := 5000 |} ] |};
     json_array := fun body => Some [body];
     json_Unmarshal_aux := fun _ =>
       Some {| TxID := "ab"; auxVout := 1; auxValue := 5000 |};
     NewHashFromStr := fun _ => Some (repeat xab 32);
     Hash_String := fun _ => "ab"%string;
     hex_DecodeString := fun s =>
       if String.eqb s "0014" then Some Sample.p2wpkh else None |}.
End Http.

(** * Properties *)

(** ** Running the model *)

Example IsSegwitScript_p2wpkh : IsSegwitScript Sample.p2wpkh = true.
Proof. reflexivity. Qed.

Example IsSegwitScript_p2pkh : IsSegwitScript Sample.p2pkh = false.
Proof. reflexivity. Qed.

Example EstimateFee_unit_rate : EstimateFee 1 2 Sample.unitRate = 141.
Proof. reflexivity. Qed.

Example EstimateFee_scenario_rate : EstimateFee 1 2 Sample.rate = 300.
Proof. reflexivity. Qed.

Example InsertionSort_by_value :
  map Value (InsertionSort.sort byValueDesc
               [Sample.utxo x01 0 300 []; Sample.utxo x02 0 700 [];
                Sample.utxo x03 0 500 []])
  = [700; 500; 300].
Proof. reflexivity. Qed.

(** ** Machine integers *)

Lemma wrap64_id (z : Z) : in_int64 z -> wrap64 z = z.
Proof.
  unfold in_int64, min_int64, max_int64, wrap64. intros Hz.
  rewrite Z.mod_small; lia.
Qed.

Lemma wrap64_range (z : Z) : in_int64 (wrap64 z).
Proof.
  unfold in_int64, min_int64, max_int64, wrap64.
  pose proof (Z.mod_pos_bound (z + 2 ^ 63) (2 ^ 64)). lia.
Qed.

Lemma wrap64_add_l (a b : Z) : wrap64 (wrap64 a + b) = wrap64 (a + b).
Proof.
  unfold wrap64.
  replace ((a + 2 ^ 63) mod 2 ^ 64 - 2 ^ 63 + b + 2 ^ 63)
    with ((a + 2 ^ 63) mod 2 ^ 64 + b) by lia.
  rewrite Zplus_mod_idemp_l. f_equal. f_equal. lia.
Qed.

(** ** Go's insertion sort meets the contract of [sort.Slice] *)

Section InsertionSortFacts.
Context {A : Type} (less : A -> A -> bool).

Let later_first (a b : A) : Prop := less a b = false.
Let earlier_first (a b : A) : Prop := less b a = false.

Lemma moveLeft_perm (x : A) (rp : list A) :
  Permutation (x :: rp) (InsertionSort.moveLeft less x rp).
Proof.
  induction rp as [|y rp IH]; simpl.
  - apply Permutation_refl.
  - destruct (less x y).
    + eapply Permutation_trans; [apply perm_swap|]. now apply perm_skip.
    + apply Permutation_refl.
Qed.

Lemma run_perm (todo rp : list A) :
  Permutation (rev rp ++ todo) (InsertionSort.run less rp todo).
Proof.
  revert rp. induction todo as [|x todo IH]; intros rp; simpl.
  - now rewrite app_nil_r.
  - eapply Permutation_trans; [|apply IH].
    eapply Permutation_trans; [apply Permutation_sym, Permutation_middle|].
    change (Permutation ((x :: rev rp) ++ todo)
              (rev (InsertionSort.moveLeft less x rp) ++ todo)).
    apply Permutation_app_tail.
    eapply Permutation_trans; [|apply Permutation_rev].
    eapply Permutation_trans; [|apply moveLeft_perm].
    apply perm_skip, Permutation_sym, Permutation_rev.
Qed.

Lemma moveLeft_sorted (x : A) (rp : list A) :
  strict_weak less ->
  StronglySorted later_first rp ->
  StronglySorted later_first (InsertionSort.moveLeft less x rp).
Proof.
  intros [Hasym Htrans]. induction rp as [|y rp IH]; intros Hs; simpl.
  - constructor; [constructor | constructor].
  - inversion Hs as [|? ? Hs' Hy]; subst.
    destruct (less x y) eqn:Hxy.
    + constructor; [now apply IH|].
      eapply Permutation_Forall; [apply moveLeft_perm|].
      constructor; [now apply Hasym | exact Hy].
    + constructor; [exact Hs|].
      constructor; [exact Hxy|].
      rewrite Forall_forall in *. intros z Hz.
      unfold later_first in *. eapply Htrans; [apply Hy, Hz | exact Hxy].
Qed.

Lemma sorted_rev (l : list A) :
  StronglySorted later_first l -> StronglySorted earlier_first (rev l).
Proof.
  induction l as [|a l IH]; intros Hs; simpl.
  - constructor.
  - inversion Hs as [|? ? Hs' Ha]; subst.
    specialize (IH Hs'). revert IH.
    assert (Hall : Forall (fun z => earlier_first z a) (rev l)).
    { rewrite Forall_forall in *. intros z Hz. apply Ha. now apply in_rev. }
    revert Hall. generalize (rev l) as r. clear.
    induction r as [|b r IHr]; intros Hall Hr; simpl.
    + constructor; constructor.
    + inversion Hall; subst. inversion Hr; subst.
      constructor; [now apply IHr|].
      apply Forall_app. split; [assumption|]. constructor; [assumption|constructor].
Qed.

Lemma run_sorted (todo rp : list A) :
  strict_weak less ->
  StronglySorted later_first rp ->
  StronglySorted earlier_first (InsertionSort.run less rp todo).
Proof.
  intros Hsw. revert rp. induction todo as [|x todo IH]; intros rp Hs; simpl.
  - now apply sorted_rev.
  - apply IH. now apply moveLeft_sorted.
Qed.

End InsertionSortFacts.

(** [sort.Slice] as Go runs it on short slices. *)
#[export] Instance goInsertionSort : SliceSorter.
Proof.
  refine {| sort_Slice := fun A less l => InsertionSort.sort less l |}.
  - intros A less l. exact (run_perm less l []).
  - intros A less Hsw l. apply run_sorted; [exact Hsw | constructor].
Defined.

(** ** The selection loop *)

Lemma byValueDesc_strict_weak : strict_weak byValueDesc.
Proof.
  unfold strict_weak, byValueDesc. split; intros; rewrite ?Z.ltb_lt, ?Z.ltb_ge in *; lia.
Qed.

Lemma sort_descending `{SliceSorter} (l : list UTXO) :
  descending (sort_Slice byValueDesc l).
Proof.
  unfold descending.
  pose proof (sort_Slice_sorted UTXO byValueDesc byValueDesc_strict_weak l) as Hs.
  induction Hs as [|a r Hs IH Ha]; constructor; [exact IH|].
  rewrite Forall_forall in *. intros b Hb. specialize (Ha b Hb).
  unfold byValueDesc in Ha. rewrite Z.ltb_ge in Ha. exact Ha.
Qed.

Lemma accumulate_taken (utxos : list UTXO) (amount : Z) :
  forall sel tot,
    accumulate utxos amount sel tot =
    (sel ++ firstn (taken utxos amount tot) utxos,
     runningTotal tot (firstn (taken utxos amount tot) utxos)).
Proof.
  induction utxos as [|u rest IH]; intros sel tot; simpl.
  - now rewrite app_nil_r.
  - destruct (amount <=? add64 tot (Value u)) eqn:Hstop; simpl.
    + reflexivity.
    + rewrite IH, <- app_assoc. reflexivity.
Qed.

(** The loop stops at the first prefix that reaches the target, or at the
    end of the list. *)
Lemma taken_stop (utxos : list UTXO) (amount : Z) :
  forall tot,
    amount <= runningTotal tot (firstn (taken utxos amount tot) utxos)
    /\ utxos <> []
    \/ taken utxos amount tot = length utxos.
Proof.
  induction utxos as [|u rest IH]; intros tot; simpl; [now right|].
  destruct (amount <=? add64 tot (Value u)) eqn:Hstop; simpl.
  - left. apply Z.leb_le in Hstop. split; [exact Hstop | congruence].
  - destruct (IH (add64 tot (Value u))) as [[Hle _]|Heq].
    + left. split; [exact Hle | congruence].
    + right. now rewrite Heq.
Qed.

Lemma taken_minimal (utxos : list UTXO) (amount : Z) :
  forall tot j, (0 < j < taken utxos amount tot)%nat ->
    runningTotal tot (firstn j utxos) < amount.
Proof.
  induction utxos as [|u rest IH]; intros tot j Hj; simpl in *; [lia|].
  destruct (amount <=? add64 tot (Value u)) eqn:Hstop; [lia|].
  apply Z.leb_gt in Hstop.
  destruct j as [|j]; [lia|]. simpl.
  destruct j as [|j].
  - destruct rest; exact Hstop.
  - apply IH. lia.
Qed.

Lemma runningTotal_cons (tot : Z) (u : UTXO) (l : list UTXO) :
  runningTotal tot (u :: l) = runningTotal (add64 tot (Value u)) l.
Proof. reflexivity. Qed.

Lemma runningTotal_wrap (l : list UTXO) :
  forall tot, in_int64 tot -> runningTotal tot l = wrap64 (tot + sum_values l).
Proof.
  induction l as [|u l IH]; intros tot Htot.
  - cbn. rewrite Z.add_0_r. symmetry. now apply wrap64_id.
  - rewrite runningTotal_cons, IH by apply wrap64_range.
    unfold add64. rewrite wrap64_add_l. f_equal.
    change (sum_values (u :: l)) with (Value u + sum_values l). lia.
Qed.

Lemma sum_values_app (l1 l2 : list UTXO) :
  sum_values (l1 ++ l2) = sum_values l1 + sum_values l2.
Proof. induction l1 as [|u l1 IH]; simpl; [reflexivity | rewrite IH; lia]. Qed.

Lemma sum_values_perm (l1 l2 : list UTXO) :
  Permutation l1 l2 -> sum_values l1 = sum_values l2.
Proof. induction 1; simpl; lia. Qed.

Lemma sum_values_nonneg (l : list UTXO) :
  Forall (fun u => 0 <= Value u) l -> 0 <= sum_values l.
Proof. induction 1; simpl; lia. Qed.

Lemma firstn_skipn_sum (k : nat) (l : list UTXO) :
  sum_values l = sum_values (firstn k l) + sum_values (skipn k l).
Proof. rewrite <- sum_values_app, firstn_skipn. reflexivity. Qed.

(** Within the ledger's value domain no prefix total wraps around. *)
Lemma prefix_total_exact (k : nat) (l : list UTXO) :
  ledgerValues l ->
  runningTotal 0 (firstn k l) = sum_values (firstn k l)
  /\ 0 <= sum_values (firstn k l) <= sum_values l.
Proof.
  intros [Hpos Hmax].
  assert (Hf : 0 <= sum_values (firstn k l)).
  { apply sum_values_nonneg. rewrite <- (firstn_skipn k l) in Hpos.
    now apply Forall_app in Hpos. }
  assert (Hs : 0 <= sum_values (skipn k l)).
  { apply sum_values_nonneg. rewrite <- (firstn_skipn k l) in Hpos.
    now apply Forall_app in Hpos. }
  pose proof (firstn_skipn_sum k l) as Hsplit.
  split; [|lia].
  rewrite runningTotal_wrap by (unfold in_int64, min_int64, max_int64; lia).
  apply wrap64_id. unfold in_int64, min_int64, max_int64 in *. lia.
Qed.

(** What [Select] returns, in terms of the sorted list. *)
Lemma Select_prefix `{SliceSorter} (utxos : list UTXO) (amount : Z) :
  let sorted := sort_Slice byValueDesc utxos in
  let k := taken sorted amount 0 in
  Select utxos amount = (firstn k sorted, runningTotal 0 (firstn k sorted)).
Proof. unfold Select. now rewrite accumulate_taken. Qed.

Lemma sort_nil `{SliceSorter} {A} (less : A -> A -> bool) :
  sort_Slice less [] = [].
Proof. apply Permutation_nil, sort_Slice_perm. Qed.

Lemma sort_not_nil `{SliceSorter} {A} (less : A -> A -> bool) (l : list A) :
  l <> [] -> sort_Slice less l <> [].
Proof.
  intros Hl Hs. apply Hl. apply Permutation_nil.
  apply Permutation_sym. rewrite <- Hs. apply sort_Slice_perm.
Qed.

Lemma ledgerValues_perm (l1 l2 : list UTXO) :
  Permutation l1 l2 -> ledgerValues l1 -> ledgerValues l2.
Proof.
  intros Hp [Hpos Hmax]. split.
  - eapply Permutation_Forall; eassumption.
  - now rewrite <- (sum_values_perm _ _ Hp).
Qed.

Lemma subMultiset_sum (sub l : list UTXO) :
  Forall (fun u => 0 <= Value u) l -> subMultiset sub l ->
  sum_values sub <= sum_values l.
Proof.
  intros Hpos [rest Hp].
  rewrite <- (sum_values_perm _ _ Hp), sum_values_app.
  apply Permutation_sym in Hp.
  pose proof (Permutation_Forall Hp Hpos) as Hall.
  apply Forall_app in Hall. destruct Hall as [_ Hrest].
  pose proof (sum_values_nonneg _ Hrest). lia.
Qed.

Lemma firstn_subMultiset (k : nat) (sorted l : list UTXO) :
  Permutation l sorted -> subMultiset (firstn k sorted) l.
Proof.
  intros Hp. exists (skipn k sorted).
  rewrite firstn_skipn. now apply Permutation_sym.
Qed.

(** The head of a descending rearrangement carries the largest value. *)
Lemma descending_head_max (u : UTXO) (rest l : list UTXO) :
  descending (u :: rest) -> Permutation l (u :: rest) ->
  In u l /\ forall v, In v l -> Value v <= Value u.
Proof.
  intros Hd Hp. inversion Hd as [|? ? _ Hall]; subst. split.
  - eapply Permutation_in; [apply Permutation_sym, Hp | now left].
  - intros v Hv. apply (Permutation_in _ Hp) in Hv. destruct Hv as [<-|Hv]; [lia|].
    rewrite Forall_forall in Hall. now apply Hall.
Qed.

(** Selection within the ledger's value domain: the total is exact, and it
    reaches the target whenever the whole set does. *)
Lemma Select_covers `{SliceSorter} (utxos : list UTXO) (amount : Z) :
  ledgerValues utxos ->
  snd (Select utxos amount) = sum_values (fst (Select utxos amount))
  /\ (amount <= sum_values utxos -> amount <= snd (Select utxos amount)).
Proof.
  intros Hl. rewrite Select_prefix. cbn [fst snd].
  set (sorted := sort_Slice byValueDesc utxos).
  pose proof (sort_Slice_perm UTXO byValueDesc utxos) as Hp. fold sorted in Hp.
  pose proof (ledgerValues_perm _ _ Hp Hl) as Hls.
  destruct (prefix_total_exact (taken sorted amount 0) sorted Hls) as [Hex _].
  split; [exact Hex|].
  intros Hsum. destruct (taken_stop sorted amount 0) as [[Hle _]|Hall]; [exact Hle|].
  rewrite Hex, Hall, firstn_all, <- (sum_values_perm _ _ Hp). exact Hsum.
Qed.

(** ** Order of the input list *)

Lemma descending_values (l : list UTXO) :
  descending l -> StronglySorted Z.ge (map Value l).
Proof.
  induction 1 as [|a l _ IH Ha]; cbn [map]; constructor; [exact IH|].
  rewrite Forall_forall in *. intros v Hv. apply in_map_iff in Hv.
  destruct Hv as (u & <- & Hu). specialize (Ha u Hu). lia.
Qed.

(** A list of integers has one non-increasing rearrangement. *)
Lemma sorted_perm_eq (l1 : list Z) :
  forall l2, StronglySorted Z.ge l1 -> StronglySorted Z.ge l2 ->
    Permutation l1 l2 -> l1 = l2.
Proof.
  induction l1 as [|x l1 IH]; intros l2 H1 H2 Hp.
  - apply Permutation_nil in Hp. now subst.
  - destruct l2 as [|y l2];
      [apply Permutation_sym, Permutation_nil in Hp; discriminate|].
    inversion H1 as [|? ? H1' Hx]; subst. inversion H2 as [|? ? H2' Hy]; subst.
    rewrite Forall_forall in Hx, Hy.
    assert (Hxy : x = y).
    { assert (Hin1 : In y (x :: l1))
        by (eapply Permutation_in; [apply Permutation_sym, Hp | now left]).
      assert (Hin2 : In x (y :: l2))
        by (eapply Permutation_in; [apply Hp | now left]).
      destruct Hin1 as [E|Hin1]; [exact E|].
      destruct Hin2 as [E|Hin2]; [auto|].
      specialize (Hx y Hin1). specialize (Hy x Hin2). lia. }
    subst y. f_equal. apply IH; [exact H1' | exact H2'|].
    now apply Permutation_cons_inv in Hp.
Qed.

Lemma descending_perm_values (l1 l2 : list UTXO) :
  descending l1 -> descending l2 -> Permutation l1 l2 ->
  map Value l1 = map Value l2.
Proof.
  intros H1 H2 Hp.
  apply sorted_perm_eq; auto using descending_values, Permutation_map.
Qed.

Lemma taken_values (l1 : list UTXO) (amount : Z) :
  forall l2 tot, map Value l1 = map Value l2 ->
    taken l1 amount tot = taken l2 amount tot.
Proof.
  induction l1 as [|a l1 IH]; intros [|b l2] tot Hv; try discriminate; [reflexivity|].
  simpl in *. injection Hv as Hab Hv. rewrite Hab.
  destruct (amount <=? add64 tot (Value b)); [reflexivity|].
  f_equal. now apply IH.
Qed.

Lemma runningTotal_values (l1 : list UTXO) :
  forall l2 tot, map Value l1 = map Value l2 ->
    runningTotal tot l1 = runningTotal tot l2.
Proof.
  induction l1 as [|a l1 IH]; intros [|b l2] tot Hv; try discriminate; [reflexivity|].
  simpl in Hv. injection Hv as Hab Hv.
  rewrite !runningTotal_cons, Hab. now apply IH.
Qed.

Lemma perm_values_nodup (l1 : list UTXO) :
  forall l2, Permutation l1 l2 -> map Value l1 = map Value l2 ->
    NoDup (map Value l1) -> l1 = l2.
Proof.
  induction l1 as [|a l1 IH]; intros [|b l2] Hp Hv Hnd; try discriminate; [reflexivity|].
  simpl in Hv. injection Hv as Hab Hv.
  inversion Hnd as [|? ? Hnotin Hnd']; subst.
  assert (a = b).
  { assert (Hin : In b (a :: l1))
      by (eapply Permutation_in; [apply Permutation_sym, Hp | now left]).
    destruct Hin as [E|Hin]; [exact E|].
    exfalso. apply Hnotin. rewrite Hab. now apply in_map. }
  subst b. f_equal. apply IH; [|exact Hv|exact Hnd'].
  now apply Permutation_cons_inv in Hp.
Qed.

Lemma sort_values_perm `{SliceSorter} (l l' : list UTXO) :
  Permutation l l' ->
  map Value (sort_Slice byValueDesc l) = map Value (sort_Slice byValueDesc l').
Proof.
  intros Hp. apply descending_perm_values; try apply sort_descending.
  eapply Permutation_trans; [apply Permutation_sym, sort_Slice_perm|].
  eapply Permutation_trans; [exact Hp | apply sort_Slice_perm].
Qed.

(** ** Coin selection: the claims *)

(** C5. [Select] is largest-first greedy selection: the list is rearranged
    into descending order of value, the selection is the shortest non-empty
    prefix of that order whose running total reaches the target, or the whole
    list when none does; within the ledger's value domain the total is the
    exact sum of the selection and it reaches the target whenever some
    sub-multiset of the input does; an empty input gives the empty selection
    and a zero total. *)
Theorem Select_largest_first_greedy `{SliceSorter} (utxos : list UTXO) (T : Z) :
  let sorted := sort_Slice byValueDesc utxos in
  let chosen := fst (Select utxos T) in
  let total := snd (Select utxos T) in
  (Permutation utxos sorted /\ descending sorted)
  /\ (exists k, chosen = firstn k sorted
        /\ total = runningTotal 0 chosen
        /\ (forall j, (0 < j < k)%nat -> runningTotal 0 (firstn j sorted) < T)
        /\ (T <= total \/ chosen = sorted))
  /\ (ledgerValues utxos -> total = sum_values chosen)
  /\ (ledgerValues utxos ->
      (exists sub, subMultiset sub utxos /\ T <= sum_values sub) -> T <= total)
  /\ (utxos = [] -> chosen = [] /\ total = 0).
Proof.
  intros sorted chosen total. subst chosen total.
  pose proof (sort_Slice_perm UTXO byValueDesc utxos) as Hp. fold sorted in Hp.
  repeat split.
  - exact Hp.
  - apply sort_descending.
  - exists (taken sorted T 0). rewrite Select_prefix. fold sorted. cbn [fst snd].
    repeat split.
    + apply taken_minimal.
    + destruct (taken_stop sorted T 0) as [[Hle _]|Hall]; [now left|right].
      rewrite Hall. apply firstn_all.
  - intros Hl. now apply Select_covers.
  - intros Hl [sub [Hsub HT]]. apply Select_covers; [exact Hl|].
    destruct Hl as [Hpos _]. pose proof (subMultiset_sum _ _ Hpos Hsub). lia.
  - subst utxos. rewrite Select_prefix, sort_nil. reflexivity.
  - subst utxos. rewrite Select_prefix, sort_nil. reflexivity.
Qed.

Lemma Select_largest_first_greedy_witness :
  let utxos := [Sample.utxo x01 0 300 []; Sample.utxo x02 0 700 [];
                Sample.utxo x03 0 500 []] in
  ledgerValues utxos
  /\ (exists sub, subMultiset sub utxos /\ 1000 <= sum_values sub)
  /\ Select utxos 1000 = ([Sample.utxo x02 0 700 []; Sample.utxo x03 0 500 []], 1200)
  /\ 1000 <= snd (Select utxos 1000).
Proof.
  intros utxos.
  assert (Hl : ledgerValues utxos).
  { split; [repeat constructor; simpl; lia | vm_compute; discriminate]. }
  assert (Hsub : exists sub, subMultiset sub utxos /\ 1000 <= sum_values sub).
  { exists [Sample.utxo x01 0 300 []; Sample.utxo x02 0 700 []]. split.
    - exists [Sample.utxo x03 0 500 []]. apply Permutation_refl.
    - vm_compute. discriminate. }
  split; [exact Hl|]. split; [exact Hsub|]. split; [reflexivity|].
  destruct (Select_largest_first_greedy utxos 1000) as (_ & _ & _ & Hcover & _).
  exact (Hcover Hl Hsub).
Defined.

(** C10. On a non-empty list the selection is never empty: it starts with a
    UTXO of the largest value; when that value already reaches the target (as
    it does for every zero or negative target, values being non-negative) the
    selection is that single UTXO.  The selection is empty only for the empty
    list. *)
Theorem Select_nonempty `{SliceSorter} (utxos : list UTXO) (amount : Z) :
  (utxos <> [] ->
   exists u rest,
     fst (Select utxos amount) = u :: rest
     /\ In u utxos
     /\ (forall v, In v utxos -> Value v <= Value u)
     /\ (in_int64 (Value u) -> amount <= Value u ->
         Select utxos amount = ([u], Value u))
     /\ (in_int64 (Value u) -> 0 <= Value u -> amount <= 0 ->
         Select utxos amount = ([u], Value u)))
  /\ (fst (Select utxos amount) = [] <-> utxos = []).
Proof.
  pose proof (sort_Slice_perm UTXO byValueDesc utxos) as Hp.
  pose proof (sort_descending utxos) as Hd.
  assert (Hfirst : utxos <> [] ->
    exists u rest,
     fst (Select utxos amount) = u :: rest
     /\ In u utxos
     /\ (forall v, In v utxos -> Value v <= Value u)
     /\ (in_int64 (Value u) -> amount <= Value u ->
         Select utxos amount = ([u], Value u))).
  { intros Hne. pose proof (sort_not_nil byValueDesc utxos Hne) as Hsne.
    unfold Select.
    destruct (sort_Slice byValueDesc utxos) as [|u sorted] eqn:Hs; [congruence|].
    destruct (descending_head_max u sorted utxos Hd Hp) as [Hin Hmax].
    cbn [accumulate]. unfold add64. rewrite Z.add_0_l, app_nil_l.
    destruct (amount <=? wrap64 (Value u)) eqn:Hstop.
    - exists u, []. repeat split; auto. intros Hr _. now rewrite wrap64_id.
    - rewrite accumulate_taken. cbn [fst]. exists u, (firstn (taken sorted amount (wrap64 (Value u))) sorted).
      repeat split; auto. intros Hr Hle. rewrite wrap64_id in Hstop by exact Hr.
      apply Z.leb_gt in Hstop. lia. }
  split.
  - intros Hne. destruct (Hfirst Hne) as (u & rest & Hsel & Hin & Hmax & Hone).
    exists u, rest. repeat split; auto. intros Hr Hpos Hamt. apply Hone; [exact Hr | lia].
  - split.
    + intros Hempty. destruct utxos as [|u0 l]; [reflexivity|].
      destruct Hfirst as (u & rest & Hsel & _); [discriminate|]. congruence.
    + intros ->. rewrite Select_prefix, sort_nil. reflexivity.
Qed.

Lemma Select_nonempty_witness :
  let u1 := Sample.utxo x01 0 300 [] in
  let u2 := Sample.utxo x02 0 700 [] in
  exists u rest,
    fst (Select [u1; u2] (-5)) = u :: rest /\ u = u2 /\ rest = [].
Proof.
  intros u1 u2.
  destruct (Select_nonempty [u1; u2] (-5)) as [Hne _].
  destruct (Hne ltac:(discriminate)) as (u & rest & Hsel & _).
  exists u, rest. split; [exact Hsel|].
  vm_compute in Hsel. injection Hsel as Hu Hrest.
  split; [rewrite <- Hu; reflexivity | now rewrite <- Hrest].
Defined.

(** C6, as the code has it.  Re-ordering the input list changes neither the
    total nor the sequence of chosen values; the chosen UTXOs themselves are
    the same when no two inputs carry the same value, the comparator seeing
    values only. *)
Theorem Select_permutation `{SliceSorter} (l l' : list UTXO) (amount : Z) :
  Permutation l l' ->
  snd (Select l amount) = snd (Select l' amount)
  /\ map Value (fst (Select l amount)) = map Value (fst (Select l' amount))
  /\ (NoDup (map Value l) -> Select l amount = Select l' amount).
Proof.
  intros Hp. pose proof (sort_values_perm l l' Hp) as Hv.
  rewrite !Select_prefix. cbn [fst snd].
  rewrite (taken_values _ amount _ 0 Hv).
  set (k := taken (sort_Slice byValueDesc l') amount 0).
  assert (Hk : map Value (firstn k (sort_Slice byValueDesc l)) =
               map Value (firstn k (sort_Slice byValueDesc l'))).
  { now rewrite <- !firstn_map, Hv. }
  split; [now apply runningTotal_values|]. split; [exact Hk|].
  intros Hnd.
  assert (Hs : sort_Slice byValueDesc l = sort_Slice byValueDesc l').
  { apply perm_values_nodup; [|exact Hv|].
    - eapply Permutation_trans; [apply Permutation_sym, sort_Slice_perm|].
      eapply Permutation_trans; [exact Hp | apply sort_Slice_perm].
    - eapply Permutation_NoDup; [|exact Hnd].
      apply Permutation_map, sort_Slice_perm. }
  now rewrite Hs.
Qed.

Lemma Select_permutation_witness :
  let u1 := Sample.utxo x01 0 300 [] in
  let u2 := Sample.utxo x02 0 700 [] in
  Permutation [u1; u2] [u2; u1]
  /\ NoDup (map Value [u1; u2])
  /\ Select [u1; u2] 800 = Select [u2; u1] 800.
Proof.
  intros u1 u2.
  assert (Hp : Permutation [u1; u2] [u2; u1]) by apply perm_swap.
  assert (Hnd : NoDup (map Value [u1; u2])).
  { repeat constructor; simpl; intuition discriminate. }
  split; [exact Hp|]. split; [exact Hnd|].
  exact (proj2 (proj2 (Select_permutation [u1; u2] [u2; u1] 800 Hp)) Hnd).
Defined.

(** C6, as stated, fails: two UTXOs of equal value are left in the order
    they came in, so the chosen UTXO depends on the order of the input. *)
Lemma Select_order_dependent :
  Permutation [Sample.utxoA; Sample.utxoB] [Sample.utxoB; Sample.utxoA]
  /\ Select [Sample.utxoA; Sample.utxoB] 1000 = ([Sample.utxoA], 1000)
  /\ Select [Sample.utxoB; Sample.utxoA] 1000 = ([Sample.utxoB], 1000)
  /\ fst (Select [Sample.utxoA; Sample.utxoB] 1000)
     <> fst (Select [Sample.utxoB; Sample.utxoA] 1000).
Proof.
  split; [apply perm_swap|]. split; [reflexivity|]. split; [reflexivity|].
  vm_compute. discriminate.
Qed.

(** ** Inputs and outputs of the assembled transaction *)

Lemma addInput_eq (tx : MsgTx) (u : UTXO) :
  addInput tx u = AddTxIn tx (NewTxIn (utxoOutPoint u) [] []).
Proof. unfold addInput. now destruct (IsSegwitScript (PkScript u)). Qed.

Lemma addInputs_txIn (utxos : list UTXO) :
  forall tx, txIn (fold_left addInput utxos tx) = txIn tx ++ freshInputs utxos.
Proof.
  unfold freshInputs. induction utxos as [|u utxos IH]; intros tx; simpl.
  - now rewrite app_nil_r.
  - rewrite IH, addInput_eq. simpl. now rewrite <- app_assoc.
Qed.

Lemma addInputs_txOut (utxos : list UTXO) :
  forall tx, txOut (fold_left addInput utxos tx) = txOut tx.
Proof.
  induction utxos as [|u utxos IH]; intros tx; simpl; [reflexivity|].
  rewrite IH, addInput_eq. reflexivity.
Qed.

#[local] Arguments EstimateFee : simpl never.
#[local] Arguments Select : simpl never.
#[local] Arguments changeOf : simpl never.

Section PipelineFacts.
Context {sorter : SliceSorter} (W : World).

(** What a successful run of lines 89-112 has established. *)
Lemma fund_ok (w : Wallet) (recv : string) (amount : Z)
    (t : list event) (tx : MsgTx) (sel : list UTXO) (total fee : Z) :
  fund W w recv amount = (t, Ok (tx, sel, total, fee)) <->
  exists addr script utxos feeRate,
    DecodeAddress W recv = Some addr
    /\ PayToAddrScript W addr = Some script
    /\ GetUTXOs W (address w) = Some utxos
    /\ GetFeeRate W = Some feeRate
    /\ Select utxos amount = (sel, total)
    /\ tx = fold_left addInput sel
              (AddTxOut (NewMsgTx TxVersion) (NewTxOut amount script))
    /\ fee = EstimateFee (Z.of_nat (length sel)) 2 feeRate
    /\ t = [EvGetUTXOs (address w); EvGetFeeRate].
Proof.
  unfold fund, addOutput, selectUTXOs, addInputs. split.
  - destruct (DecodeAddress W recv) as [addr|] eqn:Hdec; cbn; [|discriminate].
    destruct (PayToAddrScript W addr) as [script|] eqn:Hpay; cbn; [|discriminate].
    destruct (GetUTXOs W (address w)) as [utxos|] eqn:Hget; cbn; [|discriminate].
    destruct (Select utxos amount) as [sel0 total0] eqn:Hsel; cbn.
    destruct (GetFeeRate W) as [feeRate|] eqn:Hrate; cbn; [|discriminate].
    intros H. injection H as <- <- <- <- <-.
    exists addr, script, utxos, feeRate. repeat split; auto.
  - intros (addr & script & utxos & feeRate
            & Hdec & Hpay & Hget & Hrate & Hsel & -> & -> & ->).
    rewrite Hdec; cbn. rewrite Hpay; cbn. rewrite Hget; cbn.
    rewrite Hsel; cbn. rewrite Hrate; cbn. reflexivity.
Qed.

(** Lines 89-112 sign nothing. *)
Lemma fund_noSigning (w : Wallet) (recv : string) (amount : Z)
    (t : list event) (r : result (MsgTx * list UTXO * Z * Z)) :
  fund W w recv amount = (t, r) -> noSigning t.
Proof.
  unfold fund, addOutput, selectUTXOs, addInputs.
  destruct (DecodeAddress W recv) as [addr|]; cbn;
    [|intros H; injection H as <- _; reflexivity].
  destruct (PayToAddrScript W addr) as [script|]; cbn;
    [|intros H; injection H as <- _; reflexivity].
  destruct (GetUTXOs W (address w)) as [utxos|]; cbn;
    [|intros H; injection H as <- _; reflexivity].
  destruct (Select utxos amount) as [sel0 total0]; cbn.
  destruct (GetFeeRate W) as [feeRate|]; cbn;
    intros H; injection H as <- _; reflexivity.
Qed.

Lemma addOutput_result (tx : MsgTx) (a : string) (v : Z)
    (t : list event) (r : result MsgTx) :
  addOutput W tx a v = (t, r) ->
  t = [] /\
  (r = Err ErrDecodeAddress \/ r = Err ErrPayToAddrScript \/
   exists addr script, DecodeAddress W a = Some addr
     /\ PayToAddrScript W addr = Some script
     /\ r = Ok (AddTxOut tx (NewTxOut v script))).
Proof.
  unfold addOutput.
  destruct (DecodeAddress W a) as [addr|] eqn:Hdec; cbn;
    [|intros H; injection H as <- <-; auto].
  destruct (PayToAddrScript W addr) as [script|] eqn:Hpay; cbn;
    intros H; injection H as <- <-; [|auto].
  split; [reflexivity|]. right. right. now exists addr, script.
Qed.

End PipelineFacts.

(** ** The signer *)

Section SignerFacts.
Context (W : World) (tx : MsgTx) (key : bytes) (utxos : list UTXO).

(** A successful run of the loop leaves the inputs visited before as they
    were and signs each remaining input by the rule of its UTXO. *)
Lemma signLoop_ok (todo : list TxIn) :
  forall signed i t out,
    signLoop W tx key utxos signed todo i = (t, Ok out) ->
    exists signed',
      out = signed ++ signed'
      /\ length signed' = length todo
      /\ forall j before, nth_error todo j = Some before ->
           exists u after,
             nth_error utxos (i + j) = Some u
             /\ nth_error signed' j = Some after
             /\ signedAs W key utxos (i + j) u before after.
Proof.
  induction todo as [|ti todo IH]; intros signed i t out Hrun.
  - cbn in Hrun. injection Hrun as _ <-. exists []. rewrite app_nil_r.
    repeat split. intros [|j] before Hj; discriminate.
  - cbn [signLoop] in Hrun.
    destruct (nth_error utxos i) as [u|] eqn:Hu; [|discriminate].
    destruct (IsSegwitScript (PkScript u)) eqn:Hseg.
    + cbn in Hrun.
      destruct (CalcWitnessSigHash W (PkScript u) utxos
                  (setTxIn tx (signed ++ ti :: todo)) i (Value u))
        as [hash|] eqn:Hhash; cbn in Hrun; [|discriminate].
      match type of Hrun with
      | context [signLoop W tx key utxos ?s todo (S i)] =>
          destruct (signLoop W tx key utxos s todo (S i)) as [t' r] eqn:Hrec
      end.
      injection Hrun as _ ->.
      destruct (IH _ _ _ _ Hrec) as (signed' & -> & Hlen & Hall).
      eexists (_ :: signed'). rewrite <- app_assoc. split; [reflexivity|].
      split; [simpl; now rewrite Hlen|].
      intros [|j] before Hj.
      * injection Hj as <-. exists u. eexists. rewrite Nat.add_0_r.
        split; [exact Hu|]. split; [reflexivity|].
        unfold signedAs. rewrite Hseg. eauto.
      * rewrite Nat.add_succ_r. apply (Hall j before Hj).
    + cbn in Hrun.
      destruct (txscript_SignatureScript W (setTxIn tx (signed ++ ti :: todo)) i
                  (PkScript u) key) as [sig|] eqn:Hsig; cbn in Hrun; [|discriminate].
      match type of Hrun with
      | context [signLoop W tx key utxos ?s todo (S i)] =>
          destruct (signLoop W tx key utxos s todo (S i)) as [t' r] eqn:Hrec
      end.
      injection Hrun as _ ->.
      destruct (IH _ _ _ _ Hrec) as (signed' & -> & Hlen & Hall).
      eexists (_ :: signed'). rewrite <- app_assoc. split; [reflexivity|].
      split; [simpl; now rewrite Hlen|].
      intros [|j] before Hj.
      * injection Hj as <-. exists u. eexists. rewrite Nat.add_0_r.
        split; [exact Hu|]. split; [reflexivity|].
        unfold signedAs. rewrite Hseg. eauto.
      * rewrite Nat.add_succ_r. apply (Hall j before Hj).
Qed.

(** The loop ends in a value or in one of its two errors; it panics only
    when an input has no UTXO at its position. *)
Lemma signLoop_result (todo : list TxIn) :
  forall signed i t r,
    signLoop W tx key utxos signed todo i = (t, r) ->
    (exists out, r = Ok out)
    \/ (exists j, r = Err (ErrSegwitSigHash j))
    \/ (exists j, r = Err (ErrSignInput j))
    \/ (r = Panic /\ (length utxos < i + length todo)%nat).
Proof.
  induction todo as [|ti todo IH]; intros signed i t r Hrun.
  - cbn in Hrun. injection Hrun as _ <-. eauto.
  - cbn [signLoop] in Hrun.
    destruct (nth_error utxos i) as [u|] eqn:Hu.
    + destruct (IsSegwitScript (PkScript u)); cbn in Hrun.
      * destruct (CalcWitnessSigHash W (PkScript u) utxos
                    (setTxIn tx (signed ++ ti :: todo)) i (Value u));
          cbn in Hrun; [|injection Hrun as _ <-; eauto].
        match type of Hrun with
        | context [signLoop W tx key utxos ?s todo (S i)] =>
            destruct (signLoop W tx key utxos s todo (S i)) as [t' r'] eqn:Hrec
        end.
        injection Hrun as _ <-.
        destruct (IH _ _ _ _ Hrec) as [H|[H|[H|[H Hlen]]]]; auto.
        right. right. right. split; [exact H | simpl; lia].
      * destruct (txscript_SignatureScript W (setTxIn tx (signed ++ ti :: todo)) i
                    (PkScript u) key); cbn in Hrun; [|injection Hrun as _ <-; eauto].
        match type of Hrun with
        | context [signLoop W tx key utxos ?s todo (S i)] =>
            destruct (signLoop W tx key utxos s todo (S i)) as [t' r'] eqn:Hrec
        end.
        injection Hrun as _ <-.
        destruct (IH _ _ _ _ Hrec) as [H|[H|[H|[H Hlen]]]]; auto.
        right. right. right. split; [exact H | simpl; lia].
    + injection Hrun as _ <-. apply nth_error_None in Hu.
      right. right. right. split; [reflexivity | simpl; lia].
Qed.

End SignerFacts.

Lemma signTransaction_result (W : World) (tx : MsgTx) (key : bytes)
    (utxos : list UTXO) (t : list event) (r : result MsgTx) :
  signTransaction W tx key utxos = (t, r) ->
  (exists ins, r = Ok (setTxIn tx ins))
  \/ (exists j, r = Err (ErrSegwitSigHash j))
  \/ (exists j, r = Err (ErrSignInput j))
  \/ (r = Panic /\ (length utxos < length (txIn tx))%nat).
Proof.
  unfold signTransaction.
  destruct (signLoop W tx key utxos [] (txIn tx) 0) as [t0 r0] eqn:Hloop.
  destruct (signLoop_result W tx key utxos _ _ _ _ _ Hloop)
    as [[out ->]|[[j ->]|[[j ->]|[-> Hlen]]]]; cbn; intros H; injection H as _ <-; eauto.
Qed.

Lemma signTransaction_no_inputs (W : World) (tx : MsgTx) (key : bytes)
    (utxos : list UTXO) :
  txIn tx = [] -> signTransaction W tx key utxos = ([], Ok (setTxIn tx [])).
Proof. unfold signTransaction. intros ->. reflexivity. Qed.

(** ** Assembly *)

Section AssemblyFacts.
Context {sorter : SliceSorter} (W : World).

Lemma fund_result (w : Wallet) (recv : string) (amount : Z)
    (t : list event) (r : result (MsgTx * list UTXO * Z * Z)) :
  fund W w recv amount = (t, r) ->
  (exists x, r = Ok x)
  \/ r = Err ErrDecodeAddress \/ r = Err ErrPayToAddrScript
  \/ r = Err ErrGetUTXOs \/ r = Err ErrGetFeeRate.
Proof.
  unfold fund, addOutput, selectUTXOs, addInputs.
  destruct (DecodeAddress W recv) as [addr|]; cbn;
    [|intros H; injection H as _ <-; auto].
  destruct (PayToAddrScript W addr) as [script|]; cbn;
    [|intros H; injection H as _ <-; auto].
  destruct (GetUTXOs W (address w)) as [utxos|]; cbn;
    [|intros H; injection H as _ <-; auto].
  destruct (Select utxos amount) as [sel0 total0]; cbn.
  destruct (GetFeeRate W) as [feeRate|]; cbn;
    intros H; injection H as _ <-; eauto 6.
Qed.

(** The transaction handed to the signer: the funded one plus the change
    output, the change being strictly positive. *)
Lemma assemble_ok (w : Wallet) (recv : string) (amount : Z)
    (t : list event) (tx : MsgTx) (sel : list UTXO) (total fee : Z) :
  assemble W w recv amount = (t, Ok (tx, sel, total, fee)) <->
  exists tx0 addr script,
    fund W w recv amount = (t, Ok (tx0, sel, total, fee))
    /\ 0 < changeOf total amount fee
    /\ DecodeAddress W (address w) = Some addr
    /\ PayToAddrScript W addr = Some script
    /\ tx = AddTxOut tx0 (NewTxOut (changeOf total amount fee) script).
Proof.
  unfold assemble. split.
  - destruct (fund W w recv amount) as [t0 [[[[tx0 sel0] total0] fee0]|e|]] eqn:Hf;
      cbn; try discriminate.
    unfold addChange.
    destruct (0 <? changeOf total0 amount fee0) eqn:Hc; cbn; [|discriminate].
    destruct (addOutput W tx0 (address w) (changeOf total0 amount fee0))
      as [t1 r1] eqn:Ha.
    apply addOutput_result in Ha
      as [-> [-> | [-> | (addr & script & Hd & Hp & ->)]]]; cbn; try discriminate.
    intros H. injection H as <- <- <- <- <-. rewrite app_nil_r.
    exists tx0, addr, script. apply Z.ltb_lt in Hc. auto.
  - intros (tx0 & addr & script & Hf & Hc & Hd & Hp & ->).
    rewrite Hf. cbn. unfold addChange. apply Z.ltb_lt in Hc. rewrite Hc.
    unfold addOutput. rewrite Hd; cbn. rewrite Hp; cbn.
    now rewrite app_nil_r.
Qed.

(** "no change to send" is returned exactly at the change test. *)
Lemma assemble_no_change (w : Wallet) (recv : string) (amount : Z)
    (t : list event) :
  assemble W w recv amount = (t, Err ErrNoChange) <->
  exists tx0 sel total fee,
    fund W w recv amount = (t, Ok (tx0, sel, total, fee))
    /\ changeOf total amount fee <= 0.
Proof.
  unfold assemble. split.
  - destruct (fund W w recv amount) as [t0 r0] eqn:Hf.
    destruct (fund_result _ _ _ _ _ Hf)
      as [[[[[tx0 sel0] total0] fee0] ->]|[-> | [-> | [-> | ->]]]]; cbn; try discriminate.
    unfold addChange.
    destruct (0 <? changeOf total0 amount fee0) eqn:Hc; cbn.
    + destruct (addOutput W tx0 (address w) (changeOf total0 amount fee0))
        as [t1 r1] eqn:Ha.
      apply addOutput_result in Ha
        as [-> [-> | [-> | (addr & script & Hd & Hp & ->)]]]; cbn; discriminate.
    + intros H. injection H as <-. rewrite app_nil_r.
      apply Z.ltb_ge in Hc. now exists tx0, sel0, total0, fee0.
  - intros (tx0 & sel & total & fee & Hf & Hc).
    rewrite Hf. cbn. unfold addChange. apply Z.ltb_ge in Hc. rewrite Hc. cbn.
    now rewrite app_nil_r.
Qed.

(** Assembly signs nothing and does not panic. *)
Lemma assemble_quiet (w : Wallet) (recv : string) (amount : Z)
    (t : list event) (r : result (MsgTx * list UTXO * Z * Z)) :
  assemble W w recv amount = (t, r) -> noSigning t /\ r <> Panic.
Proof.
  unfold assemble.
  destruct (fund W w recv amount) as [t0 r0] eqn:Hf.
  pose proof (fund_noSigning _ _ _ _ _ _ Hf) as Hq.
  destruct (fund_result _ _ _ _ _ Hf)
    as [[[[[tx0 sel0] total0] fee0] ->]|[-> | [-> | [-> | ->]]]]; cbn;
    try (intros H; injection H as <- <-; split; [exact Hq | discriminate]).
  unfold addChange.
  destruct (0 <? changeOf total0 amount fee0); cbn.
  - destruct (addOutput W tx0 (address w) (changeOf total0 amount fee0))
      as [t1 r1] eqn:Ha.
    apply addOutput_result in Ha
      as [-> [-> | [-> | (addr & script & Hd & Hp & ->)]]]; cbn;
      intros H; injection H as <- <-; rewrite app_nil_r;
      (split; [exact Hq | discriminate]).
  - intros H; injection H as <- <-; rewrite app_nil_r.
    split; [exact Hq | discriminate].
Qed.

(** [CreateTransaction] is assembly, then signing, then serialization. *)
Lemma CreateTransaction_assemble (w : Wallet) (recv : string) (amount : Z) :
  CreateTransaction W w recv amount =
  ('(tx, selectedUTXOs, _, _) <- assemble W w recv amount ;;
   tx <- signTransaction W tx (privateKey w) selectedUTXOs ;;
   try (Serialize W tx) ErrSerialize).
Proof.
  unfold CreateTransaction, assemble, fund, addChange, addOutput, selectUTXOs,
    addInputs.
  destruct (DecodeAddress W recv) as [addr|]; cbn; [|reflexivity].
  destruct (PayToAddrScript W addr) as [script|]; cbn; [|reflexivity].
  destruct (GetUTXOs W (address w)) as [utxos|]; cbn; [|reflexivity].
  destruct (Select utxos amount) as [sel total]; cbn.
  destruct (GetFeeRate W) as [feeRate|]; cbn; [|reflexivity].
  destruct (0 <? changeOf total amount
                   (EstimateFee (Z.of_nat (length sel)) 2 feeRate));
    cbn; [|reflexivity].
  destruct (DecodeAddress W (address w)) as [self|]; cbn; [|reflexivity].
  destruct (PayToAddrScript W self) as [changeScript|]; cbn; [|reflexivity].
  match goal with
  | |- context [signTransaction W ?x ?k ?u] =>
      destruct (signTransaction W x k u) as [t1 [tx'| |]]
  end; cbn; try reflexivity.
  destruct (Serialize W tx'); reflexivity.
Qed.

(** The error of [CreateTransaction] is "no change to send" exactly when
    assembly stopped at the change test. *)
Lemma CreateTransaction_no_change (w : Wallet) (recv : string) (amount : Z)
    (t : list event) :
  CreateTransaction W w recv amount = (t, Err ErrNoChange) <->
  assemble W w recv amount = (t, Err ErrNoChange).
Proof.
  rewrite CreateTransaction_assemble.
  destruct (assemble W w recv amount)
    as [t0 [[[[tx sel] total] fee]|e|]] eqn:Ha; cbn.
  - split; [|discriminate].
    destruct (signTransaction W tx (privateKey w) sel) as [t1 r1] eqn:Hs.
    destruct (signTransaction_result _ _ _ _ _ _ Hs)
      as [[ins ->]|[[j ->]|[[j ->]|[-> _]]]]; cbn; try discriminate.
    destruct (Serialize W (setTxIn tx ins)); cbn; discriminate.
  - split; intros H; injection H as -> ->; reflexivity.
  - split; intros H; discriminate H.
Qed.

End AssemblyFacts.

Lemma runningTotal_range (l : list UTXO) (tot : Z) :
  in_int64 tot -> in_int64 (runningTotal tot l).
Proof.
  revert tot. induction l as [|u l IH]; intros tot Htot; [exact Htot|].
  rewrite runningTotal_cons. apply IH, wrap64_range.
Qed.

Lemma Select_total `{SliceSorter} (utxos : list UTXO) (amount : Z) :
  snd (Select utxos amount) = runningTotal 0 (fst (Select utxos amount))
  /\ in_int64 (snd (Select utxos amount)).
Proof.
  rewrite Select_prefix. cbn [fst snd]. split; [reflexivity|].
  apply runningTotal_range. unfold in_int64, min_int64, max_int64. lia.
Qed.

Lemma Select_nil `{SliceSorter} (amount : Z) : Select [] amount = ([], 0).
Proof. rewrite Select_prefix, sort_nil, firstn_nil. reflexivity. Qed.

Lemma changeOf_exact (total amount fee : Z) :
  in_int64 (total - amount - fee) ->
  changeOf total amount fee = total - amount - fee.
Proof.
  intros Hr. unfold changeOf, sub64.
  replace (wrap64 (total - amount) - fee) with (wrap64 (total - amount) + - fee) by lia.
  rewrite wrap64_add_l. replace (total - amount + - fee) with (total - amount - fee) by lia.
  now apply wrap64_id.
Qed.

Lemma changeOf_mod (total amount fee : Z) :
  in_int64 total -> wrap64 (amount + changeOf total amount fee + fee) = total.
Proof.
  intros Hr. unfold changeOf, sub64.
  replace (wrap64 (total - amount) - fee) with (wrap64 (total - amount) + - fee) by lia.
  rewrite wrap64_add_l.
  replace (amount + wrap64 (total - amount + - fee) + fee)
    with (wrap64 (total - amount + - fee) + (amount + fee)) by lia.
  rewrite wrap64_add_l.
  replace (total - amount + - fee + (amount + fee)) with total by lia.
  now apply wrap64_id.
Qed.

(** ** The pipeline: the claims *)

(** C1. Once the change is computed, [CreateTransaction] returns "no change
    to send" (and has signed nothing) when the change is zero or negative, and
    otherwise adds the change output paying the wallet's own address; that
    error is returned in no other situation.  With no UTXO available nothing
    is ever signed, and the run ends in that error whenever the amount and
    the fee are non-negative [int64] values whose sum fits [int64]. *)
Theorem change_gate `{SliceSorter} (W : World) (w : Wallet) (recv : string)
    (amount : Z) :
  (forall t tx0 sel total fee,
     fund W w recv amount = (t, Ok (tx0, sel, total, fee)) ->
     let change := changeOf total amount fee in
     (change <= 0 ->
      CreateTransaction W w recv amount = (t, Err ErrNoChange) /\ noSigning t)
     /\ (0 < change ->
         forall addr script,
           DecodeAddress W (address w) = Some addr ->
           PayToAddrScript W addr = Some script ->
           assemble W w recv amount
           = (t, Ok (AddTxOut tx0 (NewTxOut change script), sel, total, fee))))
  /\ (forall t,
        CreateTransaction W w recv amount = (t, Err ErrNoChange) <->
        exists tx0 sel total fee,
          fund W w recv amount = (t, Ok (tx0, sel, total, fee))
          /\ changeOf total amount fee <= 0)
  /\ (GetUTXOs W (address w) = Some [] ->
      (forall t r, CreateTransaction W w recv amount = (t, r) -> noSigning t)
      /\ (forall addr script feeRate,
            DecodeAddress W recv = Some addr ->
            PayToAddrScript W addr = Some script ->
            GetFeeRate W = Some feeRate ->
            0 <= amount -> 0 <= EstimateFee 0 2 feeRate ->
            amount + EstimateFee 0 2 feeRate <= max_int64 ->
            CreateTransaction W w recv amount
            = ([EvGetUTXOs (address w); EvGetFeeRate], Err ErrNoChange))).
Proof.
  split; [|split].
  - intros t tx0 sel total fee Hf change. split.
    + intros Hc. split; [|exact (fund_noSigning _ _ _ _ _ _ Hf)].
      apply CreateTransaction_no_change, assemble_no_change. eauto 8.
    + intros Hc addr script Hd Hp. apply assemble_ok. eauto 10.
  - intros t. rewrite CreateTransaction_no_change. apply assemble_no_change.
  - intros Hnone. split.
    + intros t r. rewrite CreateTransaction_assemble.
      destruct (assemble W w recv amount)
        as [t0 [[[[tx sel] total] fee]|e|]] eqn:Ha; cbn;
        try (intros E; injection E as <- _; exact (proj1 (assemble_quiet _ _ _ _ _ _ Ha))).
      pose proof (proj1 (assemble_quiet _ _ _ _ _ _ Ha)) as Hq.
      apply assemble_ok in Ha as (tx0 & a & s & Hf & _ & _ & _ & ->).
      apply fund_ok in Hf as (a0 & s0 & utxos & rate & _ & _ & Hget & _ & Hsel & -> & _ & _).
      rewrite Hnone in Hget. injection Hget as <-.
      rewrite Select_nil in Hsel. injection Hsel as <- <-.
      rewrite signTransaction_no_inputs by reflexivity. cbn.
      match goal with |- context [Serialize W ?x] => destruct (Serialize W x) end;
        cbn; intros E; injection E as <- _; now rewrite !app_nil_r.
    + intros addr script feeRate Hd Hp Hr Ha Hfee Hsum.
      apply CreateTransaction_no_change, assemble_no_change.
      exists (AddTxOut (NewMsgTx TxVersion) (NewTxOut amount script)), [], 0,
             (EstimateFee 0 2 feeRate).
      split.
      * apply fund_ok. exists addr, script, [], feeRate.
        repeat split; auto. apply Select_nil.
      * rewrite changeOf_exact; unfold in_int64, min_int64, max_int64 in *; lia.
Qed.

Lemma change_gate_witness :
  let W := Sample.world [] (Some Sample.unitRate) in
  GetUTXOs W (address Sample.wallet) = Some []
  /\ CreateTransaction W Sample.wallet Sample.payee 1200
     = ([EvGetUTXOs (address Sample.wallet); EvGetFeeRate], Err ErrNoChange).
Proof.
  intros W. split; [reflexivity|].
  destruct (change_gate W Sample.wallet Sample.payee 1200) as (_ & _ & Hzero).
  destruct (Hzero eq_refl) as [_ Hfail].
  apply (Hfail _ _ Sample.unitRate eq_refl eq_refl eq_refl).
  - lia.
  - vm_compute. discriminate.
  - vm_compute. discriminate.
Defined.

(** C2, as the code has it.  The transaction handed to the signer has
    exactly two outputs, the payment first and the change second; the change
    is strictly positive; the payment carries the requested amount, so every
    output is strictly positive when the requested amount is; payment, change
    and fee add up to the selected total, exactly when the subtraction stays
    within [int64] and modulo 2^64 in any case. *)
Theorem assembled_outputs `{SliceSorter} (W : World) (w : Wallet)
    (recv : string) (amount : Z) (t : list event) (tx : MsgTx)
    (sel : list UTXO) (total fee : Z) :
  assemble W w recv amount = (t, Ok (tx, sel, total, fee)) ->
  let change := changeOf total amount fee in
  (exists payee payScript self changeScript,
     DecodeAddress W recv = Some payee
     /\ PayToAddrScript W payee = Some payScript
     /\ DecodeAddress W (address w) = Some self
     /\ PayToAddrScript W self = Some changeScript
     /\ txOut tx = [NewTxOut amount payScript; NewTxOut change changeScript])
  /\ 0 < change
  /\ total = runningTotal 0 sel
  /\ (forall utxos, GetUTXOs W (address w) = Some utxos ->
        ledgerValues utxos -> total = sum_values sel)
  /\ wrap64 (amount + change + fee) = total
  /\ (in_int64 (total - amount - fee) -> amount + change + fee = total)
  /\ (0 < amount -> Forall (fun o => 0 < outValue o) (txOut tx)).
Proof.
  intros Ha change.
  apply assemble_ok in Ha as (tx0 & self & changeScript & Hf & Hc & Hd & Hp & ->).
  apply fund_ok in Hf
    as (payee & payScript & utxos & rate & Hd' & Hp' & Hget & _ & Hsel & -> & _ & _).
  pose proof (Select_total utxos amount) as [Htot Hrange].
  rewrite Hsel in Htot, Hrange. cbn [fst snd] in Htot, Hrange.
  assert (Hout : txOut (AddTxOut (fold_left addInput sel
                   (AddTxOut (NewMsgTx TxVersion) (NewTxOut amount payScript)))
                   (NewTxOut (changeOf total amount fee) changeScript))
                 = [NewTxOut amount payScript; NewTxOut change changeScript]).
  { cbn [AddTxOut txOut]. rewrite addInputs_txOut. reflexivity. }
  split; [exists payee, payScript, self, changeScript; auto|].
  split; [exact Hc|]. split; [exact Htot|]. split; [|split; [|split]].
  - intros utxos' Hget' Hl. rewrite Hget in Hget'. injection Hget' as <-.
    pose proof (proj1 (Select_covers utxos amount Hl)) as E.
    now rewrite Hsel in E.
  - now apply changeOf_mod.
  - intros Hr. unfold change. rewrite changeOf_exact by exact Hr. lia.
  - intros Hpos. rewrite Hout. repeat constructor; cbn; [exact Hpos | exact Hc].
Qed.

Lemma assembled_outputs_witness :
  let W := Sample.world Sample.oneUTXO (Some Sample.rate) in
  exists t tx sel,
    assemble W Sample.wallet Sample.payee 1200 = (t, Ok (tx, sel, 10000, 300))
    /\ map outValue (txOut tx) = [1200; 8500]
    /\ 1200 + changeOf 10000 1200 300 + 300 = 10000.
Proof.
  intros W.
  destruct (assemble W Sample.wallet Sample.payee 1200)
    as [t [[[[tx sel] total] fee]|e|]] eqn:Ha; try (vm_compute in Ha; discriminate).
  assert (Hv : total = 10000 /\ fee = 300 /\ map outValue (txOut tx) = [1200; 8500]).
  { vm_compute in Ha. injection Ha as _ <- _ <- <-. repeat split. }
  destruct Hv as (-> & -> & Hv).
  exists t, tx, sel. split; [reflexivity|]. split; [exact Hv|].
  destruct (assembled_outputs W _ _ _ _ _ _ _ _ Ha) as (_ & _ & _ & _ & _ & Hsum & _).
  apply Hsum. vm_compute. split; discriminate.
Defined.

(** C2, as stated, fails: a request for 0 units is assembled (and signed)
    with a payment output of value 0. *)
Lemma zero_payment_output :
  let W := Sample.world Sample.oneUTXO (Some Sample.rate) in
  exists t tx sel total fee raw,
    assemble W Sample.wallet Sample.payee 0 = (t, Ok (tx, sel, total, fee))
    /\ map outValue (txOut tx) = [0; 9700]
    /\ ~ Forall (fun o => 0 < outValue o) (txOut tx)
    /\ snd (CreateTransaction W Sample.wallet Sample.payee 0) = Ok raw.
Proof.
  intros W. do 6 eexists. split; [vm_compute; reflexivity|].
  split; [reflexivity|]. split; [|vm_compute; reflexivity].
  intros Hall. inversion Hall as [|? ? Hpos _]. vm_compute in Hpos. discriminate.
Qed.

Lemma freshInputs_nth (utxos : list UTXO) (i : nat) (ti : TxIn) :
  nth_error (freshInputs utxos) i = Some ti ->
  exists u, nth_error utxos i = Some u
            /\ ti = NewTxIn (utxoOutPoint u) [] [].
Proof.
  unfold freshInputs. rewrite nth_error_map.
  destruct (nth_error utxos i) as [u|]; [|discriminate].
  intros E. injection E as <-. now exists u.
Qed.

Lemma assemble_inputs `{SliceSorter} (W : World) (w : Wallet) (recv : string)
    (amount : Z) (t : list event) (tx : MsgTx) (sel : list UTXO) (total fee : Z) :
  assemble W w recv amount = (t, Ok (tx, sel, total, fee)) ->
  txIn tx = freshInputs sel.
Proof.
  intros Ha.
  apply assemble_ok in Ha as (tx0 & self & changeScript & Hf & _ & _ & _ & ->).
  apply fund_ok in Hf as (payee & payScript & utxos & rate & _ & _ & _ & _ & _ & -> & _ & _).
  cbn [AddTxOut txIn]. rewrite addInputs_txIn. reflexivity.
Qed.

(** C9. In [CreateTransaction] the transaction handed to the signer has one
    input per selected UTXO, in the same order, the i-th input spending the
    outpoint of the i-th UTXO; the signer's access [utxos[i]] is therefore in
    bounds: neither [signTransaction] nor [CreateTransaction] panics. *)
Theorem inputs_aligned `{SliceSorter} (W : World) (w : Wallet) (recv : string)
    (amount : Z) (t : list event) (tx : MsgTx) (sel : list UTXO)
    (total fee : Z) :
  assemble W w recv amount = (t, Ok (tx, sel, total, fee)) ->
  length (txIn tx) = length sel
  /\ map PreviousOutPoint (txIn tx) = map utxoOutPoint sel
  /\ (forall i ti, nth_error (txIn tx) i = Some ti ->
        exists u, nth_error sel i = Some u
                  /\ PreviousOutPoint ti = utxoOutPoint u)
  /\ (forall i u, nth_error sel i = Some u ->
        exists ti, nth_error (txIn tx) i = Some ti
                   /\ PreviousOutPoint ti = utxoOutPoint u)
  /\ snd (signTransaction W tx (privateKey w) sel) <> Panic
  /\ snd (CreateTransaction W w recv amount) <> Panic.
Proof.
  intros Ha. pose proof (assemble_inputs _ _ _ _ _ _ _ _ _ Ha) as Hin.
  assert (Hlen : length (txIn tx) = length sel).
  { rewrite Hin. unfold freshInputs. apply length_map. }
  assert (Hsign : snd (signTransaction W tx (privateKey w) sel) <> Panic).
  { destruct (signTransaction W tx (privateKey w) sel) as [t1 r1] eqn:Hs.
    destruct (signTransaction_result _ _ _ _ _ _ Hs)
      as [[ins ->]|[[j ->]|[[j ->]|[-> Hlt]]]]; cbn; try discriminate. lia. }
  split; [exact Hlen|]. split; [|split; [|split; [|split]]].
  - rewrite Hin. unfold freshInputs. rewrite map_map. reflexivity.
  - intros i ti Hi. rewrite Hin in Hi.
    destruct (freshInputs_nth _ _ _ Hi) as (u & Hu & ->). now exists u.
  - intros i u Hu. rewrite Hin. unfold freshInputs. rewrite nth_error_map, Hu.
    cbn. eauto.
  - exact Hsign.
  - rewrite CreateTransaction_assemble, Ha. cbn.
    destruct (signTransaction W tx (privateKey w) sel) as [t1 [tx'| |]];
      cbn in *; try discriminate; [|congruence].
    destruct (Serialize W tx'); cbn; discriminate.
Qed.

Lemma inputs_aligned_witness :
  let W := Sample.world Sample.mixed (Some Sample.unitRate) in
  exists t tx sel total fee,
    assemble W Sample.wallet Sample.payee 10000 = (t, Ok (tx, sel, total, fee))
    /\ map PreviousOutPoint (txIn tx) = map utxoOutPoint sel
    /\ length sel = 2%nat.
Proof.
  intros W.
  destruct (assemble W Sample.wallet Sample.payee 10000)
    as [t [[[[tx sel] total] fee]|e|]] eqn:Ha; try (vm_compute in Ha; discriminate).
  exists t, tx, sel, total, fee. split; [reflexivity|].
  split; [exact (proj1 (proj2 (inputs_aligned W _ _ _ _ _ _ _ _ Ha)))|].
  vm_compute in Ha. injection Ha as _ _ <- _ _. reflexivity.
Defined.

(** C3. [signTransaction] treats every input by the type of the locking
    script of the UTXO at its position, one way or the other.  For a
    witness-type script the input ends with an empty unlocking script and the
    two-element witness [DER signature followed by the sighash-type byte;
    compressed public key]; for any other script it ends with the unlocking
    script that txscript.SignatureScript produced and without witness.  The
    inputs are those [addInputs] created, as in [CreateTransaction]. *)
Theorem sign_dispatch (W : World) (tx : MsgTx) (key : bytes)
    (utxos : list UTXO) (t : list event) (tx' : MsgTx) :
  txIn tx = freshInputs utxos ->
  signTransaction W tx key utxos = (t, Ok tx') ->
  length (txIn tx') = length utxos
  /\ forall i u, nth_error utxos i = Some u ->
       exists ti,
         nth_error (txIn tx') i = Some ti
         /\ PreviousOutPoint ti = utxoOutPoint u
         /\ (IsSegwitScript (PkScript u) = true ->
             SignatureScript ti = []
             /\ exists cur hash,
                  CalcWitnessSigHash W (PkScript u) utxos cur i (Value u) = Some hash
                  /\ Witness ti = [ecdsaSign W key hash ++ [SigHashAll];
                                   SerializeCompressed W key])
         /\ (IsSegwitScript (PkScript u) = false ->
             Witness ti = []
             /\ (exists cur,
                   txscript_SignatureScript W cur i (PkScript u) key
                   = Some (SignatureScript ti))
             /\ ((forall cur j s k out,
                    txscript_SignatureScript W cur j s k = Some out -> out <> []) ->
                 SignatureScript ti <> [])).
Proof.
  intros Hin Hrun. unfold signTransaction in Hrun.
  destruct (signLoop W tx key utxos [] (txIn tx) 0) as [t0 [ins| |]] eqn:Hloop;
    cbn in Hrun; try discriminate.
  injection Hrun as _ <-. cbn [setTxIn txIn].
  destruct (signLoop_ok _ _ _ _ _ _ _ _ _ Hloop) as (signed' & -> & Hlen & Hall).
  cbn [app]. split.
  - rewrite Hlen, Hin. unfold freshInputs. apply length_map.
  - intros i u Hu.
    assert (Hi : nth_error (txIn tx) i = Some (NewTxIn (utxoOutPoint u) [] [])).
    { rewrite Hin. unfold freshInputs. now rewrite nth_error_map, Hu. }
    destruct (Hall i _ Hi) as (u' & after & Hu' & Hafter & Hsigned).
    cbn [Nat.add] in Hu', Hsigned. rewrite Hu in Hu'. injection Hu' as <-.
    exists after. split; [exact Hafter|].
    unfold signedAs in Hsigned.
    destruct (IsSegwitScript (PkScript u)).
    + destruct Hsigned as (cur & hash & Hhash & ->). cbn.
      split; [reflexivity|]. split; [|discriminate].
      intros _. split; [reflexivity|]. now exists cur, hash.
    + destruct Hsigned as (cur & sig & Hsig & ->). cbn.
      split; [reflexivity|]. split; [discriminate|].
      intros _. split; [reflexivity|]. split; [now exists cur|].
      intros Hlib. exact (Hlib _ _ _ _ _ Hsig).
Qed.

Lemma sign_dispatch_witness :
  let W := Sample.world Sample.mixed (Some Sample.unitRate) in
  let tx := setTxIn (NewMsgTx TxVersion) (freshInputs Sample.mixed) in
  exists t tx',
    signTransaction W tx (privateKey Sample.wallet) Sample.mixed = (t, Ok tx')
    /\ t = [EvSigHash 0; EvSign 0; EvSign 1]
    /\ length (txIn tx') = 2%nat.
Proof.
  intros W tx.
  destruct (signTransaction W tx (privateKey Sample.wallet) Sample.mixed)
    as [t [tx'| |]] eqn:Hs; try (vm_compute in Hs; discriminate).
  exists t, tx'. split; [reflexivity|]. split.
  - vm_compute in Hs. injection Hs as <- _. reflexivity.
  - exact (proj1 (sign_dispatch W tx _ _ _ _ eq_refl Hs)).
Defined.

(** C4, as the code has it.  The selection is a sub-multiset of the UTXOs the
    provider returned, chosen for the payment amount alone: within the
    ledger's value domain its total is the sum of its values and reaches the
    amount whenever the available total does.  The fee is computed after the
    selection and is not part of its target. *)
Theorem selection_covers_amount `{SliceSorter} (W : World) (w : Wallet)
    (recv : string) (amount : Z) (t : list event) (tx : MsgTx)
    (sel : list UTXO) (total fee : Z) :
  fund W w recv amount = (t, Ok (tx, sel, total, fee)) ->
  exists utxos,
    GetUTXOs W (address w) = Some utxos
    /\ Select utxos amount = (sel, total)
    /\ subMultiset sel utxos
    /\ (ledgerValues utxos ->
        total = sum_values sel
        /\ (amount <= sum_values utxos -> amount <= total)).
Proof.
  intros Hf.
  apply fund_ok in Hf as (payee & payScript & utxos & rate & _ & _ & Hget & _ & Hsel & _).
  exists utxos. split; [exact Hget|]. split; [exact Hsel|]. split.
  - pose proof (Select_prefix utxos amount) as Hpre. cbn zeta in Hpre.
    rewrite Hsel in Hpre. injection Hpre as -> _.
    apply firstn_subMultiset, sort_Slice_perm.
  - intros Hl. pose proof (Select_covers utxos amount Hl) as Hc.
    rewrite Hsel in Hc. exact Hc.
Qed.

Lemma selection_covers_amount_witness :
  let W := Sample.world Sample.mixed (Some Sample.unitRate) in
  exists t tx sel total fee,
    fund W Sample.wallet Sample.payee 10000 = (t, Ok (tx, sel, total, fee))
    /\ ledgerValues Sample.mixed
    /\ 10000 <= sum_values Sample.mixed
    /\ 10000 <= total.
Proof.
  intros W.
  destruct (fund W Sample.wallet Sample.payee 10000)
    as [t [[[[tx sel] total] fee]|e|]] eqn:Hf; try (vm_compute in Hf; discriminate).
  exists t, tx, sel, total, fee. split; [reflexivity|].
  assert (Hl : ledgerValues Sample.mixed).
  { split; [repeat constructor; cbn; lia | vm_compute; discriminate]. }
  assert (Hs : 10000 <= sum_values Sample.mixed) by (vm_compute; discriminate).
  split; [exact Hl|]. split; [exact Hs|].
  destruct (selection_covers_amount W _ _ _ _ _ _ _ _ Hf)
    as (utxos & Hget & _ & _ & Hcov).
  cbn in Hget. injection Hget as <-. exact (proj2 (Hcov Hl) Hs).
Defined.

(** C4, as stated, fails: with two UTXOs of 1,000 units and a payment of
    1,000 the available total covers amount plus fee, the selection stops at
    the first UTXO, and the run ends in "no change to send". *)
Lemma selection_ignores_fee :
  let W := Sample.world [Sample.utxoA; Sample.utxoB] (Some Sample.unitRate) in
  exists t tx,
    fund W Sample.wallet Sample.payee 1000
    = (t, Ok (tx, [Sample.utxoA], 1000, 141))
    /\ 1000 + 141 <= sum_values [Sample.utxoA; Sample.utxoB]
    /\ 1000 < 1000 + 141
    /\ CreateTransaction W Sample.wallet Sample.payee 1000 = (t, Err ErrNoChange).
Proof.
  intros W. do 2 eexists. split; [vm_compute; reflexivity|].
  split; [vm_compute; discriminate|]. split; [lia|]. vm_compute. reflexivity.
Qed.


(** ** binary64: rounding, multiplication and conversion *)

Lemma iter_pos_nat {A} (f : A -> A) (p : positive) :
  forall x, iter_pos f p x = Nat.iter (Pos.to_nat p) f x.
Proof.
  induction p as [p IH|p IH|]; intros x; cbn [iter_pos].
  - rewrite !IH, Pos2Nat.inj_xI. cbn [Nat.iter].
    rewrite <- Nat.iter_add, <- Nat.iter_succ_r. f_equal. lia.
  - rewrite !IH, Pos2Nat.inj_xO, <- Nat.iter_add. f_equal. lia.
  - reflexivity.
Qed.

Lemma shr_1_spec (m : Z) (r s : bool) :
  0 <= m ->
  shr_1 {| shr_m := m; shr_r := r; shr_s := s |}
  = {| shr_m := m / 2; shr_r := Z.odd m; shr_s := r || s |}.
Proof.
  intros Hm. destruct m as [|p|p]; [reflexivity| |lia].
  destruct p as [p|p|]; cbn [shr_1].
  - f_equal. rewrite Pos2Z.inj_xI.
    apply (Z.div_unique _ _ _ 1); lia.
  - f_equal. rewrite Pos2Z.inj_xO.
    apply (Z.div_unique _ _ _ 0); lia.
  - reflexivity.
Qed.

Lemma shr_iter_spec (m : Z) (c : nat) :
  0 <= m ->
  Nat.iter (S c) shr_1 {| shr_m := m; shr_r := false; shr_s := false |}
  = {| shr_m := m / 2 ^ Z.of_nat (S c);
       shr_r := Z.testbit m (Z.of_nat c);
       shr_s := negb (m mod 2 ^ Z.of_nat c =? 0) |}.
Proof.
  intros Hm. induction c as [|c IH].
  - cbn [Nat.iter]. rewrite shr_1_spec by exact Hm.
    change (Z.of_nat 1) with 1. change (Z.of_nat 0) with 0.
    now rewrite Z.pow_1_r, Z.pow_0_r, Z.mod_1_r, Z.bit0_odd.
  - rewrite Nat.iter_succ, IH.
    rewrite shr_1_spec by (apply Z.div_pos; lia).
    f_equal.
    + rewrite Z.div_div by lia. f_equal.
      rewrite (Nat2Z.inj_succ (S c)), Z.pow_succ_r by lia. lia.
    + rewrite Z.testbit_odd, Z.shiftr_div_pow2 by lia.
      now rewrite (Nat2Z.inj_succ c).
    + rewrite (Nat2Z.inj_succ c), Z.pow_succ_r by lia.
      pose proof (Z.testbit_spec' m (Z.of_nat c) ltac:(lia)) as Hb.
      set (P := 2 ^ Z.of_nat c) in *. assert (0 < P) by (apply Z.pow_pos_nonneg; lia).
      rewrite (Z.mul_comm 2 P), Z.rem_mul_r by lia.
      pose proof (Z.mod_pos_bound m P ltac:(lia)).
      destruct (Z.testbit m (Z.of_nat c)); cbn [Z.b2z] in Hb; rewrite <- Hb;
      destruct (Z.eqb_spec (m mod P) 0) as [E0|E0];
      match goal with |- context [?x =? 0] => destruct (Z.eqb_spec x 0) as [E1|E1] end;
      cbn; try reflexivity; try nia.
Qed.

Lemma shr_round (m : Z) (p : positive) :
  0 <= m ->
  let mrs := iter_pos shr_1 p {| shr_m := m; shr_r := false; shr_s := false |} in
  round_nearest_even (shr_m mrs) (loc_of_shr_record mrs) = rneq m (Zpos p).
Proof.
  intros Hm. cbv zeta. rewrite iter_pos_nat.
  destruct (Pos2Nat.is_succ p) as [c Hc]. rewrite Hc, shr_iter_spec by exact Hm.
  assert (Hp : Zpos p = Z.of_nat (S c)) by lia.
  unfold rneq. rewrite Hp.
  cbn [shr_m loc_of_shr_record].
  rewrite Nat2Z.inj_succ, Z.pow_succ_r by lia.
  pose proof (Z.testbit_spec' m (Z.of_nat c) ltac:(lia)) as Hb.
  set (P := 2 ^ Z.of_nat c) in *. assert (HP : 0 < P) by (apply Z.pow_pos_nonneg; lia).
  rewrite (Z.mul_comm 2 P) at 2. rewrite Z.rem_mul_r by lia. rewrite <- Hb.
  pose proof (Z.mod_pos_bound m P ltac:(lia)) as Hlow.
  set (q := m / (2 * P)).
  destruct (Z.testbit m (Z.of_nat c)); cbn [Z.b2z];
    destruct (Z.eqb_spec (m mod P) 0) as [E0|E0]; cbn [negb round_nearest_even].
  - rewrite E0. replace (2 * (0 + P * 1)) with (2 * P) by lia.
    now rewrite Z.compare_refl.
  - assert (Hc' : (2 * (m mod P + P * 1) ?= 2 * P) = Gt) by (apply Z.compare_gt_iff; lia).
    now rewrite Hc'.
  - assert (Hc' : (2 * (m mod P + P * 0) ?= 2 * P) = Lt) by (apply Z.compare_lt_iff; lia).
    now rewrite Hc'.
  - assert (Hc' : (2 * (m mod P + P * 0) ?= 2 * P) = Lt) by (apply Z.compare_lt_iff; lia).
    now rewrite Hc'.
Qed.

Section Rneq.
Variables (v k : Z).
Hypothesis Hk : 0 <= k.

Let P := 2 ^ k.

Lemma rneq_cases :
  0 < P /\ v = P * (v / P) + v mod P /\ 0 <= v mod P < P
  /\ (rneq v k = v / P \/ rneq v k = v / P + 1)
  /\ (2 * (v mod P) < P -> rneq v k = v / P)
  /\ (P < 2 * (v mod P) -> rneq v k = v / P + 1).
Proof.
  assert (HP : 0 < P) by (apply Z.pow_pos_nonneg; lia).
  split; [exact HP|]. split; [apply Z.div_mod; lia|].
  split; [apply Z.mod_pos_bound; lia|].
  unfold rneq. fold P.
  destruct (Z.compare_spec (2 * (v mod P)) P) as [E|E|E].
  - split; [destruct (Z.even (v / P)); auto|]. split; lia.
  - split; [auto|]. split; [auto|lia].
  - split; [auto|]. split; [lia|auto].
Qed.

Lemma rneq_exact : v mod P = 0 -> rneq v k = v / P.
Proof.
  intros E. destruct rneq_cases as (HP & _ & _ & _ & Hlt & _). apply Hlt. lia.
Qed.

Lemma rneq_le_multiple (a : Z) : v <= a * P -> rneq v k <= a.
Proof.
  intros Hle. destruct rneq_cases as (HP & Hdm & Hr & Hq & Hlt & _).
  assert (v / P <= a) by (apply Z.div_le_upper_bound; lia).
  destruct (Z.eq_dec (v / P) a) as [E|E]; [|lia].
  rewrite Hlt; [lia|]. rewrite E in Hdm. nia.
Qed.

Lemma rneq_ge_multiple (a : Z) : a * P <= v -> a <= rneq v k.
Proof.
  intros Hle. destruct rneq_cases as (HP & Hdm & Hr & Hq & _).
  assert (a <= v / P) by (apply Z.div_le_lower_bound; lia). lia.
Qed.
End Rneq.

Lemma rneq_mono (v1 v2 k : Z) :
  0 <= k -> v1 <= v2 -> rneq v1 k <= rneq v2 k.
Proof.
  intros Hk Hle.
  destruct (rneq_cases v1 k Hk) as (HP & Hdm1 & Hr1 & Hq1 & Hlt1 & Hgt1).
  destruct (rneq_cases v2 k Hk) as (_ & Hdm2 & Hr2 & Hq2 & Hlt2 & Hgt2).
  assert (Hq : v1 / 2 ^ k <= v2 / 2 ^ k) by (apply Z.div_le_mono; lia).
  destruct (Z.eq_dec (v1 / 2 ^ k) (v2 / 2 ^ k)) as [E|E]; [|lia].
  assert (Hr : v1 mod 2 ^ k <= v2 mod 2 ^ k) by (rewrite E in Hdm1; lia).
  unfold rneq in *. rewrite <- E in *.
  destruct (Z.compare_spec (2 * (v1 mod 2 ^ k)) (2 ^ k));
  destruct (Z.compare_spec (2 * (v2 mod 2 ^ k)) (2 ^ k));
  destruct (Z.even (v1 / 2 ^ k)); lia.
Qed.

Lemma rneq_scale (v k c : Z) :
  0 <= k -> 0 <= c -> rneq (v * 2 ^ c) (k + c) = rneq v k.
Proof.
  intros Hk Hc. unfold rneq.
  assert (HP : 0 < 2 ^ k) by (apply Z.pow_pos_nonneg; lia).
  assert (HC : 0 < 2 ^ c) by (apply Z.pow_pos_nonneg; lia).
  rewrite Z.pow_add_r by lia.
  rewrite Z.div_mul_cancel_r by lia.
  rewrite Z.mul_mod_distr_r by lia.
  rewrite Z.mul_assoc, <- Zmult_compare_compat_r by lia. reflexivity.
Qed.

Lemma digits2_size (p : positive) : digits2_pos p = Pos.size p.
Proof. induction p; cbn; congruence. Qed.

Lemma Zdigits2_log2 (v : Z) : 0 < v -> Zdigits2 v = Z.log2 v + 1.
Proof.
  destruct v as [|p|p]; try lia. intros _. cbn [Zdigits2].
  rewrite digits2_size. destruct p; cbn [Z.log2 Pos.size]; lia.
Qed.

Lemma Zdigits2_nonneg (v : Z) : 0 <= Zdigits2 v.
Proof. destruct v; cbn; lia. Qed.

Lemma Zdigits2_bounds (v : Z) :
  0 < v -> 2 ^ (Zdigits2 v - 1) <= v < 2 ^ Zdigits2 v.
Proof.
  intros Hv. rewrite Zdigits2_log2 by exact Hv.
  replace (Z.log2 v + 1 - 1) with (Z.log2 v) by lia.
  pose proof (Z.log2_spec v Hv). rewrite <- Z.add_1_r in *. lia.
Qed.

Lemma Zdigits2_scale (v c : Z) :
  0 < v -> 0 <= c -> Zdigits2 (v * 2 ^ c) = Zdigits2 v + c.
Proof.
  intros Hv Hc. assert (0 < 2 ^ c) by (apply Z.pow_pos_nonneg; lia).
  rewrite !Zdigits2_log2 by nia. rewrite Z.log2_mul_pow2 by lia. lia.
Qed.

Lemma Zdigits2_mono (v1 v2 : Z) :
  0 <= v1 <= v2 -> Zdigits2 v1 <= Zdigits2 v2.
Proof.
  intros [H1 H2]. destruct (Z.eq_dec v1 0) as [->|Hne].
  - apply Zdigits2_nonneg.
  - rewrite !Zdigits2_log2 by lia. pose proof (Z.log2_le_mono v1 v2 H2). lia.
Qed.

Lemma Zdigits2_le (v n : Z) : 0 <= n -> 0 <= v < 2 ^ n -> Zdigits2 v <= n.
Proof.
  intros Hn [H0 Hlt]. destruct (Z.eq_dec v 0) as [->|Hne]; [cbn; lia|].
  rewrite Zdigits2_log2 by lia.
  assert (Z.log2 v < n) by (apply Z.log2_lt_pow2; lia). lia.
Qed.

Lemma fexp_eq (x : Z) : fexp prec emax x = Z.max (x - 53) (-1074).
Proof. reflexivity. Qed.

Lemma ulpExp_eq (v : Z) : ulpExp v = Z.max (Zdigits2 v - 53) 1074.
Proof. reflexivity. Qed.

Lemma round64_exact (a c : Z) :
  0 < a < 2 ^ 53 -> 1074 <= c -> round64 (a * 2 ^ c) = a * 2 ^ c.
Proof.
  intros Ha Hc. unfold round64.
  assert (Hk : 1074 <= ulpExp (a * 2 ^ c) <= c).
  { rewrite ulpExp_eq, Zdigits2_scale by lia.
    pose proof (Zdigits2_le a 53 ltac:(lia) ltac:(lia)). lia. }
  set (k := ulpExp (a * 2 ^ c)) in *.
  assert (E : a * 2 ^ c = (a * 2 ^ (c - k)) * 2 ^ k).
  { rewrite <- Z.mul_assoc, <- Z.pow_add_r by lia. do 2 f_equal. lia. }
  rewrite rneq_exact; [| lia | rewrite E; apply Z.mod_mul; apply Z.pow_nonzero; lia].
  rewrite E at 1. rewrite Z.div_mul by (apply Z.pow_nonzero; lia).
  now rewrite <- E.
Qed.

Lemma round64_0 : round64 0 = 0.
Proof. reflexivity. Qed.

Lemma round64_mono (v1 v2 : Z) : 0 <= v1 <= v2 -> round64 v1 <= round64 v2.
Proof.
  intros [H1 H2]. unfold round64.
  pose proof (Zdigits2_mono v1 v2 (conj H1 H2)) as Hd.
  pose proof (Zdigits2_nonneg v1) as Hd1.
  pose proof (ulpExp_eq v1) as Ek1. pose proof (ulpExp_eq v2) as Ek2.
  assert (Hbnd1 : v1 < 2 ^ Zdigits2 v1).
  { destruct (Z.eq_dec v1 0) as [->|Hne]; [cbn; lia|].
    apply (Zdigits2_bounds v1). lia. }
  assert (Hbnd2 : 0 < v2 -> 2 ^ (Zdigits2 v2 - 1) <= v2).
  { intros Hv2. apply (Zdigits2_bounds v2 Hv2). }
  assert (Hz2 : v2 = 0 -> Zdigits2 v2 = 0) by (intros ->; reflexivity).
  revert Ek1 Ek2 Hbnd1 Hbnd2 Hz2 Hd Hd1.
  generalize (ulpExp v1) (ulpExp v2) (Zdigits2 v1) (Zdigits2 v2).
  intros k1 k2 d1 d2 Ek1 Ek2 Hbnd1 Hbnd2 Hz2 Hd Hd1.
  destruct (Z.eq_dec k1 k2) as [E|E].
  - rewrite E. apply Z.mul_le_mono_nonneg_r; [apply Z.pow_nonneg; lia|].
    apply rneq_mono; lia.
  - assert (Hk2 : k2 = d2 - 53) by lia.
    assert (Hd12 : d1 < d2) by lia.
    assert (Hv2 : 0 < v2) by lia.
    set (b := Z.max d1 k1).
    assert (Hup : rneq v1 k1 * 2 ^ k1 <= 2 ^ b).
    { assert (Hb : 2 ^ b = 2 ^ (b - k1) * 2 ^ k1).
      { rewrite <- Z.pow_add_r by lia. f_equal. lia. }
      rewrite Hb. apply Z.mul_le_mono_nonneg_r; [apply Z.pow_nonneg; lia|].
      apply rneq_le_multiple; [lia|]. rewrite <- Hb.
      assert (2 ^ d1 <= 2 ^ b) by (apply Z.pow_le_mono_r; lia). lia. }
    assert (Hlow : 2 ^ (d2 - 1) <= rneq v2 k2 * 2 ^ k2).
    { assert (Hb : 2 ^ (d2 - 1) = 2 ^ 52 * 2 ^ k2).
      { rewrite <- Z.pow_add_r by lia. f_equal. lia. }
      rewrite Hb. apply Z.mul_le_mono_nonneg_r; [apply Z.pow_nonneg; lia|].
      apply rneq_ge_multiple; [lia|]. rewrite <- Hb. now apply Hbnd2. }
    assert (2 ^ b <= 2 ^ (d2 - 1)) by (apply Z.pow_le_mono_r; lia).
    lia.
Qed.

Lemma finish_spec (s : bool) (q t : Z) :
  0 <= q <= 2 ^ 53 -> -1074 <= t ->
  match finish s q t with
  | S754_zero s' => s' = s /\ q = 0
  | S754_finite s' m' e' =>
      s' = s /\ Zpos m' * 2 ^ (e' + fixS) = q * 2 ^ (t + fixS) /\ t <= e'
      /\ Zpos m' < 2 ^ 53
  | S754_infinity s' => s' = s /\ 2 ^ (972 + fixS) <= q * 2 ^ (t + fixS)
  | S754_nan => False
  end.
Proof.
  intros Hq Ht. unfold finish, shr_fexp. rewrite fexp_eq.
  assert (HS : 0 <= t + fixS) by (unfold fixS; lia).
  destruct (Z.eq_dec q (2 ^ 53)) as [->|Hne].
  - (* the rounded mantissa carried into the next binade *)
    replace (Z.max (Zdigits2 (2 ^ 53) + t - 53) (-1074) - t) with 1
      by (change (Zdigits2 (2 ^ 53)) with 54; lia).
    cbn [shr_record_of_loc shr iter_pos shr_1 shr_m]. 
    change (shr_m (shr_1 {| shr_m := 2 ^ 53; shr_r := false; shr_s := false |}))
      with (Zpos (2 ^ 52)).
    assert (E : Zpos (2 ^ 52) * 2 ^ (t + 1 + fixS) = 2 ^ 53 * 2 ^ (t + fixS)).
    { replace (t + 1 + fixS) with (1 + (t + fixS)) by lia.
      rewrite Z.pow_add_r by lia. change (Zpos (2 ^ 52)) with (2 ^ 52). 
      change (2 ^ 53) with (2 ^ 52 * 2 ^ 1). lia. }
    destruct (Z.leb_spec (t + 1) (emax - prec)) as [Hle|Hgt].
    + split; [reflexivity|]. split; [exact E|]. split; [lia | reflexivity].
    + split; [reflexivity|]. unfold emax, prec in Hgt.
      replace (2 ^ 53 * 2 ^ (t + fixS)) with (2 ^ (53 + (t + fixS)))
        by (rewrite Z.pow_add_r by lia; reflexivity).
      apply Z.pow_le_mono_r; lia.
  - assert (Hd : Zdigits2 q <= 53) by (apply Zdigits2_le; lia).
    assert (Hn : Z.max (Zdigits2 q + t - 53) (-1074) - t <= 0) by lia.
    assert (Hshr : shr (shr_record_of_loc q loc_Exact) t
                     (Z.max (Zdigits2 q + t - 53) (-1074) - t)
                   = ({| shr_m := q; shr_r := false; shr_s := false |}, t)).
    { destruct (Z.max (Zdigits2 q + t - 53) (-1074) - t); try lia; reflexivity. }
    rewrite Hshr. cbn [shr_m].
    destruct q as [|m'|m']; [auto | | lia].
    destruct (Z.leb_spec t (emax - prec)) as [Hle|Hgt].
    + split; [reflexivity|]. split; [reflexivity|]. split; lia.
    + split; [reflexivity|]. unfold emax, prec in Hgt.
      assert (2 ^ (972 + fixS) <= 2 ^ (t + fixS)) by (apply Z.pow_le_mono_r; lia).
      assert (0 < 2 ^ (t + fixS)) by (apply Z.pow_pos_nonneg; lia). nia.
Qed.

Lemma round64_fix (a c : Z) :
  0 < a -> 0 <= c -> ulpExp (a * 2 ^ c) <= c -> round64 (a * 2 ^ c) = a * 2 ^ c.
Proof.
  intros Ha Hc Hk. unfold round64.
  assert (Hk0 : 1074 <= ulpExp (a * 2 ^ c)) by (rewrite ulpExp_eq; lia).
  set (k := ulpExp (a * 2 ^ c)) in *.
  assert (E : a * 2 ^ c = (a * 2 ^ (c - k)) * 2 ^ k).
  { rewrite <- Z.mul_assoc, <- Z.pow_add_r by lia. do 2 f_equal. lia. }
  rewrite rneq_exact; [| lia | rewrite E; apply Z.mod_mul; apply Z.pow_nonzero; lia].
  rewrite E at 1. rewrite Z.div_mul by (apply Z.pow_nonzero; lia).
  now rewrite <- E.
Qed.

Lemma binary_round_aux_finish (s : bool) (m : positive) (e : Z) :
  - fixS <= e ->
  exists q t,
    binary_round_aux prec emax s (Zpos m) e loc_Exact = finish s q t
    /\ 0 <= q <= 2 ^ 53 /\ -1074 <= t
    /\ q * 2 ^ (t + fixS) = round64 (scaled m e).
Proof.
  intros He. unfold binary_round_aux, shr_fexp at 1. rewrite fexp_eq.
  assert (HS : 0 <= e + fixS) by lia.
  pose proof (Zdigits2_bounds (Zpos m) ltac:(lia)) as Hbnd.
  assert (Hdig : Zdigits2 (scaled m e) = Zdigits2 (Zpos m) + (e + fixS)).
  { unfold scaled. apply Zdigits2_scale; lia. }
  assert (Hulp : ulpExp (scaled m e)
                 = Z.max (Zdigits2 (Zpos m) + e - 53) (-1074) + fixS).
  { rewrite ulpExp_eq, Hdig. unfold fixS. lia. }
  set (d := Zdigits2 (Zpos m)) in *.
  destruct (Z.max (d + e - 53) (-1074) - e) as [|p|p] eqn:Hn;
    cbn [shr_record_of_loc shr].
  - exists (Zpos m), e. split; [reflexivity|].
    assert (d <= 53) by lia.
    assert (2 ^ d <= 2 ^ 53) by (apply Z.pow_le_mono_r; lia).
    split; [lia|]. split; [lia|].
    unfold scaled in *. symmetry. apply round64_fix; lia.
  - exists (rneq (Zpos m) (Zpos p)), (e + Zpos p).
    rewrite <- (shr_round (Zpos m) p) by lia. split; [reflexivity|].
    rewrite (shr_round (Zpos m) p) by lia.
    assert (Hq : 0 <= rneq (Z.pos m) (Z.pos p) <= 2 ^ 53).
    { split.
      - apply rneq_ge_multiple; lia.
      - apply rneq_le_multiple; [lia|].
        assert (2 ^ d <= 2 ^ 53 * 2 ^ Zpos p).
        { rewrite <- Z.pow_add_r by lia. apply Z.pow_le_mono_r; lia. }
        lia. }
    split; [exact Hq|]. split; [lia|].
    unfold round64. rewrite Hulp.
    replace (Z.max (d + e - 53) (-1074) + fixS) with (Zpos p + (e + fixS)) by lia.
    unfold scaled. rewrite rneq_scale by lia. f_equal. f_equal. lia.
  - exists (Zpos m), e. split; [reflexivity|].
    assert (d <= 53) by lia.
    assert (2 ^ d <= 2 ^ 53) by (apply Z.pow_le_mono_r; lia).
    split; [lia|]. split; [lia|].
    unfold scaled in *. symmetry. apply round64_fix; lia.
Qed.

Lemma binary_round_aux_scaled (s : bool) (m : positive) (e : Z) :
  - fixS <= e ->
  match binary_round_aux prec emax s (Zpos m) e loc_Exact with
  | S754_zero s' => s' = s /\ round64 (scaled m e) = 0
  | S754_finite s' m' e' =>
      s' = s /\ scaled m' e' = round64 (scaled m e) /\ -1074 <= e'
      /\ Zpos m' < 2 ^ 53
  | S754_infinity s' => s' = s /\ 2 ^ (972 + fixS) <= round64 (scaled m e)
  | S754_nan => False
  end.
Proof.
  intros He.
  destruct (binary_round_aux_finish s m e He) as (q & t & -> & Hq & Ht & <-).
  pose proof (finish_spec s q t Hq Ht) as Hf.
  destruct (finish s q t) as [s'|s'| |s' m' e'].
  - destruct Hf as [-> ->]. split; [reflexivity | lia].
  - exact Hf.
  - exact Hf.
  - destruct Hf as (-> & E & Hle & Hm). unfold scaled.
    split; [reflexivity|]. split; [exact E|]. split; [lia | exact Hm].
Qed.

Lemma iter_xO (d mx : positive) : Zpos (Pos.iter xO mx d) = Zpos mx * 2 ^ Zpos d.
Proof.
  induction d as [|d IH] using Pos.peano_ind.
  - cbn [Pos.iter]. rewrite Z.pow_1_r. lia.
  - rewrite Pos.iter_succ, Pos2Z.inj_xO, IH, Pos2Z.inj_succ, Z.pow_succ_r by lia. lia.
Qed.

Lemma shl_align_scaled (mx : positive) (ex ex' : Z) :
  - fixS <= ex -> - fixS <= ex' ->
  let '(mz, ez) := shl_align mx ex ex' in
  scaled mz ez = scaled mx ex /\ - fixS <= ez /\ (ex' <= ex -> ez = ex').
Proof.
  intros He He'. unfold shl_align.
  destruct (ex' - ex) as [|d|d] eqn:Hd.
  - repeat split; lia.
  - repeat split; lia.
  - split; [|split; lia]. unfold scaled. rewrite iter_xO.
    rewrite <- Z.mul_assoc, <- Z.pow_add_r by lia. do 2 f_equal. lia.
Qed.

Lemma of_int_fixed (z : Z) :
  0 < z ->
  match of_int z with
  | S754_finite s m e =>
      s = false /\ scaled m e = round64 (z * 2 ^ fixS) /\ -1074 <= e
  | S754_infinity _ => 2 ^ (972 + fixS) <= round64 (z * 2 ^ fixS)
  | S754_zero _ => round64 (z * 2 ^ fixS) = 0
  | S754_nan => False
  end.
Proof.
  intros Hz. destruct z as [|p|p]; try lia.
  unfold of_int, binary_normalize, binary_round.
  rewrite fexp_eq.
  pose proof (shl_align_scaled p 0 (Z.max (Z.pos (digits2_pos p) + 0 - 53) (-1074))
                ltac:(unfold fixS; lia) ltac:(unfold fixS; lia)) as Hal.
  destruct (shl_align p 0 (Z.max (Z.pos (digits2_pos p) + 0 - 53) (-1074)))
    as [mz ez].
  destruct Hal as (Hsc & Hez & _).
  pose proof (binary_round_aux_scaled false mz ez Hez) as Hr.
  replace (Zpos p * 2 ^ fixS) with (scaled mz ez)
    by (rewrite Hsc; unfold scaled; f_equal).
  destruct (binary_round_aux prec emax false (Z.pos mz) ez loc_Exact); intuition.
Qed.

Lemma of_int_exact (z : Z) :
  0 < z < 2 ^ 53 ->
  exists m e, of_int z = S754_finite false m e
              /\ scaled m e = z * 2 ^ fixS /\ -1074 <= e.
Proof.
  intros Hz. pose proof (of_int_fixed z ltac:(lia)) as H.
  rewrite round64_exact in H by (unfold fixS; lia).
  assert (Hpos : 0 < z * 2 ^ fixS) by (apply Z.mul_pos_pos; [lia | reflexivity]).
  assert (Hlt : z * 2 ^ fixS < 2 ^ (972 + fixS)).
  { rewrite Z.pow_add_r by (unfold fixS; lia).
    apply Z.mul_lt_mono_pos_r; [reflexivity|].
    assert (2 ^ 53 < 2 ^ 972) by (apply Z.pow_lt_mono_r; lia). lia. }
  destruct (of_int z) as [s|s| |s m e]; try lia; try tauto.
  destruct H as (-> & Hsc & He). now exists m, e.
Qed.

Lemma valid_exponent (s : bool) (m : positive) (e : Z) :
  valid_binary prec emax (S754_finite s m e) = true -> -1074 <= e.
Proof.
  cbn [valid_binary]. unfold bounded, canonical_mantissa.
  rewrite andb_true_iff, Z.eqb_eq, fexp_eq. lia.
Qed.

Lemma valid_expOK (f : float64) : valid_binary prec emax f = true -> expOK f.
Proof. destruct f; cbn [expOK]; auto. apply valid_exponent. Qed.

Lemma mul_fixed (z : Z) (r : float64) :
  0 < z < 2 ^ 53 -> isFinite r = true -> expOK r ->
  match mul (of_int z) r with
  | S754_zero s => s = signBit r /\ round64 (z * fixed r) = 0
  | S754_finite s m e =>
      s = signBit r /\ scaled m e = round64 (z * fixed r)
      /\ -1074 <= e /\ Zpos m < 2 ^ 53
  | S754_infinity s => 2 ^ (972 + fixS) <= round64 (z * fixed r)
  | S754_nan => False
  end.
Proof.
  intros Hz Hfin Hval.
  destruct (of_int_exact z Hz) as (mx & ex & -> & Hx & Hex).
  destruct r as [sy|sy| |sy my ey]; try discriminate.
  - cbn [mul SFmul xorb signBit fixed]. rewrite Z.mul_0_r. split; reflexivity.
  - pose proof Hval as Hey. cbn [expOK] in Hey.
    cbn [mul SFmul xorb signBit fixed].
    assert (He : - fixS <= ex + ey) by (unfold fixS; lia).
    pose proof (binary_round_aux_scaled sy (mx * my) (ex + ey) He) as Hr.
    assert (E : scaled (mx * my) (ex + ey) = z * scaled my ey).
    { apply (Z.mul_cancel_r _ _ (2 ^ fixS)); [discriminate|].
      unfold scaled in *. rewrite Pos2Z.inj_mul.
      replace (Z.pos mx * Z.pos my * 2 ^ (ex + ey + fixS) * 2 ^ fixS)
        with ((Z.pos mx * 2 ^ (ex + fixS)) * (Z.pos my * 2 ^ (ey + fixS))).
      - rewrite Hx. ring.
      - assert (Hp : 2 ^ (ex + ey + fixS) * 2 ^ fixS
                     = 2 ^ (ex + fixS) * 2 ^ (ey + fixS)).
        { rewrite <- !Z.pow_add_r by (unfold fixS; lia). f_equal. lia. }
        rewrite <- !Z.mul_assoc, Hp. ring. }
    rewrite E in Hr.
    destruct (binary_round_aux prec emax sy (Z.pos (mx * my)) (ex + ey) loc_Exact);
      intuition.
Qed.

Lemma trunc_mag_scaled (m : positive) (e : Z) :
  - fixS <= e -> trunc_mag m e = scaled m e / 2 ^ fixS.
Proof.
  intros He. unfold trunc_mag, scaled.
  destruct (Z.leb_spec 0 e) as [H0|H0].
  - rewrite Z.shiftl_mul_pow2 by lia.
    rewrite Z.pow_add_r, Z.mul_assoc by (unfold fixS; lia).
    now rewrite Z.div_mul by discriminate.
  - rewrite Z.shiftr_div_pow2 by lia.
    replace (2 ^ fixS) with (2 ^ (- e) * 2 ^ (e + fixS))
      by (rewrite <- Z.pow_add_r by lia; f_equal; lia).
    rewrite Z.div_mul_cancel_r; [reflexivity| |];
      apply Z.pow_nonzero; lia.
Qed.

(** A binary64 below 2^63 is at most 2^63 - 2 once truncated. *)
Lemma trunc_mag_room (m : positive) (e : Z) :
  Zpos m < 2 ^ 53 -> trunc_mag m e < 2 ^ 63 -> trunc_mag m e <= 2 ^ 63 - 2.
Proof.
  intros Hm Ht. unfold trunc_mag in *.
  destruct (Z.leb_spec 0 e) as [H0|H0].
  - rewrite Z.shiftl_mul_pow2 in * by lia.
    destruct (Z.eq_dec e 0) as [->|Hne]; [rewrite Z.pow_0_r in *; lia|].
    replace e with (Z.succ (e - 1)) in * by lia.
    rewrite Z.pow_succ_r in * by lia. lia.
  - rewrite Z.shiftr_div_pow2 in * by lia.
    assert (0 < 2 ^ (- e)) by (apply Z.pow_pos_nonneg; lia).
    assert (Z.pos m / 2 ^ (- e) <= Z.pos m) by (apply Z.div_le_upper_bound; nia).
    lia.
Qed.

Lemma vsizeOf_exact (n m : Z) :
  0 <= n -> 0 <= m -> vsizeExact n m < 2 ^ 53 -> vsizeOf n m = vsizeExact n m.
Proof.
  unfold vsizeExact, vsizeOf, wrapInt. intros Hn Hm Hv.
  rewrite !wrap64_id; unfold in_int64, min_int64, max_int64;
    rewrite ?wrap64_id; unfold in_int64, min_int64, max_int64;
    rewrite ?wrap64_id; unfold in_int64, min_int64, max_int64; lia.
Qed.

Lemma fixed_nonneg (r : float64) : 0 <= fixed r.
Proof.
  destruct r; cbn [fixed]; try lia. unfold scaled.
  apply Z.mul_nonneg_nonneg; [lia | apply Z.pow_nonneg; lia].
Qed.

Lemma round64_nonneg (v : Z) : 0 <= v -> 0 <= round64 v.
Proof. intros Hv. rewrite <- round64_0. apply round64_mono. lia. Qed.

Lemma EstimateFee_fixed (n m : Z) (r : float64) :
  0 <= n -> 0 <= m -> vsizeExact n m < 2 ^ 53 ->
  isFinite r = true -> expOK r -> feeInRange n m r ->
  EstimateFee n m r
  = signOf r * (round64 (vsizeExact n m * fixed r) / 2 ^ fixS) + 1
  /\ 0 <= round64 (vsizeExact n m * fixed r) / 2 ^ fixS <= 2 ^ 63 - 2.
Proof.
  intros Hn Hm Hv Hfin Hexp Hrange. unfold EstimateFee, feeInRange in *.
  rewrite vsizeOf_exact by assumption.
  assert (Hz : 0 < vsizeExact n m < 2 ^ 53) by (unfold vsizeExact in *; lia).
  pose proof (mul_fixed _ r Hz Hfin Hexp) as Hmul.
  set (x := round64 (vsizeExact n m * fixed r)) in *.
  assert (Hx : 0 <= x).
  { apply round64_nonneg, Z.mul_nonneg_nonneg; [lia | apply fixed_nonneg]. }
  assert (Ht : 0 <= x / 2 ^ fixS < 2 ^ 63).
  { split; [apply Z.div_pos; [exact Hx | reflexivity]|].
    apply Z.div_lt_upper_bound; [reflexivity | lia]. }
  destruct (mul (of_int (vsizeExact n m)) r) as [s|s| |s m' e'].
  - destruct Hmul as [_ E]. rewrite E. cbn [to_int64].
    change (0 / 2 ^ fixS) with 0. rewrite Z.mul_0_r. split; [reflexivity | lia].
  - exfalso. rewrite (Z.pow_add_r 2 972 fixS) in Hmul by (unfold fixS; lia).
    assert (2 ^ 63 * 2 ^ fixS < 2 ^ 972 * 2 ^ fixS)
      by (apply Z.mul_lt_mono_pos_r; [reflexivity | apply Z.pow_lt_mono_r; lia]).
    lia.
  - contradiction.
  - destruct Hmul as (Hs & Hsc & He & Hm').
    assert (Htr : trunc_mag m' e' = x / 2 ^ fixS).
    { rewrite trunc_mag_scaled by (unfold fixS; lia). now rewrite Hsc. }
    pose proof (trunc_mag_room m' e' Hm') as Hroom. rewrite Htr in Hroom.
    specialize (Hroom ltac:(lia)). split; [|lia].
    cbn [to_int64]. rewrite Htr. unfold signOf. rewrite <- Hs.
    set (t := x / 2 ^ fixS) in *.
    assert (Hin : ((min_int64 <=? (if s then - t else t))
                   && ((if s then - t else t) <=? max_int64))%bool = true).
    { unfold min_int64, max_int64. destruct s; apply andb_true_iff; split;
        apply Z.leb_le; lia. }
    rewrite Hin. rewrite wrap64_id;
      [destruct s; lia | unfold in_int64, min_int64, max_int64; destruct s; lia].
Qed.

Lemma EstimateFee_mono (n n' m m' : Z) (r r' : float64) :
  0 <= n <= n' -> 0 <= m <= m' -> vsizeExact n' m' < 2 ^ 53 ->
  isFinite r = true -> expOK r -> isFinite r' = true -> expOK r' ->
  (fixed r = 0 \/ signBit r = false) -> (fixed r' = 0 \/ signBit r' = false) ->
  fixed r <= fixed r' ->
  feeInRange n' m' r' ->
  EstimateFee n m r <= EstimateFee n' m' r'.
Proof.
  intros Hn Hm Hv Hf He Hf' He' Hs Hs' Hle Hrange.
  assert (Hvv : 0 < vsizeExact n m <= vsizeExact n' m') by (unfold vsizeExact; lia).
  pose proof (fixed_nonneg r) as H0.
  assert (Hprod : 0 <= vsizeExact n m * fixed r <= vsizeExact n' m' * fixed r').
  { split; [apply Z.mul_nonneg_nonneg; lia|]. apply Z.mul_le_mono_nonneg; lia. }
  pose proof (round64_mono _ _ Hprod) as Hr.
  assert (Hrange0 : feeInRange n m r) by (unfold feeInRange in *; lia).
  destruct (EstimateFee_fixed n m r) as [E1 B1]; try assumption; try lia.
  destruct (EstimateFee_fixed n' m' r') as [E2 B2]; try assumption; try lia.
  assert (Hd : round64 (vsizeExact n m * fixed r) / 2 ^ fixS
               <= round64 (vsizeExact n' m' * fixed r') / 2 ^ fixS)
    by (apply Z.div_le_mono; [reflexivity | exact Hr]).
  assert (S1 : signOf r * (round64 (vsizeExact n m * fixed r) / 2 ^ fixS)
               = round64 (vsizeExact n m * fixed r) / 2 ^ fixS).
  { destruct Hs as [Z0|Z0]; [rewrite Z0, Z.mul_0_r, round64_0; cbn; lia|].
    unfold signOf. rewrite Z0. lia. }
  assert (S2 : signOf r' * (round64 (vsizeExact n' m' * fixed r') / 2 ^ fixS)
               = round64 (vsizeExact n' m' * fixed r') / 2 ^ fixS).
  { destruct Hs' as [Z0|Z0]; [rewrite Z0, Z.mul_0_r, round64_0; cbn; lia|].
    unfold signOf. rewrite Z0. lia. }
  lia.
Qed.

Lemma canonical_digits (m : positive) (e : Z) :
  canonical_mantissa prec emax m e = true ->
  Zpos m < 2 ^ 53 /\ -1074 <= e /\ (-1074 < e -> 2 ^ 52 <= Zpos m).
Proof.
  unfold canonical_mantissa. rewrite Z.eqb_eq, fexp_eq. intros Hc.
  pose proof (Zdigits2_bounds (Zpos m) ltac:(lia)) as Hb.
  change (Zdigits2 (Zpos m)) with (Zpos (digits2_pos m)) in Hb.
  set (d := Zpos (digits2_pos m)) in *.
  split; [|split; [lia|]].
  - assert (2 ^ d <= 2 ^ 53) by (apply Z.pow_le_mono_r; lia). lia.
  - intros He. assert (d = 53) by lia.
    replace (d - 1) with 52 in Hb by lia. lia.
Qed.

(** On non-negative finite binary64 values the IEEE order is the order of
    the exact values. *)
Lemma SFleb_fixed (r r' : float64) :
  valid_binary prec emax r = true -> valid_binary prec emax r' = true ->
  nonnegFinite r = true -> nonnegFinite r' = true ->
  SFleb r r' = true -> fixed r <= fixed r'.
Proof.
  intros Hv Hv' Hn Hn' Hle.
  destruct r as [s|s| |s m e]; try discriminate Hn;
  destruct r' as [s'|s'| |s' m' e']; try discriminate Hn'; cbn [fixed].
  - lia.
  - apply (fixed_nonneg (S754_finite s' m' e')).
  - cbn in Hn. destruct s; discriminate.
  - cbn in Hn, Hn'. destruct s, s'; try discriminate.
    cbn [valid_binary] in Hv, Hv'. unfold bounded in Hv, Hv'.
    apply andb_true_iff in Hv as [Hc _]. apply andb_true_iff in Hv' as [Hc' _].
    destruct (canonical_digits _ _ Hc) as (Hm & He & _).
    destruct (canonical_digits _ _ Hc') as (Hm' & He' & Hnorm').
    unfold SFleb, SFcompare in Hle. unfold scaled.
    destruct (Z.compare_spec e e') as [E|E|E].
    + subst e'. apply Z.mul_le_mono_nonneg_r; [apply Z.pow_nonneg; lia|].
      change (Pos.compare_cont Eq m m') with (Pos.compare m m') in Hle.
      destruct (Pos.compare_spec m m'); try discriminate; lia.
    + specialize (Hnorm' ltac:(lia)).
      assert (H1 : Zpos m * 2 ^ (e + fixS) <= 2 ^ 53 * 2 ^ (e + fixS)).
      { apply Z.mul_le_mono_nonneg_r; [apply Z.pow_nonneg; unfold fixS; lia | lia]. }
      assert (H2 : 2 ^ 52 * 2 ^ (e' + fixS) <= Zpos m' * 2 ^ (e' + fixS)).
      { apply Z.mul_le_mono_nonneg_r; [apply Z.pow_nonneg; unfold fixS; lia | lia]. }
      assert (H3 : 2 ^ 53 * 2 ^ (e + fixS) <= 2 ^ 52 * 2 ^ (e' + fixS)).
      { rewrite <- !Z.pow_add_r by (unfold fixS; lia).
        apply Z.pow_le_mono_r; lia. }
      lia.
    + discriminate.
Qed.

Lemma of_int_nonneg_fixed (k : Z) :
  0 <= k < 2 ^ 53 ->
  isFinite (of_int k) = true /\ expOK (of_int k)
  /\ signBit (of_int k) = false /\ fixed (of_int k) = k * 2 ^ fixS.
Proof.
  intros Hk. destruct (Z.eq_dec k 0) as [->|Hne].
  - repeat split.
  - destruct (of_int_exact k ltac:(lia)) as (m & e & -> & Hsc & He).
    repeat split; assumption.
Qed.

(** The fee is at least 1 for every non-negative finite rate in range: the
    rates for which the run without UTXOs ends in "no change to send". *)
Lemma EstimateFee_positive (n m : Z) (r : float64) :
  0 <= n -> 0 <= m -> vsizeExact n m < 2 ^ 53 ->
  nonnegFinite r = true -> valid_binary prec emax r = true ->
  feeInRange n m r -> 1 <= EstimateFee n m r.
Proof.
  intros Hn Hm Hv Hnn Hval Hr.
  assert (Hfin : isFinite r = true) by (destruct r; auto).
  destruct (EstimateFee_fixed n m r Hn Hm Hv Hfin (valid_expOK r Hval) Hr) as [E B].
  rewrite E. unfold signOf.
  destruct r as [s|s| |s mr er]; try discriminate.
  - cbn [fixed]. rewrite Z.mul_0_r, round64_0. cbn. destruct s; lia.
  - cbn in Hnn. destruct s; [discriminate|]. cbn [signBit]. lia.
Qed.

(** ** Fee estimation: the claims *)

(** C7. For counts n, m >= 0 whose virtual size 10 + 68 n + 31 m stays below
    2^53 and a finite binary64 rate r, the product being below 2^63 in
    magnitude: the virtual size is computed exactly, and [EstimateFee] is
    that size multiplied by r, rounded (to the nearest binary64 by the
    multiplication, then toward zero by the conversion to [int64]), plus 1.
    For an integer rate k with an exactly representable product the fee is
    (10 + 68 n + 31 m) * k + 1. *)
Theorem EstimateFee_formula (n m : Z) (r : float64) :
  0 <= n -> 0 <= m -> vsizeExact n m < 2 ^ 53 ->
  isFinite r = true -> valid_binary prec emax r = true ->
  feeInRange n m r ->
  vsizeOf n m = 10 + 68 * n + 31 * m
  /\ EstimateFee n m r
     = signOf r * (round64 ((10 + 68 * n + 31 * m) * fixed r) / 2 ^ fixS) + 1
  /\ (forall k, 0 <= k -> (10 + 68 * n + 31 * m) * k < 2 ^ 53 ->
        EstimateFee n m (of_int k) = (10 + 68 * n + 31 * m) * k + 1).
Proof.
  intros Hn Hm Hv Hfin Hval Hr.
  split; [now apply vsizeOf_exact|].
  split; [exact (proj1 (EstimateFee_fixed n m r Hn Hm Hv Hfin (valid_expOK r Hval) Hr))|].
  intros k Hk Hprod. fold (vsizeExact n m) in *.
  assert (Hvs : 10 <= vsizeExact n m) by (unfold vsizeExact; lia).
  destruct (of_int_nonneg_fixed k ltac:(nia)) as (Hf & He & Hs & Hfx).
  assert (Hround : round64 (vsizeExact n m * fixed (of_int k))
                   = vsizeExact n m * k * 2 ^ fixS).
  { rewrite Hfx, Z.mul_assoc. destruct (Z.eq_dec k 0) as [->|Hne].
    - rewrite Z.mul_0_r. reflexivity.
    - apply round64_exact; [nia | unfold fixS; lia]. }
  assert (Hrange : feeInRange n m (of_int k)).
  { unfold feeInRange. rewrite Hround.
    apply Z.mul_lt_mono_pos_r; [reflexivity|]. lia. }
  destruct (EstimateFee_fixed n m (of_int k) Hn Hm Hv Hf He Hrange) as [E _].
  rewrite E, Hround. unfold signOf. rewrite Hs.
  rewrite Z.div_mul by discriminate. lia.
Qed.

Lemma EstimateFee_formula_witness :
  EstimateFee 1 2 Sample.rate = 300
  /\ EstimateFee 1 2 Sample.rate
     = signOf Sample.rate
       * (round64 ((10 + 68 * 1 + 31 * 2) * fixed Sample.rate) / 2 ^ fixS) + 1.
Proof.
  split; [reflexivity|].
  refine (proj1 (proj2 (EstimateFee_formula 1 2 Sample.rate _ _ _ _ _ _)));
    try lia; try reflexivity.
Defined.

(** C8. [EstimateFee] is monotone in each argument: for non-negative counts
    and non-negative finite rates, raising the number of inputs, the number
    of outputs or the rate (in the IEEE order) never lowers the fee, as long
    as the larger virtual size stays below 2^53 and the larger product below
    2^63. *)
Theorem EstimateFee_monotone (n n' m m' : Z) (r r' : float64) :
  0 <= n <= n' -> 0 <= m <= m' -> vsizeExact n' m' < 2 ^ 53 ->
  valid_binary prec emax r = true -> valid_binary prec emax r' = true ->
  nonnegFinite r = true -> nonnegFinite r' = true ->
  SFleb r r' = true ->
  feeInRange n' m' r' ->
  EstimateFee n m r <= EstimateFee n' m' r'.
Proof.
  intros Hn Hm Hv Hval Hval' Hnn Hnn' Hle Hr.
  assert (Hsign : forall f, nonnegFinite f = true ->
            isFinite f = true /\ (fixed f = 0 \/ signBit f = false)).
  { intros [s|s| |s mf ef] H; try discriminate; split; auto.
    cbn in H. destruct s; [discriminate | now right]. }
  destruct (Hsign r Hnn) as [Hf Hs]. destruct (Hsign r' Hnn') as [Hf' Hs'].
  apply EstimateFee_mono; auto using valid_expOK.
  now apply SFleb_fixed.
Qed.

Lemma EstimateFee_monotone_witness :
  EstimateFee 1 2 Sample.unitRate <= EstimateFee 3 2 Sample.rate.
Proof.
  apply EstimateFee_monotone; try lia; try reflexivity.
Defined.

(** ** The end-to-end scenario of the specification *)

(** One witness-type UTXO of 10,000 units, a payment of 1,200 and a fee of
    300: the outputs are (1200, payee) and (8500, change), and the single
    input is signed with a two-element witness. *)
Example scenario_one_utxo :
  let W := Sample.world Sample.oneUTXO (Some Sample.rate) in
  exists t tx ti sig key raw,
    assemble (sorter := goInsertionSort) W Sample.wallet Sample.payee 1200
    = ([EvGetUTXOs (address Sample.wallet); EvGetFeeRate],
       Ok (tx, Sample.oneUTXO, 10000, 300))
    /\ map outValue (txOut tx) = [1200; 8500]
    /\ signTransaction W tx (privateKey Sample.wallet) Sample.oneUTXO
       = ([EvSigHash 0; EvSign 0], Ok (setTxIn tx [ti]))
    /\ SignatureScript ti = [] /\ Witness ti = [sig; key]
    /\ CreateTransaction (sorter := goInsertionSort) W Sample.wallet
         Sample.payee 1200
       = (t, Ok raw).
Proof.
  intros W. do 6 eexists.
  split; [vm_compute; reflexivity|]. split; [reflexivity|].
  split; [vm_compute; reflexivity|]. split; [reflexivity|].
  split; [reflexivity|]. vm_compute. reflexivity.
Qed.

(** * Further properties of helper.go and main.go *)

(** ** Script types and the previous-output fetcher *)

Lemma bytes_eqb_eq (a b : bytes) : bytes_eqb a b = true <-> a = b.
Proof.
  revert b. induction a as [|x a IH]; intros [|y b]; cbn; split; try discriminate; auto.
  - rewrite andb_true_iff, IH. intros [Hx ->]. now rewrite (byte_dec_bl _ _ Hx).
  - intros E. injection E as -> ->. rewrite andb_true_iff, IH.
    split; [now apply byte_dec_lb | reflexivity].
Qed.

Lemma OutPoint_eqb_eq (a b : OutPoint) : OutPoint_eqb a b = true <-> a = b.
Proof.
  unfold OutPoint_eqb. rewrite andb_true_iff, bytes_eqb_eq, Z.eqb_eq.
  destruct a, b; cbn. split; [intros [-> ->]; reflexivity | intros E; now injection E].
Qed.

(** X1. [IsSegwitScript] accepts exactly the two native witness programs of
    version 0: the byte 0x00, a push of 20 bytes (0x14) and 20 bytes of
    program, 22 bytes in all (P2WPKH); or 0x00, a push of 32 bytes (0x20) and
    32 bytes of program, 34 bytes in all (P2WSH).  Every other script,
    whatever its length, is treated as legacy. *)
Theorem IsSegwitScript_shape (script : bytes) :
  IsSegwitScript script = true <->
  exists program,
    (script = x00 :: x14 :: program /\ length program = 20%nat)
    \/ (script = x00 :: x20 :: program /\ length program = 32%nat).
Proof.
  unfold IsSegwitScript, byteAt. split.
  - destruct script as [|b0 [|b1 program]]; try (cbn; discriminate).
    cbn [nth length].
    destruct (Nat.eqb_spec (S (S (length program))) 22) as [H22|H22];
    destruct (Nat.eqb_spec (S (S (length program))) 34) as [H34|H34];
    destruct (Byte.eqb b0 x00) eqn:E0;
    destruct (Byte.eqb b1 x14) eqn:E1;
    destruct (Byte.eqb b1 x20) eqn:E2;
    cbn; intros H; try discriminate H; try lia;
    apply byte_dec_bl in E0; subst b0; exists program.
    all: first [ apply byte_dec_bl in E1; subst b1; left; split; [reflexivity | lia]
               | apply byte_dec_bl in E2; subst b1; right; split; [reflexivity | lia] ].
  - intros [program [[-> Hl]|[-> Hl]]]; cbn [length nth]; rewrite Hl; reflexivity.
Qed.

(** X2. [FetchPrevOutput] answers nil exactly when no UTXO of the fetcher has
    the outpoint asked for; otherwise it answers with the value and the
    locking script of the first UTXO of the list that has it, later UTXOs
    with the same outpoint being ignored. *)
Theorem FetchPrevOutput_first (utxos : list UTXO) (op : OutPoint) :
  (FetchPrevOutput utxos op = None <->
   forall u, In u utxos -> utxoOutPoint u <> op)
  /\ (forall o, FetchPrevOutput utxos op = Some o <->
        exists before u after,
          utxos = before ++ u :: after
          /\ utxoOutPoint u = op
          /\ (forall v, In v before -> utxoOutPoint v <> op)
          /\ o = prevOutOf u).
Proof.
  induction utxos as [|u utxos [IHn IHs]]; cbn [FetchPrevOutput].
  - split; [split; [intros _ u [] | reflexivity]|].
    intros o. split; [discriminate|].
    intros (before & u & after & E & _). destruct before; discriminate.
  - destruct (OutPoint_eqb (utxoOutPoint u) op) eqn:Eq.
    + apply OutPoint_eqb_eq in Eq. split.
      * split; [discriminate|]. intros Hall. exfalso.
        exact (Hall u (or_introl eq_refl) Eq).
      * intros o. split.
        -- intros E. injection E as <-. exists [], u, utxos.
           repeat split; auto.
        -- intros (before & u' & after & E & Hop & Hbefore & ->).
           destruct before as [|b before].
           ++ injection E as -> _. reflexivity.
           ++ injection E as -> _. exfalso.
              exact (Hbefore b (or_introl eq_refl) Eq).
    + assert (Hne : utxoOutPoint u <> op).
      { intros E. apply OutPoint_eqb_eq in E. congruence. }
      split.
      * rewrite IHn. split.
        -- intros Hall v [<-|Hv]; auto.
        -- intros Hall v Hv. apply Hall. now right.
      * intros o. rewrite IHs. split.
        -- intros (before & u' & after & -> & Hop & Hbefore & ->).
           exists (u :: before), u', after. repeat split; auto.
           intros v [<-|Hv]; auto.
        -- intros (before & u' & after & E & Hop & Hbefore & ->).
           destruct before as [|b before].
           ++ injection E as -> _. contradiction.
           ++ injection E as -> ->. exists before, u', after.
              repeat split; auto. intros v Hv. apply Hbefore. now right.
Qed.

Lemma FetchPrevOutput_nth (utxos : list UTXO) :
  NoDup (map utxoOutPoint utxos) ->
  forall i u, nth_error utxos i = Some u ->
    FetchPrevOutput utxos (utxoOutPoint u) = Some (prevOutOf u).
Proof.
  induction utxos as [|u0 utxos IH]; intros Hnd [|i] u Hi; try discriminate.
  - injection Hi as ->. cbn [FetchPrevOutput].
    now rewrite (proj2 (OutPoint_eqb_eq _ _) eq_refl).
  - cbn in Hi. inversion Hnd as [|? ? Hnotin Hnd']; subst.
    cbn [FetchPrevOutput].
    destruct (OutPoint_eqb (utxoOutPoint u0) (utxoOutPoint u)) eqn:Eq.
    + apply OutPoint_eqb_eq in Eq. exfalso. apply Hnotin. rewrite Eq.
      apply in_map. eapply nth_error_In; eassumption.
    + now apply IH with (i := i).
Qed.

Lemma FetchPrevOutput_found (utxos : list UTXO) (u : UTXO) :
  In u utxos -> FetchPrevOutput utxos (utxoOutPoint u) <> None.
Proof.
  induction utxos as [|u0 utxos IH]; intros Hin; [destruct Hin|].
  cbn [FetchPrevOutput].
  destruct (OutPoint_eqb (utxoOutPoint u0) (utxoOutPoint u)) eqn:Eq; [discriminate|].
  destruct Hin as [->|Hin]; [|now apply IH].
  now rewrite (proj2 (OutPoint_eqb_eq _ _) eq_refl) in Eq.
Qed.

Lemma NoDup_firstn {A} (k : nat) (l : list A) : NoDup l -> NoDup (firstn k l).
Proof.
  intros Hnd. rewrite <- (firstn_skipn k l) in Hnd.
  now apply NoDup_app_remove_r in Hnd.
Qed.

Lemma Select_NoDup `{SliceSorter} (utxos : list UTXO) (amount : Z) :
  NoDup (map utxoOutPoint utxos) ->
  NoDup (map utxoOutPoint (fst (Select utxos amount))).
Proof.
  intros Hnd. pose proof (Select_prefix utxos amount) as Hs. cbv zeta in Hs.
  rewrite Hs. cbn [fst]. rewrite <- firstn_map.
  apply NoDup_firstn.
  eapply Permutation_NoDup; [|exact Hnd].
  apply Permutation_map, sort_Slice_perm.
Qed.

(** X3. For the transaction [CreateTransaction] hands to the signer, the
    fetcher built from the selected UTXOs knows the previous output of every
    input; and when the provider's UTXOs have pairwise distinct outpoints,
    the lookup by outpoint returns for input [i] the value and the script of
    the UTXO at position [i], the one the signer reads by position. *)
Theorem fetcher_agrees_with_position `{SliceSorter} (W : World) (w : Wallet)
    (recv : string) (amount : Z) (t : list event) (tx : MsgTx)
    (sel : list UTXO) (total fee : Z) :
  assemble W w recv amount = (t, Ok (tx, sel, total, fee)) ->
  (forall i ti, nth_error (txIn tx) i = Some ti ->
     FetchPrevOutput sel (PreviousOutPoint ti) <> None)
  /\ (forall utxos, GetUTXOs W (address w) = Some utxos ->
        NoDup (map utxoOutPoint utxos) ->
        forall i ti u,
          nth_error (txIn tx) i = Some ti -> nth_error sel i = Some u ->
          FetchPrevOutput sel (PreviousOutPoint ti) = Some (prevOutOf u)).
Proof.
  intros Ha. pose proof (assemble_inputs _ _ _ _ _ _ _ _ _ Ha) as Hin.
  split.
  - intros i ti Hi. rewrite Hin in Hi.
    destruct (freshInputs_nth _ _ _ Hi) as (u & Hu & ->). cbn.
    apply FetchPrevOutput_found. eapply nth_error_In; eassumption.
  - intros utxos Hget Hnd i ti u Hi Hu. rewrite Hin in Hi.
    destruct (freshInputs_nth _ _ _ Hi) as (u' & Hu' & ->).
    rewrite Hu in Hu'. injection Hu' as <-. cbn.
    apply FetchPrevOutput_nth with (i := i); [|exact Hu].
    apply assemble_ok in Ha as (tx0 & self & cs & Hf & _).
    apply fund_ok in Hf as (p & ps & utxos' & rate & _ & _ & Hget' & _ & Hsel & _).
    rewrite Hget in Hget'. injection Hget' as <-.
    pose proof (Select_NoDup utxos amount Hnd) as Hs. now rewrite Hsel in Hs.
Qed.

Lemma fetcher_agrees_with_position_witness :
  let W := Sample.world Sample.mixed (Some Sample.unitRate) in
  exists t tx sel total fee,
    assemble W Sample.wallet Sample.payee 10000 = (t, Ok (tx, sel, total, fee))
    /\ forall i ti, nth_error (txIn tx) i = Some ti ->
         FetchPrevOutput sel (PreviousOutPoint ti) <> None.
Proof.
  intros W.
  destruct (assemble W Sample.wallet Sample.payee 10000)
    as [t [[[[tx sel] total] fee]|e|]] eqn:Ha; try (vm_compute in Ha; discriminate).
  exists t, tx, sel, total, fee. split; [reflexivity|].
  exact (proj1 (fetcher_agrees_with_position W _ _ _ _ _ _ _ _ Ha)).
Defined.

(** ** The balance *)

Lemma GetBalance_run (W : World) (a : string) :
  GetBalance W a =
  match GetUTXOs W a with
  | Some utxos => ([EvGetUTXOs a], Ok (runningTotal 0 utxos))
  | None => ([EvGetUTXOs a], Err ErrGetUTXOs)
  end.
Proof. unfold GetBalance. destruct (GetUTXOs W a); reflexivity. Qed.

(** X4. When the provider answers, [GetBalance] makes that one request and
    returns the sum of the values of all UTXOs, reduced to 64 bits; the sum is
    exact when the values are non-negative and their total fits an int64; and
    the balance does not depend on the order in which the provider lists the
    UTXOs. *)
Theorem GetBalance_total (W : World) (a : string) (utxos : list UTXO) :
  GetUTXOs W a = Some utxos ->
  GetBalance W a = ([EvGetUTXOs a], Ok (wrap64 (sum_values utxos)))
  /\ (ledgerValues utxos ->
      GetBalance W a = ([EvGetUTXOs a], Ok (sum_values utxos)))
  /\ (forall W' utxos',
        GetUTXOs W' a = Some utxos' -> Permutation utxos utxos' ->
        GetBalance W' a = GetBalance W a).
Proof.
  intros Hget. rewrite GetBalance_run, Hget.
  assert (Hw : forall l, runningTotal 0 l = wrap64 (sum_values l)).
  { intros l. rewrite runningTotal_wrap; [reflexivity|].
    unfold in_int64, min_int64, max_int64. lia. }
  rewrite Hw. split; [reflexivity|]. split.
  - intros [Hpos Hmax]. pose proof (sum_values_nonneg _ Hpos).
    rewrite wrap64_id; [reflexivity|]. unfold in_int64, min_int64, max_int64 in *. lia.
  - intros W' utxos' Hget' Hp. rewrite GetBalance_run, Hget', Hw.
    now rewrite (sum_values_perm _ _ Hp).
Qed.

Lemma GetBalance_total_witness :
  GetBalance (Sample.world Sample.mixed None) "tb1qsender"
  = ([EvGetUTXOs "tb1qsender"], Ok (wrap64 (sum_values Sample.mixed))).
Proof.
  exact (proj1 (GetBalance_total (Sample.world Sample.mixed None) "tb1qsender"
                  Sample.mixed eq_refl)).
Defined.

(** ** Insufficient balance *)

Lemma nonnegFinite_finite (r : float64) :
  nonnegFinite r = true ->
  isFinite r = true /\ (fixed r = 0 \/ signBit r = false).
Proof.
  destruct r as [s|s| |s m e]; cbn; try discriminate; intros Hs.
  - auto.
  - split; [reflexivity|right]. now destruct s.
Qed.

Lemma feeInRange_mono (n n' m : Z) (r : float64) :
  0 <= n <= n' -> 0 <= m -> feeInRange n' m r -> feeInRange n m r.
Proof.
  unfold feeInRange, vsizeExact. intros Hn Hm Hr.
  eapply Z.le_lt_trans; [|exact Hr]. apply round64_mono.
  pose proof (fixed_nonneg r). split; [apply Z.mul_nonneg_nonneg; lia|].
  apply Z.mul_le_mono_nonneg_r; lia.
Qed.

Lemma EstimateFee_inputs_mono (n n' : Z) (r : float64) :
  0 <= n <= n' -> vsizeExact n' 2 < 2 ^ 53 ->
  nonnegFinite r = true -> valid_binary prec emax r = true ->
  feeInRange n' 2 r ->
  EstimateFee n 2 r <= EstimateFee n' 2 r.
Proof.
  intros Hn Hv Hr Hval Hf.
  destruct (nonnegFinite_finite r Hr) as [Hfin Hsg].
  pose proof (valid_expOK r Hval) as He.
  apply EstimateFee_mono; auto; lia.
Qed.

Lemma Select_within `{SliceSorter} (utxos : list UTXO) (amount : Z) :
  ledgerValues utxos ->
  let sel := fst (Select utxos amount) in
  snd (Select utxos amount) = sum_values sel
  /\ 0 <= sum_values sel <= sum_values utxos
  /\ (length sel <= length utxos)%nat.
Proof.
  intros Hl sel. destruct (Select_covers utxos amount Hl) as [Hs _].
  split; [exact Hs|]. subst sel.
  pose proof (Select_prefix utxos amount) as Hp. cbv zeta in Hp. rewrite Hp. cbn [fst].
  pose proof (sort_Slice_perm UTXO byValueDesc utxos) as Hperm.
  pose proof (ledgerValues_perm _ _ Hperm Hl) as Hls.
  destruct (prefix_total_exact (taken (sort_Slice byValueDesc utxos) amount 0) _ Hls)
    as [_ Hb].
  rewrite <- (sum_values_perm _ _ Hperm) in Hb. split; [exact Hb|].
  rewrite length_firstn, (Permutation_length Hperm). apply Nat.le_min_r.
Qed.

(** X5. A wallet whose balance, as [GetBalance] reports it, does not exceed
    the amount plus the fee of a transaction without inputs cannot pay: with
    a valid payee address and a non-negative fee rate, [CreateTransaction]
    makes its two requests and fails with "no change to send", signing
    nothing.  Values are in the ledger's domain, the fee in range. *)
Theorem insufficient_balance `{SliceSorter} (W : World) (w : Wallet)
    (recv : string) (amount : Z) (addr script : bytes) (utxos : list UTXO)
    (rate : float64) (balance : Z) :
  DecodeAddress W recv = Some addr ->
  PayToAddrScript W addr = Some script ->
  GetUTXOs W (address w) = Some utxos ->
  GetFeeRate W = Some rate ->
  ledgerValues utxos ->
  nonnegFinite rate = true -> valid_binary prec emax rate = true ->
  vsizeExact (Z.of_nat (length utxos)) 2 < 2 ^ 53 ->
  feeInRange (Z.of_nat (length utxos)) 2 rate ->
  amount + EstimateFee (Z.of_nat (length utxos)) 2 rate <= max_int64 ->
  snd (GetBalance W (address w)) = Ok balance ->
  balance <= amount + EstimateFee 0 2 rate ->
  CreateTransaction W w recv amount
  = ([EvGetUTXOs (address w); EvGetFeeRate], Err ErrNoChange).
Proof.
  intros Hdec Hpay Hget Hrate Hl Hr Hval Hv Hf Hmax Hbal Hle.
  rewrite GetBalance_run, Hget in Hbal. cbn [snd] in Hbal.
  injection Hbal as <-.
  assert (Hsum : runningTotal 0 utxos = sum_values utxos).
  { destruct (prefix_total_exact (length utxos) utxos Hl) as [E _].
    now rewrite firstn_all in E. }
  rewrite Hsum in Hle. clear Hsum.
  destruct (Select utxos amount) as [sel total] eqn:Hsel.
  destruct (Select_within utxos amount Hl) as (Htot & Hrange & Hlen).
  rewrite Hsel in Htot, Hrange, Hlen. cbn [fst snd] in Htot, Hrange, Hlen.
  set (k := Z.of_nat (length sel)).
  set (N := Z.of_nat (length utxos)) in *.
  assert (Hk : 0 <= k <= N) by (unfold k, N; lia).
  assert (Hfk : feeInRange k 2 rate) by (apply feeInRange_mono with (n' := N); auto; lia).
  assert (Hvk : vsizeExact k 2 < 2 ^ 53) by (unfold vsizeExact in *; lia).
  pose proof (EstimateFee_inputs_mono 0 k rate ltac:(lia) Hvk Hr Hval Hfk) as H0k.
  pose proof (EstimateFee_inputs_mono k N rate Hk Hv Hr Hval Hf) as HkN.
  apply CreateTransaction_no_change, assemble_no_change.
  exists (fold_left addInput sel
            (AddTxOut (NewMsgTx TxVersion) (NewTxOut amount script))),
         sel, total, (EstimateFee k 2 rate).
  split.
  - apply fund_ok. exists addr, script, utxos, rate. repeat split; auto.
  - rewrite changeOf_exact; [lia|].
    unfold in_int64, min_int64, max_int64 in *. lia.
Qed.

Lemma insufficient_balance_witness :
  CreateTransaction (Sample.world Sample.oneUTXO (Some Sample.rate))
    Sample.wallet Sample.payee 9900
  = ([EvGetUTXOs (address Sample.wallet); EvGetFeeRate], Err ErrNoChange).
Proof.
  apply (insufficient_balance _ _ _ _ (list_byte_of_string Sample.payee)
           (x00 :: x14 :: list_byte_of_string Sample.payee)
           Sample.oneUTXO Sample.rate 10000); try reflexivity.
  - split; [repeat constructor; cbn; lia | vm_compute; discriminate].
  - vm_compute. discriminate.
  - vm_compute. discriminate.
Defined.

(** ** Fewest inputs *)

Lemma firstn_succ_sum (x : Z) (l : list UTXO) :
  0 <= x -> (forall v, In v l -> Value v <= x) ->
  forall j, sum_values (firstn (S j) l) <= x + sum_values (firstn j l).
Proof.
  intros Hx. induction l as [|a l IH]; intros Hall j.
  - rewrite !firstn_nil. cbn. lia.
  - destruct j as [|j].
    + pose proof (Hall a (or_introl eq_refl)).
      change (sum_values (firstn 1 (a :: l))) with (Value a + 0).
      change (sum_values (firstn 0 (a :: l))) with 0. lia.
    + change (firstn (S (S j)) (a :: l)) with (a :: firstn (S j) l).
      change (firstn (S j) (a :: l)) with (a :: firstn j l).
      change (sum_values (a :: firstn (S j) l))
        with (Value a + sum_values (firstn (S j) l)).
      change (sum_values (a :: firstn j l))
        with (Value a + sum_values (firstn j l)).
      assert (Hl : forall v, In v l -> Value v <= x) by (intros v Hv; apply Hall; now right).
      pose proof (IH Hl j). lia.
Qed.

Lemma top_prefix_dominates (s : list UTXO) :
  descending s -> Forall (fun u => 0 <= Value u) s ->
  forall sub, subMultiset sub s ->
    sum_values sub <= sum_values (firstn (length sub) s).
Proof.
  induction s as [|u s IH]; intros Hd Hpos sub [r Hp].
  - apply Permutation_sym, Permutation_nil in Hp.
    apply app_eq_nil in Hp as [-> _]. cbn. lia.
  - apply StronglySorted_inv in Hd as [Hd Hu].
    pose proof (Forall_inv Hpos) as Hu0. apply Forall_inv_tail in Hpos.
    rewrite Forall_forall in Hu.
    destruct sub as [|a sub']; [cbn; lia|].
    set (sub := a :: sub') in *.
    assert (Hin : In u (sub ++ r))
      by (eapply Permutation_in; [apply Permutation_sym, Hp | now left]).
    apply in_app_or in Hin as [Hin|Hin].
    + apply in_split in Hin as (s1 & s2 & E).
      assert (Hp' : Permutation ((s1 ++ s2) ++ r) s).
      { rewrite E in Hp. rewrite <- app_assoc in Hp. cbn in Hp.
        apply Permutation_sym, Permutation_cons_app_inv in Hp.
        rewrite <- app_assoc. now apply Permutation_sym. }
      pose proof (IH Hd Hpos (s1 ++ s2) (ex_intro _ r Hp')) as Hs.
      assert (Elen : length sub = S (length (s1 ++ s2))).
      { rewrite E, !length_app. cbn. lia. }
      rewrite Elen. change (firstn (S (length (s1 ++ s2))) (u :: s))
        with (u :: firstn (length (s1 ++ s2)) s).
      change (sum_values (u :: firstn (length (s1 ++ s2)) s))
        with (Value u + sum_values (firstn (length (s1 ++ s2)) s)).
      rewrite E, sum_values_app.
      change (sum_values (u :: s2)) with (Value u + sum_values s2).
      rewrite sum_values_app in Hs. lia.
    + apply in_split in Hin as (r1 & r2 & E).
      assert (Hp' : Permutation (sub ++ r1 ++ r2) s).
      { rewrite E, app_assoc in Hp.
        apply Permutation_sym, Permutation_cons_app_inv in Hp.
        rewrite <- app_assoc in Hp. now apply Permutation_sym. }
      pose proof (IH Hd Hpos sub (ex_intro _ _ Hp')) as Hs.
      change (length sub) with (S (length sub')) in *.
      change (firstn (S (length sub')) (u :: s))
        with (u :: firstn (length sub') s).
      change (sum_values (u :: firstn (length sub') s))
        with (Value u + sum_values (firstn (length sub') s)).
      pose proof (firstn_succ_sum (Value u) s Hu0 Hu (length sub')). lia.
Qed.

(** X6. [Select] spends as few UTXOs as possible: no non-empty choice of
    UTXOs from the list that reaches the amount has fewer elements than the
    selection (values non-negative, their total within int64). *)
Theorem Select_fewest_inputs `{SliceSorter} (utxos : list UTXO) (amount : Z)
    (sub : list UTXO) :
  ledgerValues utxos ->
  subMultiset sub utxos -> sub <> [] -> amount <= sum_values sub ->
  (length (fst (Select utxos amount)) <= length sub)%nat.
Proof.
  intros Hl Hsub Hne Hamt.
  pose proof (Select_prefix utxos amount) as Hp. cbv zeta in Hp. rewrite Hp. cbn [fst].
  set (sorted := sort_Slice byValueDesc utxos) in *.
  pose proof (sort_Slice_perm UTXO byValueDesc utxos) as Hperm. fold sorted in Hperm.
  pose proof (ledgerValues_perm _ _ Hperm Hl) as Hls.
  destruct (Nat.le_gt_cases (length (firstn (taken sorted amount 0) sorted)) (length sub))
    as [Hle|Hgt]; [exact Hle|exfalso].
  rewrite length_firstn in Hgt.
  assert (Hj : (0 < length sub < taken sorted amount 0)%nat).
  { split; [destruct sub; [congruence | cbn; lia] | lia]. }
  pose proof (taken_minimal sorted amount 0 (length sub) Hj) as Hmin.
  destruct (prefix_total_exact (length sub) sorted Hls) as [Hex _].
  rewrite Hex in Hmin.
  assert (Hsub' : subMultiset sub sorted).
  { destruct Hsub as [r Hr]. exists r. eapply Permutation_trans; eassumption. }
  pose proof (top_prefix_dominates sorted (sort_descending utxos) (proj1 Hls) sub Hsub').
  lia.
Qed.

Lemma Select_fewest_inputs_witness :
  let u1 := Sample.utxo x01 0 300 [] in
  let u2 := Sample.utxo x02 0 700 [] in
  let u3 := Sample.utxo x03 0 500 [] in
  (length (fst (Select [u1; u2; u3] 1100)) <= length [u2; u3])%nat.
Proof.
  intros u1 u2 u3.
  apply (Select_fewest_inputs [u1; u2; u3] 1100 [u2; u3]).
  - split; [repeat constructor; cbn; lia | vm_compute; discriminate].
  - exists [u1]. cbn. apply Permutation_sym.
    change [u1; u2; u3] with ([u1] ++ [u2; u3]).
    change [u2; u3; u1] with ([u2; u3] ++ [u1]). apply Permutation_app_comm.
  - discriminate.
  - vm_compute. discriminate.
Defined.

(** ** The inputs *)

Lemma addInputs_frame (utxos : list UTXO) :
  forall tx, Version (fold_left addInput utxos tx) = Version tx
             /\ LockTime (fold_left addInput utxos tx) = LockTime tx.
Proof.
  induction utxos as [|u utxos IH]; intros tx; cbn [fold_left]; [auto|].
  destruct (IH (addInput tx u)) as [-> ->]. now rewrite addInput_eq.
Qed.

(** X13. [addInputs] cannot fail and does not look at the script type: it
    appends one input per UTXO, in order, spending that UTXO's outpoint with
    an empty unlocking script (nil and zero-length scripts, which serialize
    alike, are one value here), no witness and the final sequence number, and
    leaves the outputs, the version and the lock time as they were; the
    transaction it builds depends on the outpoints alone, not on the values
    or the scripts of the UTXOs. *)
Theorem addInputs_by_outpoint (tx : MsgTx) (utxos : list UTXO) :
  exists tx',
    addInputs tx utxos = ([], Ok tx')
    /\ txIn tx'
       = txIn tx ++ map (fun u => NewTxIn (utxoOutPoint u) [] []) utxos
    /\ Forall (fun ti => Sequence ti = MaxTxInSequenceNum)
         (skipn (length (txIn tx)) (txIn tx'))
    /\ txOut tx' = txOut tx /\ Version tx' = Version tx
    /\ LockTime tx' = LockTime tx
    /\ forall utxos',
         map utxoOutPoint utxos' = map utxoOutPoint utxos ->
         addInputs tx utxos' = addInputs tx utxos.
Proof.
  assert (Hmap : forall l : list UTXO,
            freshInputs l = map (fun op => NewTxIn op [] []) (map utxoOutPoint l)).
  { intros l. unfold freshInputs. now rewrite map_map. }
  assert (Heq : forall a b : MsgTx,
            Version a = Version b -> txIn a = txIn b -> txOut a = txOut b ->
            LockTime a = LockTime b -> a = b).
  { intros [] []; cbn; congruence. }
  exists (fold_left addInput utxos tx). split; [reflexivity|].
  pose proof (addInputs_txIn utxos tx) as Hin. fold (freshInputs utxos).
  split; [exact Hin|]. split.
  - rewrite Hin, skipn_app, skipn_all, Nat.sub_diag. cbn [app skipn].
    unfold freshInputs. apply Forall_forall. intros ti Hti.
    apply in_map_iff in Hti as (u & <- & _). reflexivity.
  - split; [apply addInputs_txOut|]. split; [apply addInputs_frame|].
    split; [apply addInputs_frame|].
    intros utxos' Hop. unfold addInputs, Run.ret. do 2 f_equal.
    apply Heq.
    + now rewrite !(proj1 (addInputs_frame _ _)).
    + now rewrite !addInputs_txIn, !Hmap, Hop.
    + now rewrite !addInputs_txOut.
    + now rewrite !(proj2 (addInputs_frame _ _)).
Qed.

(** ** The signer: what it leaves alone, and its calls *)

Lemma map_pointwise {A B} (f : A -> B) (l : list A) :
  forall l', length l' = length l ->
    (forall j a, nth_error l j = Some a ->
       exists a', nth_error l' j = Some a' /\ f a' = f a) ->
    map f l' = map f l.
Proof.
  induction l as [|a l IH]; intros [|a' l'] Hlen Hall; try discriminate Hlen.
  - reflexivity.
  - destruct (Hall 0%nat a eq_refl) as (b & Hb & Hf). injection Hb as <-.
    cbn [map]. rewrite Hf. f_equal. apply IH; [now injection Hlen|].
    intros j x Hx. exact (Hall (S j) x Hx).
Qed.

Lemma signedAs_frame (W : World) (key : bytes) (utxos : list UTXO) (i : nat)
    (u : UTXO) (before after : TxIn) :
  signedAs W key utxos i u before after ->
  PreviousOutPoint after = PreviousOutPoint before
  /\ Sequence after = Sequence before
  /\ (if IsSegwitScript (PkScript u)
      then SignatureScript after = SignatureScript before
      else Witness after = Witness before).
Proof.
  unfold signedAs. destruct (IsSegwitScript (PkScript u));
    intros (cur & x & _ & ->); cbn; auto.
Qed.

(** X7. A successful [signTransaction] changes nothing but signatures: the
    version, the lock time and the outputs are those of the transaction it
    was given, the inputs are as many, in the same order, with the same
    previous outpoints and sequence numbers; an input of a witness-type UTXO
    keeps its unlocking script, an input of any other UTXO keeps its
    witness. *)
Theorem signTransaction_frame (W : World) (tx : MsgTx) (key : bytes)
    (utxos : list UTXO) (t : list event) (tx' : MsgTx) :
  signTransaction W tx key utxos = (t, Ok tx') ->
  Version tx' = Version tx /\ LockTime tx' = LockTime tx
  /\ txOut tx' = txOut tx
  /\ map PreviousOutPoint (txIn tx') = map PreviousOutPoint (txIn tx)
  /\ map Sequence (txIn tx') = map Sequence (txIn tx)
  /\ (forall i ti ti' u,
        nth_error (txIn tx) i = Some ti -> nth_error (txIn tx') i = Some ti' ->
        nth_error utxos i = Some u ->
        if IsSegwitScript (PkScript u)
        then SignatureScript ti' = SignatureScript ti
        else Witness ti' = Witness ti).
Proof.
  unfold signTransaction.
  destruct (signLoop W tx key utxos [] (txIn tx) 0) as [t0 [ins|e|]] eqn:Hl;
    cbn; try discriminate.
  intros E. injection E as _ <-.
  destruct (signLoop_ok W tx key utxos _ _ _ _ _ Hl) as (signed' & -> & Hlen & Hall).
  cbn [app setTxIn Version LockTime txOut txIn].
  repeat split.
  - apply map_pointwise; [exact Hlen|]. intros j a Ha.
    destruct (Hall j a Ha) as (u & after & _ & Hn & Hs).
    exists after. split; [exact Hn|]. now apply signedAs_frame in Hs.
  - apply map_pointwise; [exact Hlen|]. intros j a Ha.
    destruct (Hall j a Ha) as (u & after & _ & Hn & Hs).
    exists after. split; [exact Hn|]. now apply signedAs_frame in Hs.
  - intros i ti ti' u Hi Hi' Hu.
    destruct (Hall i ti Hi) as (u' & after & Hu' & Hn & Hs).
    cbn in Hu'. rewrite Hu in Hu'. injection Hu' as <-.
    rewrite Hi' in Hn. injection Hn as <-.
    now apply signedAs_frame in Hs.
Qed.

Lemma signTransaction_frame_witness :
  let W := Sample.world Sample.mixed (Some Sample.unitRate) in
  let tx := setTxIn (NewMsgTx TxVersion) (freshInputs Sample.mixed) in
  exists t tx',
    signTransaction W tx (privateKey Sample.wallet) Sample.mixed = (t, Ok tx')
    /\ map PreviousOutPoint (txIn tx') = map PreviousOutPoint (txIn tx).
Proof.
  intros W tx.
  destruct (signTransaction W tx (privateKey Sample.wallet) Sample.mixed)
    as [t [tx'|e|]] eqn:Hs; try (vm_compute in Hs; discriminate).
  exists t, tx'. split; [reflexivity|].
  exact (proj1 (proj2 (proj2 (proj2 (signTransaction_frame W _ _ _ _ _ Hs))))).
Defined.

Lemma skipn_nth_error {A} (l : list A) (i : nat) (a : A) :
  nth_error l i = Some a -> skipn i l = a :: skipn (S i) l.
Proof.
  revert i. induction l as [|x l IH]; intros [|i] H; try discriminate H.
  - now injection H as ->.
  - exact (IH i H).
Qed.

Section SignerTrace.
Context (W : World) (tx : MsgTx) (key : bytes) (utxos : list UTXO).

(** The calls of the loop from input [i] on, whatever the outcome. *)
Lemma signLoop_trace (todo : list TxIn) :
  forall signed i t r,
    signLoop W tx key utxos signed todo i = (t, r) ->
    match r with
    | Ok _ | Panic => t = signEvents i (firstn (length todo) (skipn i utxos))
    | Err (ErrSegwitSigHash j) =>
        (i <= j < i + length todo)%nat
        /\ t = signEvents i (firstn (j - i) (skipn i utxos)) ++ [EvSigHash j]
    | Err (ErrSignInput j) =>
        (i <= j < i + length todo)%nat
        /\ t = signEvents i (firstn (j - i) (skipn i utxos)) ++ [EvSign j]
    | Err _ => False
    end.
Proof.
  induction todo as [|ti todo IH]; intros signed i t r Hrun.
  - cbn in Hrun. injection Hrun as <- <-. reflexivity.
  - cbn [signLoop] in Hrun.
    destruct (nth_error utxos i) as [u|] eqn:Hu.
    + rewrite (skipn_nth_error _ _ _ Hu). cbn [length].
      assert (Hstep : forall j, (S i <= j)%nat ->
                (j - i = S (j - S i))%nat) by (intros; lia).
      assert (E1 : forall k l, signEvents i (firstn (S k) (u :: l))
                  = signEventsOf i u ++ signEvents (S i) (firstn k l))
        by reflexivity.
      unfold signEventsOf in E1.
      destruct (IsSegwitScript (PkScript u)) eqn:Hseg; cbn in Hrun.
      * destruct (CalcWitnessSigHash W (PkScript u) utxos
                    (setTxIn tx (signed ++ ti :: todo)) i (Value u));
          cbn in Hrun.
        2:{ injection Hrun as <- <-. split; [lia|].
            now rewrite Nat.sub_diag. }
        match type of Hrun with
        | context [signLoop W tx key utxos ?s todo (S i)] =>
            destruct (signLoop W tx key utxos s todo (S i)) as [t' r'] eqn:Hrec
        end.
        injection Hrun as <- <-. specialize (IH _ _ _ _ Hrec).
        destruct r' as [out|[]|]; try contradiction.
        -- now rewrite E1, IH.
        -- destruct IH as [Hj ->]. split; [lia|].
           now rewrite (Hstep i0), E1 by lia.
        -- destruct IH as [Hj ->]. split; [lia|].
           now rewrite (Hstep i0), E1 by lia.
        -- now rewrite E1, IH.
      * destruct (txscript_SignatureScript W (setTxIn tx (signed ++ ti :: todo)) i
                    (PkScript u) key); cbn in Hrun.
        2:{ injection Hrun as <- <-. split; [lia|].
            now rewrite Nat.sub_diag. }
        match type of Hrun with
        | context [signLoop W tx key utxos ?s todo (S i)] =>
            destruct (signLoop W tx key utxos s todo (S i)) as [t' r'] eqn:Hrec
        end.
        injection Hrun as <- <-. specialize (IH _ _ _ _ Hrec).
        destruct r' as [out|[]|]; try contradiction.
        -- now rewrite E1, IH.
        -- destruct IH as [Hj ->]. split; [lia|].
           now rewrite (Hstep i0), E1 by lia.
        -- destruct IH as [Hj ->]. split; [lia|].
           now rewrite (Hstep i0), E1 by lia.
        -- now rewrite E1, IH.
    + injection Hrun as <- <-. apply nth_error_None in Hu.
      now rewrite (skipn_all2 _ Hu), firstn_nil.
Qed.
End SignerTrace.

(** X8. [signTransaction] visits the inputs in index order and stops at the
    first failure.  When it returns without error it has made, for input 0,
    1, ... in turn, the calls of that input's UTXO: signature hash then
    signature for a witness-type script, txscript.SignatureScript otherwise.
    When it fails at input [j], the inputs before [j] have had all their
    calls, the failed call is the last one, and no later input is touched. *)
Theorem signTransaction_trace (W : World) (tx : MsgTx) (key : bytes)
    (utxos : list UTXO) (t : list event) (r : result MsgTx) :
  signTransaction W tx key utxos = (t, r) ->
  match r with
  | Ok _ | Panic => t = signEvents 0 (firstn (length (txIn tx)) utxos)
  | Err (ErrSegwitSigHash j) =>
      (j < length (txIn tx))%nat
      /\ t = signEvents 0 (firstn j utxos) ++ [EvSigHash j]
  | Err (ErrSignInput j) =>
      (j < length (txIn tx))%nat
      /\ t = signEvents 0 (firstn j utxos) ++ [EvSign j]
  | Err _ => False
  end.
Proof.
  unfold signTransaction.
  destruct (signLoop W tx key utxos [] (txIn tx) 0) as [t0 r0] eqn:Hl.
  pose proof (signLoop_trace W tx key utxos _ _ _ _ _ Hl) as H.
  cbn [skipn] in H.
  destruct r0 as [ins|e|]; cbn; intros E; injection E as <- <-.
  - now rewrite app_nil_r.
  - destruct e; try contradiction; rewrite Nat.sub_0_r in H;
      (split; [lia | tauto]).
  - exact H.
Qed.

Lemma signTransaction_trace_witness :
  let W := Sample.world Sample.mixed (Some Sample.unitRate) in
  let tx := setTxIn (NewMsgTx TxVersion) (freshInputs Sample.mixed) in
  fst (signTransaction W tx (privateKey Sample.wallet) Sample.mixed)
  = [EvSigHash 0; EvSign 0; EvSign 1].
Proof.
  intros W tx.
  destruct (signTransaction W tx (privateKey Sample.wallet) Sample.mixed)
    as [t [tx'|e|]] eqn:Hs; try (vm_compute in Hs; discriminate).
  exact (signTransaction_trace W _ _ _ _ _ Hs).
Defined.

(** ** The fee against the exact product *)

Lemma round64_int (a : Z) :
  0 <= a <= 2 ^ 53 -> round64 (a * 2 ^ fixS) = a * 2 ^ fixS.
Proof.
  intros Ha. destruct (Z.eq_dec a 0) as [->|H0]; [reflexivity|].
  destruct (Z.eq_dec a (2 ^ 53)) as [->|H53].
  - rewrite <- Z.pow_add_r by (unfold fixS; lia).
    rewrite <- (Z.mul_1_l (2 ^ (53 + fixS))).
    apply round64_exact; [lia | unfold fixS; lia].
  - apply round64_exact; [lia | unfold fixS; lia].
Qed.

(** X9. For non-negative counts, a non-negative fee rate, and a virtual size
    and an exact product of virtual size and rate both below 2^53,
    [EstimateFee] returns the integer part of the exact
    product plus 1 or plus 2 (the latter when the binary64 product rounds up
    to the next integer); the fee always strictly exceeds the exact
    product.  Exact values are in units of 2^-[fixS]. *)
Theorem EstimateFee_exceeds_exact (n m : Z) (r : float64) :
  0 <= n -> 0 <= m -> vsizeExact n m < 2 ^ 53 ->
  nonnegFinite r = true -> valid_binary prec emax r = true ->
  vsizeExact n m * fixed r < 2 ^ 53 * 2 ^ fixS ->
  let exact := vsizeExact n m * fixed r in
  (EstimateFee n m r = exact / 2 ^ fixS + 1
   \/ EstimateFee n m r = exact / 2 ^ fixS + 2)
  /\ exact < EstimateFee n m r * 2 ^ fixS.
Proof.
  intros Hn Hm Hv Hr Hval Hx exact.
  destruct (nonnegFinite_finite r Hr) as [Hfin Hsg].
  pose proof (valid_expOK r Hval) as He.
  pose proof (fixed_nonneg r) as Hf0.
  assert (HS : 0 < 2 ^ fixS) by (apply Z.pow_pos_nonneg; unfold fixS; lia).
  assert (Hex0 : 0 <= exact)
    by (apply Z.mul_nonneg_nonneg; [unfold vsizeExact; lia | exact Hf0]).
  set (fl := exact / 2 ^ fixS).
  pose proof (Z.mul_div_le exact (2 ^ fixS) HS) as Hlo.
  pose proof (Z.mul_succ_div_gt exact (2 ^ fixS) HS) as Hhi.
  fold fl in Hlo, Hhi.
  assert (Hfl0 : 0 <= fl) by (apply Z.div_pos; lia).
  assert (Hfl : fl < 2 ^ 53).
  { apply Z.div_lt_upper_bound; [exact HS|]. fold exact in Hx. lia. }
  assert (Rlo : fl * 2 ^ fixS <= round64 exact).
  { rewrite <- (round64_int fl) by lia. apply round64_mono. lia. }
  assert (Rhi : round64 exact <= (fl + 1) * 2 ^ fixS).
  { rewrite <- (round64_int (fl + 1)) by lia. apply round64_mono. lia. }
  assert (Hrange : feeInRange n m r).
  { unfold feeInRange. fold exact.
    assert ((fl + 1) * 2 ^ fixS < 2 ^ 63 * 2 ^ fixS)
      by (apply Z.mul_lt_mono_pos_r; lia).
    lia. }
  destruct (EstimateFee_fixed n m r Hn Hm Hv Hfin He Hrange) as [Efee _].
  fold exact in Efee.
  set (q := round64 exact / 2 ^ fixS) in *.
  assert (Hq : fl <= q <= fl + 1).
  { unfold q. split.
    - apply Z.div_le_lower_bound; lia.
    - apply Z.div_le_upper_bound; lia. }
  assert (Efee' : EstimateFee n m r = q + 1).
  { rewrite Efee. unfold signOf. destruct Hsg as [Hz|Hs].
    - assert (q = 0); [|destruct (signBit r); lia].
      unfold q, exact. now rewrite Hz, Z.mul_0_r.
    - rewrite Hs. lia. }
  rewrite Efee'. split; [lia|]. nia.
Qed.

Lemma EstimateFee_exceeds_exact_witness :
  let exact := vsizeExact 1 2 * fixed Sample.rate in
  (EstimateFee 1 2 Sample.rate = exact / 2 ^ fixS + 1
   \/ EstimateFee 1 2 Sample.rate = exact / 2 ^ fixS + 2)
  /\ exact < EstimateFee 1 2 Sample.rate * 2 ^ fixS.
Proof.
  apply EstimateFee_exceeds_exact; try lia; try reflexivity.
Defined.

(** ** The order of the external calls of [CreateTransaction] *)

Lemma assemble_phases `{SliceSorter} (W : World) (w : Wallet) (recv : string)
    (amount : Z) (t : list event) (r : result (MsgTx * list UTXO * Z * Z)) :
  assemble W w recv amount = (t, r) ->
  (t = [] /\ (r = Err ErrDecodeAddress \/ r = Err ErrPayToAddrScript))
  \/ (t = [EvGetUTXOs (address w)] /\ r = Err ErrGetUTXOs)
  \/ (t = [EvGetUTXOs (address w); EvGetFeeRate]
      /\ (r = Err ErrGetFeeRate \/ r = Err ErrNoChange
          \/ r = Err ErrDecodeAddress \/ r = Err ErrPayToAddrScript
          \/ exists x, r = Ok x)).
Proof.
  unfold assemble, fund, addChange, addOutput, selectUTXOs, addInputs.
  destruct (DecodeAddress W recv) as [addr|]; cbn;
    [|intros E; injection E as <- <-; auto].
  destruct (PayToAddrScript W addr) as [script|]; cbn;
    [|intros E; injection E as <- <-; auto].
  destruct (GetUTXOs W (address w)) as [utxos|]; cbn;
    [|intros E; injection E as <- <-; auto].
  destruct (Select utxos amount) as [sel total]; cbn.
  destruct (GetFeeRate W) as [feeRate|]; cbn;
    [|intros E; injection E as <- <-; auto 7].
  destruct (0 <? changeOf total amount
                   (EstimateFee (Z.of_nat (length sel)) 2 feeRate)); cbn;
    [|intros E; injection E as <- <-; auto 7].
  destruct (DecodeAddress W (address w)) as [self|]; cbn;
    [|intros E; injection E as <- <-; auto 8].
  destruct (PayToAddrScript W self) as [cs|]; cbn;
    intros E; injection E as <- <-; eauto 10.
Qed.

(** X10. The external calls of [CreateTransaction] come in a fixed order, and
    each failure ends the run where it occurs: a payee address that does not
    decode fails before any request; a failed UTXO request is not followed by
    a fee request; a failed fee request, a non-positive change or a wallet
    address that does not decode end the run after both requests and before
    any signing; otherwise the signer runs on the assembled transaction, and
    on success the trace is the two requests followed by the signing calls of
    every selected UTXO in order. *)
Theorem CreateTransaction_phases `{SliceSorter} (W : World) (w : Wallet)
    (recv : string) (amount : Z) (t : list event) (r : result bytes) :
  CreateTransaction W w recv amount = (t, r) ->
  let requests := [EvGetUTXOs (address w); EvGetFeeRate] in
  (t = [] /\ (r = Err ErrDecodeAddress \/ r = Err ErrPayToAddrScript))
  \/ (t = [EvGetUTXOs (address w)] /\ r = Err ErrGetUTXOs)
  \/ (t = requests
      /\ (r = Err ErrGetFeeRate \/ r = Err ErrNoChange
          \/ r = Err ErrDecodeAddress \/ r = Err ErrPayToAddrScript))
  \/ (exists tx sel total fee,
        assemble W w recv amount = (requests, Ok (tx, sel, total, fee))
        /\ match r with
           | Ok raw =>
               t = requests ++ signEvents 0 sel
               /\ exists tx',
                    signTransaction W tx (privateKey w) sel
                    = (signEvents 0 sel, Ok tx')
                    /\ Serialize W tx' = Some raw
           | Err ErrSerialize => t = requests ++ signEvents 0 sel
           | Err (ErrSegwitSigHash j) =>
               (j < length sel)%nat
               /\ t = requests ++ signEvents 0 (firstn j sel) ++ [EvSigHash j]
           | Err (ErrSignInput j) =>
               (j < length sel)%nat
               /\ t = requests ++ signEvents 0 (firstn j sel) ++ [EvSign j]
           | _ => False
           end).
Proof.
  intros Hrun requests. rewrite CreateTransaction_assemble in Hrun.
  destruct (assemble W w recv amount) as [t0 r0] eqn:Ha.
  destruct (assemble_phases W w recv amount t0 r0 Ha)
    as [[-> Hr]|[[-> ->]|[-> Hr]]].
  - left. destruct Hr as [-> | ->]; cbn in Hrun; injection Hrun as <- <-; auto.
  - right. left. cbn in Hrun. injection Hrun as <- <-. auto.
  - destruct Hr as [-> | [-> | [-> | [-> | [[[[tx sel] total] fee] ->]]]]];
      try (right; right; left; cbn in Hrun; injection Hrun as <- <-;
           split; [reflexivity | tauto]).
    right. right. right. exists tx, sel, total, fee. split; [reflexivity|].
    pose proof (assemble_inputs W w recv amount _ _ _ _ _ Ha) as Hin.
    assert (Hlen : length (txIn tx) = length sel)
      by (rewrite Hin; unfold freshInputs; apply length_map).
    cbn [bind] in Hrun. unfold signTransaction in Hrun |- *.
    destruct (signLoop W tx (privateKey w) sel [] (txIn tx) 0) as [s rs] eqn:Hl.
    pose proof (signLoop_trace W tx (privateKey w) sel _ _ _ _ _ Hl) as Ht.
    cbn [skipn] in Ht. rewrite Hlen, ?firstn_all in Ht.
    destruct rs as [ins|e|]; cbn in Hrun.
    + subst s. destruct (Serialize W (setTxIn tx ins)) as [raw|] eqn:Hser;
        cbn in Hrun; injection Hrun as <- <-; rewrite !app_nil_r.
      * split; [reflexivity|]. exists (setTxIn tx ins). cbn.
        rewrite app_nil_r. auto.
      * reflexivity.
    + injection Hrun as <- <-.
      destruct e; try contradiction; rewrite Nat.sub_0_r in Ht;
        destruct Ht as [Hj ->]; (split; [lia | reflexivity]).
    + exfalso. destruct (signLoop_result W tx (privateKey w) sel _ _ _ _ _ Hl)
        as [[? E]|[[? E]|[[? E]|[_ Hlt]]]]; try discriminate E.
      cbn in Hlt. lia.
Qed.

Lemma CreateTransaction_phases_witness :
  let W := Sample.world Sample.mixed (Some Sample.unitRate) in
  exists t raw,
    CreateTransaction W Sample.wallet Sample.payee 10000 = (t, Ok raw)
    /\ t = [EvGetUTXOs (address Sample.wallet); EvGetFeeRate]
           ++ signEvents 0 Sample.mixed.
Proof.
  intros W.
  destruct (CreateTransaction W Sample.wallet Sample.payee 10000)
    as [t [raw|e|]] eqn:Hrun; try (vm_compute in Hrun; discriminate).
  exists t, raw. split; [reflexivity|].
  destruct (CreateTransaction_phases _ _ _ _ _ _ Hrun)
    as [[_ Hr]|[[_ Hr]|[[_ Hr]|(tx & sel & total & fee & Ha & Ht & _)]]];
    try (repeat (destruct Hr as [Hr|Hr]; try discriminate Hr); discriminate Hr).
  vm_compute in Ha. injection Ha as _ <- _ _. exact Ht.
Defined.

(** ** helper.go over HTTP *)

Module HttpFacts.
Import Http.

Lemma GetScriptPubKey_log (E : Env) (txid : string) (voutIndex : Z)
    (log : list request) :
  fst (GetScriptPubKey E txid voutIndex log) = log ++ [GET (API_URL ++ "/tx/" ++ txid)]
  /\ snd (GetScriptPubKey E txid voutIndex log) <> Crash
  /\ snd (GetScriptPubKey E txid voutIndex log) <> Fail FetchUTXOs
  /\ snd (GetScriptPubKey E txid voutIndex log) <> Fail DecodeUTXOs.
Proof.
  unfold GetScriptPubKey, bind, http_Get, orFail, ret, fail, crash, index.
  destruct (serve E log _) as [resp|]; cbn; [|repeat split; discriminate].
  destruct (StatusCode resp =? 200); cbn; [|repeat split; discriminate].
  destruct (Body resp) as [body|]; cbn; [|repeat split; discriminate].
  destruct (json_Unmarshal_TxInfo E body) as [tx|]; cbn;
    [|repeat split; discriminate].
  destruct (Z.ltb_spec voutIndex 0) as [Hneg|Hpos]; cbn;
    [repeat split; discriminate|].
  destruct (Z.leb_spec (Z.of_nat (length (Vout tx))) voutIndex) as [Hbig|Hin];
    cbn; [repeat split; discriminate|].
  destruct (nth_error (Vout tx) (Z.to_nat voutIndex)) as [vout|] eqn:Hn.
  - destruct (hex_DecodeString E (ScriptPubKey vout)); cbn;
      repeat split; discriminate.
  - apply nth_error_None in Hn. lia.
Qed.

(** X11. [GetScriptPubKey] makes exactly one request, for the transaction,
    and never indexes outside the output list: whatever the provider sends
    and whatever the index, it returns a script or an error.  It returns a
    script exactly when the request succeeds with status 200, the body is
    read and parsed, the index is within the outputs, and the script of that
    output is valid hexadecimal. *)
Theorem GetScriptPubKey_guarded (E : Env) (txid : string) (voutIndex : Z)
    (log : list request) :
  let req := GET (API_URL ++ "/tx/" ++ txid) in
  exists r,
    GetScriptPubKey E txid voutIndex log = (log ++ [req], r)
    /\ r <> Crash
    /\ forall spk,
         r = Done spk <->
         exists resp body tx vout,
           serve E log req = Some resp /\ StatusCode resp = 200
           /\ Body resp = Some body
           /\ json_Unmarshal_TxInfo E body = Some tx
           /\ 0 <= voutIndex
           /\ nth_error (Vout tx) (Z.to_nat voutIndex) = Some vout
           /\ hex_DecodeString E (ScriptPubKey vout) = Some spk.
Proof.
  intros req.
  unfold GetScriptPubKey, bind, http_Get, orFail, ret, fail, crash, index.
  fold req.
  destruct (serve E log req) as [resp|]; cbn.
  2:{ eexists. split; [reflexivity|]. split; [discriminate|].
      intros spk. split; [discriminate|].
      intros (? & ? & ? & ? & H & _). discriminate H. }
  destruct (Z.eqb_spec (StatusCode resp) 200) as [Hst|Hst]; cbn.
  2:{ eexists. split; [reflexivity|]. split; [discriminate|].
      intros spk. split; [discriminate|].
      intros (? & ? & ? & ? & H & H' & _). injection H as <-. contradiction. }
  destruct (Body resp) as [body|] eqn:Hb; cbn.
  2:{ eexists. split; [reflexivity|]. split; [discriminate|].
      intros spk. split; [discriminate|].
      intros (? & ? & ? & ? & H & _ & H' & _). injection H as <-.
      rewrite Hb in H'. discriminate H'. }
  destruct (json_Unmarshal_TxInfo E body) as [tx|] eqn:Hj; cbn.
  2:{ eexists. split; [reflexivity|]. split; [discriminate|].
      intros spk. split; [discriminate|].
      intros (? & ? & ? & ? & H & _ & H' & H'' & _). injection H as <-.
      rewrite Hb in H'. injection H' as <-. rewrite Hj in H''. discriminate H''. }
  destruct (Z.ltb_spec voutIndex 0) as [Hneg|Hpos]; cbn.
  { eexists. split; [reflexivity|]. split; [discriminate|].
    intros spk. split; [discriminate|].
    intros (? & ? & ? & ? & _ & _ & _ & _ & H & _). lia. }
  destruct (Z.leb_spec (Z.of_nat (length (Vout tx))) voutIndex) as [Hbig|Hin];
    cbn.
  { eexists. split; [reflexivity|]. split; [discriminate|].
    intros spk. split; [discriminate|].
    intros (? & ? & ? & ? & H & _ & H' & H'' & _ & Hn & _). injection H as <-.
    rewrite Hb in H'. injection H' as <-. rewrite Hj in H''. injection H'' as <-.
    assert (Hlt : (Z.to_nat voutIndex < length (Vout tx))%nat)
      by (apply nth_error_Some; congruence).
    lia. }
  destruct (nth_error (Vout tx) (Z.to_nat voutIndex)) as [vout|] eqn:Hn.
  2:{ apply nth_error_None in Hn. lia. }
  destruct (hex_DecodeString E (ScriptPubKey vout)) as [spk0|] eqn:Hh; cbn.
  - eexists. split; [reflexivity|]. split; [discriminate|].
    intros spk. split.
    + intros H. injection H as <-. exists resp, body, tx, vout. auto 10.
    + intros (? & ? & ? & ? & H & _ & H' & H'' & _ & Hn' & Hh').
      injection H as <-. rewrite Hb in H'. injection H' as <-.
      rewrite Hj in H''. injection H'' as <-.
      rewrite Hn in Hn'. injection Hn' as <-. rewrite Hh in Hh'.
      now injection Hh' as <-.
  - eexists. split; [reflexivity|]. split; [discriminate|].
    intros spk. split; [discriminate|].
    intros (? & ? & ? & ? & H & _ & H' & H'' & _ & Hn' & Hh').
    injection H as <-. rewrite Hb in H'. injection H' as <-.
    rewrite Hj in H''. injection H'' as <-.
    rewrite Hn in Hn'. injection Hn' as <-. rewrite Hh in Hh'. discriminate Hh'.
Qed.

Lemma scriptOf_log (E : Env) (u : UTXO) (log : list request) :
  fst (scriptOf E u log) = log ++ [GET (txURL E u)]
  /\ snd (scriptOf E u log) <> Crash
  /\ snd (scriptOf E u log) <> Fail FetchUTXOs
  /\ snd (scriptOf E u log) <> Fail DecodeUTXOs.
Proof. apply GetScriptPubKey_log. Qed.

(** The loop asks for one transaction per UTXO, in order, and stops at the
    first failure. *)
Lemma fillScripts_run (E : Env) (utxos : list UTXO) :
  forall log log' r,
    fillScripts E utxos log = (log', r) ->
    match r with
    | Done out =>
        log' = log ++ txRequests E utxos
        /\ map utxoOutPoint out = map utxoOutPoint utxos
        /\ map Value out = map Value utxos
        /\ forall i u o,
             nth_error utxos i = Some u -> nth_error out i = Some o ->
             snd (scriptOf E u (log ++ txRequests E (firstn i utxos)))
             = Done (PkScript o)
    | Fail e =>
        e <> FetchUTXOs /\ e <> DecodeUTXOs
        /\ exists k u,
             nth_error utxos k = Some u
             /\ log' = log ++ txRequests E (firstn (S k) utxos)
             /\ snd (scriptOf E u (log ++ txRequests E (firstn k utxos)))
                = Fail e
    | Crash => False
    end.
Proof.
  induction utxos as [|u utxos IH]; intros log log' r Hrun.
  - cbn in Hrun. injection Hrun as <- <-. cbn. rewrite app_nil_r.
    repeat split; auto. intros [|i] ? ? H; discriminate H.
  - cbn [fillScripts] in Hrun. unfold bind at 1 in Hrun.
    destruct (scriptOf_log E u log) as (Hlog & Hnc & Hn1 & Hn2).
    destruct (scriptOf E u log) as [log1 r1] eqn:Hs. cbn [fst snd] in *.
    subst log1.
    destruct r1 as [pk|e|]; [|injection Hrun as <- <-|contradiction].
    + unfold bind at 1 in Hrun.
      destruct (fillScripts E utxos (log ++ [GET (txURL E u)])) as [log2 r2] eqn:Hrec.
      specialize (IH _ _ _ Hrec).
      destruct r2 as [rest|e|]; [| |contradiction].
      * cbn in Hrun. injection Hrun as <- <-.
        destruct IH as (-> & Hop & Hval & Hscr).
        split; [now rewrite <- app_assoc|].
        split; [cbn; now rewrite Hop|]. split; [cbn; now rewrite Hval|].
        intros [|i] u0 o Hu Ho.
        -- injection Hu as <-. injection Ho as <-.
           cbn [firstn txRequests map withPkScript PkScript].
           rewrite app_nil_r, Hs. reflexivity.
        -- cbn in Hu, Ho. specialize (Hscr i u0 o Hu Ho).
           cbn [firstn txRequests map]. fold (txRequests E (firstn i utxos)).
           now rewrite <- app_assoc in Hscr.
      * injection Hrun as <- <-.
        destruct IH as (H1 & H2 & k & u0 & Hk & -> & Hf).
        split; [exact H1|]. split; [exact H2|].
        exists (S k), u0. split; [exact Hk|].
        split; [now rewrite <- app_assoc|].
        cbn [firstn txRequests map]. fold (txRequests E (firstn k utxos)).
        now rewrite <- app_assoc in Hf.
    + split; [congruence|]. split; [congruence|].
      exists 0%nat, u. split; [reflexivity|]. split; [reflexivity|].
      cbn [firstn txRequests map]. now rewrite app_nil_r, Hs.
Qed.

Lemma decodeElements_Forall2 (E : Env) (elems : list bytes) :
  forall decoded, decodeElements E elems = Some decoded ->
    Forall2 (fun data u => UnmarshalJSON E zeroUTXO data = Some u) elems decoded.
Proof.
  induction elems as [|data elems IH]; intros decoded Hd; cbn in Hd.
  - injection Hd as <-. constructor.
  - destruct (UnmarshalJSON E zeroUTXO data) as [u|] eqn:Hu; [|discriminate].
    destruct (decodeElements E elems) as [us|]; [|discriminate].
    injection Hd as <-. constructor; auto.
Qed.

Lemma GetUTXOs_eq (E : Env) (address : string) (log : list request) :
  GetUTXOs E address log =
  let first := GET (API_URL ++ "/address/" ++ address ++ "/utxo") in
  match serve E log first with
  | None => (log ++ [first], Fail FetchUTXOs)
  | Some resp =>
      match Body resp with
      | None => (log ++ [first], Fail DecodeUTXOs)
      | Some body =>
          match json_array E body with
          | None => (log ++ [first], Fail DecodeUTXOs)
          | Some elems =>
              match decodeElements E elems with
              | None => (log ++ [first], Fail DecodeUTXOs)
              | Some utxos => fillScripts E utxos (log ++ [first])
              end
          end
      end
  end.
Proof.
  unfold GetUTXOs, bind, http_Get, orFail, ret, fail. cbv zeta.
  destruct (serve E log _) as [resp|]; [|reflexivity].
  destruct (Body resp) as [body|]; [|reflexivity].
  destruct (json_array E body) as [elems|]; [|reflexivity].
  destruct (decodeElements E elems) as [decoded|]; reflexivity.
Qed.

(** X12. [GetUTXOs] is all or nothing and keeps the provider's order.  On
    success the UTXOs returned are those decoded from the provider's list,
    each element through [UnmarshalJSON], with the same outpoints and values
    in the same order, and the script of each is what [GetScriptPubKey]
    returned for it; the requests made are the address request followed by
    one transaction request per UTXO, in order.  A failure of the address
    request or of the decoding ends the run after that one request; a failure
    for UTXO [k] ends it after [k+1] transaction requests with that error.
    The status code of the address response is not examined. *)
Theorem GetUTXOs_run (E : Env) (address : string) (log log' : list request)
    (r : outcome (list UTXO)) :
  GetUTXOs E address log = (log', r) ->
  let first := GET (API_URL ++ "/address/" ++ address ++ "/utxo") in
  match r with
  | Done out =>
      exists resp body elems decoded,
        serve E log first = Some resp /\ Body resp = Some body
        /\ json_array E body = Some elems
        /\ Forall2 (fun data u => UnmarshalJSON E zeroUTXO data = Some u)
             elems decoded
        /\ log' = log ++ first :: txRequests E decoded
        /\ map utxoOutPoint out = map utxoOutPoint decoded
        /\ map Value out = map Value decoded
        /\ forall i u o,
             nth_error decoded i = Some u -> nth_error out i = Some o ->
             snd (scriptOf E u (log ++ first :: txRequests E (firstn i decoded)))
             = Done (PkScript o)
  | Fail e =>
      ((e = FetchUTXOs \/ e = DecodeUTXOs) /\ log' = log ++ [first])
      \/ (e <> FetchUTXOs /\ e <> DecodeUTXOs
          /\ exists resp body elems decoded k u,
               serve E log first = Some resp /\ Body resp = Some body
               /\ json_array E body = Some elems
               /\ Forall2 (fun data u => UnmarshalJSON E zeroUTXO data = Some u)
                    elems decoded
               /\ nth_error decoded k = Some u
               /\ log' = log ++ first :: txRequests E (firstn (S k) decoded)
               /\ snd (scriptOf E u
                         (log ++ first :: txRequests E (firstn k decoded)))
                  = Fail e)
  | Crash => False
  end.
Proof.
  intros Hrun. rewrite GetUTXOs_eq in Hrun. cbv zeta in Hrun |- *.
  set (first := GET (API_URL ++ "/address/" ++ address ++ "/utxo")) in *.
  destruct (serve E log first) as [resp|] eqn:Hsrv;
    [|injection Hrun as <- <-; left; auto].
  destruct (Body resp) as [body|] eqn:Hb;
    [|injection Hrun as <- <-; left; auto].
  destruct (json_array E body) as [elems|] eqn:Hj;
    [|injection Hrun as <- <-; left; auto].
  destruct (decodeElements E elems) as [decoded|] eqn:Hd;
    [|injection Hrun as <- <-; left; auto].
  pose proof (decodeElements_Forall2 E elems decoded Hd) as Hdec.
  pose proof (fillScripts_run E decoded _ _ _ Hrun) as H.
  assert (Happ : forall l, (log ++ [first]) ++ l = log ++ first :: l)
    by (intros l; now rewrite <- app_assoc).
  destruct r as [out|e|]; [| |exact H].
  - destruct H as (-> & Hop & Hval & Hscr).
    exists resp, body, elems, decoded. rewrite Happ. repeat split; auto.
    intros i u o Hu Ho. rewrite <- Happ. now apply Hscr.
  - right. destruct H as (H1 & H2 & k & u & Hk & -> & Hf).
    split; [exact H1|]. split; [exact H2|].
    exists resp, body, elems, decoded, k, u. rewrite Happ, <- Happ in Hf.
    rewrite Happ. rewrite Happ in Hf. auto 10.
Qed.

Lemma GetUTXOs_run_witness :
  exists out,
    GetUTXOs sampleEnv "tb1qsender" []
    = ([GET (API_URL ++ "/address/tb1qsender/utxo"); GET (API_URL ++ "/tx/ab")],
       Done out)
    /\ map Value out = [5000] /\ map PkScript out = [Sample.p2wpkh].
Proof.
  destruct (GetUTXOs sampleEnv "tb1qsender" []) as [log' [out|e|]] eqn:Hrun;
    try (vm_compute in Hrun; discriminate).
  pose proof (GetUTXOs_run _ _ _ _ _ Hrun)
    as (resp & body & elems & decoded & _ & _ & _ & _ & _).
  exists out. vm_compute in Hrun. injection Hrun as <- <-.
  repeat split.
Defined.
End HttpFacts.
